(** * SpikingLlama: a shallow embedding of [src/quant_model.py]

    Tensors are nested lists of real numbers: every floating-point operation
    of the source is read as the exact real operation it rounds, and
    [float("-inf")] is the one non-finite value kept (type [ext]).  The
    tensor-library errors kept are the ones the source relies on
    (assertions, [raise], index operations); operands whose shapes do not
    broadcast are outside the model and excluded by shape hypotheses. *)

From Stdlib Require Import String DecimalString.
From Stdlib Require Import Reals Lra Lia Bool Arith List.
Import ListNotations.
Open Scope R_scope.

(* ================================================================= *)
(** ** Exceptions *)

Inductive exn : Type :=
| AssertionError (msg : string)
| NotImplementedError (msg : string)
| IndexError (msg : string)
| RuntimeError (msg : string)
| TypeError (msg : string)
| ZeroDivisionError (msg : string).

Inductive result (A : Type) : Type :=
| Ok (a : A)
| Raise (e : exn).
Arguments Ok {A} a.
Arguments Raise {A} e.

Definition bind {A B} (c : result A) (k : A -> result B) : result B :=
  match c with
  | Ok a => k a
  | Raise e => Raise e
  end.

Notation "x <- c ;; k" := (bind c (fun x => k))
  (at level 61, c at next level, right associativity).
Notation "' p <- c ;; k" := (bind c (fun x => let 'p := x in k))
  (at level 61, p pattern, c at next level, right associativity).


(** Python's [str(n)] inside an f-string. *)
Definition str (n : nat) : string := NilEmpty.string_of_uint (Nat.to_uint n).

(* ================================================================= *)
(** ** Tensors as nested lists *)

Abbreviation vec := (list R) (only parsing).
Abbreviation mat := (list (list R)) (only parsing).               (* (rows, cols) *)
Abbreviation tensor3 := (list (list (list R))) (only parsing).    (* (B, T, C) *)
Abbreviation tensor4 := (list (list (list (list R)))) (only parsing).
                                                              (* (B, T, H, D) *)

Definition map2 {A B C} (f : A -> B -> C) (l1 : list A) (l2 : list B) : list C :=
  map (fun p => f (fst p) (snd p)) (combine l1 l2).

Definition sum (v : vec) : R := fold_right Rplus 0 v.

Definition dot (u v : vec) : R := sum (map2 Rmult u v).

Definition ncols {A} (m : list (list A)) : nat := length (hd [] m).

Definition col (j : nat) (m : mat) : vec := map (fun r => nth j r 0) m.

(** The entry of a matrix at row [r] and column [c]. *)
Definition entry (t : mat) (r c : nat) : R := nth c (nth r t []) 0.

(** The mean and the L2 norm of a vector. *)
Definition mean (v : vec) : R := sum v / INR (length v).
Definition norm2 (v : vec) : R := sqrt (sum (map (fun x => x * x) v)).

(** The list [f 0; ...; f (n - 1)]. *)
Definition tab {A} (n : nat) (f : nat -> A) : list A := map f (seq 0 n).

(** Shapes: a list of [n] elements that all satisfy [p]. *)
Definition is_rect {A} (n : nat) (p : A -> bool) (l : list A) : bool :=
  (length l =? n)%nat && forallb p l.

Definition has_shape2 (R C : nat) (t : mat) : bool :=
  is_rect R (fun v : vec => (length v =? C)%nat) t.

Definition has_shape3 (B T C : nat) (t : tensor3) : bool :=
  is_rect B (has_shape2 T C) t.

Definition has_shape4 (B T H D : nat) (t : tensor4) : bool :=
  is_rect B (has_shape3 T H D) t.

(** The vector of a (B, T, H, D) tensor at batch [b], position [i], head
    [h], and the (H, D) slot at batch [b], position [i]. *)
Definition get4 (t : tensor4) (b i h : nat) : vec :=
  nth h (nth i (nth b t []) []) [].
Definition slot (t : tensor4) (b i : nat) : mat := nth i (nth b t []) [].

(** [a @ b] on two-dimensional operands. *)
Definition matmul (a b : mat) : mat :=
  map (fun ai => map (fun j => dot ai (col j b)) (seq 0 (ncols b))) a.

(** Exchange of the two outer axes of a nested list ([d] fills ragged rows). *)
Definition transpose {A} (d : A) (m : list (list A)) : list (list A) :=
  map (fun j => map (fun r => nth j r d) m) (seq 0 (ncols m)).

(** [t.view(-1, n)] on the flat contents of [t]. *)
Definition chunks {A} (n : nat) (l : list A) : list (list A) :=
  map (fun i => firstn n (skipn (i * n) l)) (seq 0 (length l / n)).

Definition add3 (x y : tensor3) : tensor3 := map2 (map2 (map2 Rplus)) x y.

(** [F.linear(x, weight, bias)] on one row [x]; [weight] is (out, in). *)
Definition F_linear (x : vec) (weight : mat) (bias : option vec) : vec :=
  let y := map (fun w => dot x w) weight in
  match bias with
  | None => y
  | Some b => map2 Rplus y b
  end.

(* ================================================================= *)
(** ** AlphaInit *)

Record AlphaInit := mkAlphaInit { data : vec; initialized : bool }.

(** [AlphaInit.__init__]: the tensor handed in, not yet initialized. *)
Definition AlphaInit___init__ (tensor : vec) : AlphaInit :=
  {| data := tensor; initialized := false |}.

Definition AlphaInit__initialize (self : AlphaInit) (init_tensor : vec)
  : result AlphaInit :=
  if initialized self then Raise (AssertionError "already initialized.")
  else Ok {| data := init_tensor; initialized := true |}.

(** [tensor.abs().view(-1, size).mean(dim=0)] *)
Definition mean_dim0 (size : nat) (rows : mat) : vec :=
  map (fun c => sum (col c rows) / INR (length rows)) (seq 0 size).

(** [tensor] is given by its flat contents: [view(-1, size)] regroups them
    whatever the leading dimensions were. *)
Definition AlphaInit_initialize_wrapper (self : AlphaInit) (tensor : list R)
  : result AlphaInit :=
  let size := length (data self) in
  let init_val :=
    map (Rmult 4) (mean_dim0 size (chunks size (map Rabs tensor))) in
  AlphaInit__initialize self init_val.

(* ================================================================= *)
(** ** act_heaveside *)

(** [(y > 0).float()] *)
Definition gt0 (y : R) : R := if Rlt_dec 0 y then 1 else 0.

(** What [ctx.save_for_backward(y, alpha)] keeps, [y] in its row view. *)
Record heaveside_ctx := mkCtx { saved_y : mat; saved_alpha : vec }.

(** A tensor whose last axis holds the channels: [rows] is its
    [view(-1, size)], [map_rows] an operation broadcast along the last
    axis. *)
Class Tensor (T : Type) := {
  rows : T -> mat;
  map_rows : (vec -> vec) -> T -> T;
  rows_map_rows : forall f x, rows (map_rows f x) = map f (rows x);
  map_rows_map_rows : forall f g x,
    map_rows f (map_rows g x) = map_rows (fun r => f (g r)) x
}.

#[global, refine] Instance Tensor_mat : Tensor mat :=
  {| rows := fun m => m; map_rows := fun f m => map f m |}.
Proof.
  - reflexivity.
  - intros f g x. apply map_map.
Defined.

#[global, refine] Instance Tensor_list (T : Type) `{Tensor T}
  : Tensor (list T) :=
  {| rows := fun t => concat (map rows t);
     map_rows := fun f t => map (map_rows f) t |}.
Proof.
  - intros f x. rewrite concat_map, !map_map. f_equal.
    apply map_ext. intros a. apply rows_map_rows.
  - intros f g x. rewrite map_map. apply map_ext. intros a.
    apply map_rows_map_rows.
Defined.

(** One row of [alpha * positive], the per-channel parameters broadcast
    along the last axis. *)
Definition heaveside_row (alpha beta x : vec) : vec :=
  map2 Rmult alpha (map gt0 (map2 Rminus x beta)).

(** [_uq.forward] *)
Definition act_heaveside_forward {T} `{Tensor T} (x : T) (alpha : AlphaInit)
  (beta : vec) : result (T * heaveside_ctx * AlphaInit) :=
  let y := map_rows (fun r => map2 Rminus r beta) x in
  let positive := map_rows (map gt0) y in
  alpha <- (if negb (initialized alpha)
            then AlphaInit_initialize_wrapper alpha (concat (rows x))
            else Ok alpha) ;;
  let out := map_rows (fun p => map2 Rmult (data alpha) p) positive in
  Ok (out, {| saved_y := rows y; saved_alpha := data alpha |}, alpha).

(** [_uq.backward]: the three tensors it returns, in the order of the
    inputs of [forward]: [(grad_input, grad_alpha, grad_beta)]. *)
Definition act_heaveside_backward (scale : R) (ctx : heaveside_ctx)
  (grad_output : mat) : mat * mat * mat :=
  let grad_input := grad_output in
  let y := saved_y ctx in
  let alpha := saved_alpha ctx in
  let alpha_d := map (map (fun yi => 1 / PI * atan yi + 1 / 2)) y in
  let grad_alpha := map2 (map2 Rmult) alpha_d grad_input in
  let arctan_d :=
    map (map (fun yi => 1 / PI * scale / ((scale * yi) ^ 2 + 1))) y in
  let grad_beta :=
    map2 (map2 Rmult)
      (map (fun d => map2 Rmult (map Ropp alpha) d) arctan_d) grad_input in
  let grad_input :=
    map2 (map2 Rmult)
      (map (fun d => map2 Rmult alpha d) arctan_d) grad_input in
  (grad_input, grad_alpha, grad_beta).

(** The autograd engine reduces a gradient returned in the shape of [x]
    to the shape [(size)] of the parameter it belongs to by summing over
    the leading axes. *)
Definition sum_to_size (size : nat) (g : mat) : vec :=
  map (fun c => sum (col c g)) (seq 0 size).

(* ================================================================= *)
(** ** ParamHeaveside *)

Record ParamHeaveside := mkParamHeaveside {
  zero_point : vec;
  embed_scale : AlphaInit
}.

Definition ParamHeaveside___init__ (size : nat) : ParamHeaveside :=
  {| zero_point := repeat 0 size;
     embed_scale := AlphaInit___init__ (repeat 1 size) |}.

(** The sharpness handed to [act_heaveside] by [ParamHeaveside.__init__]. *)
Definition heaveside_scale : R := 4.

Definition ParamHeaveside_forward {T} `{Tensor T} (self : ParamHeaveside)
  (x : T) : result (T * ParamHeaveside) :=
  '(y, _, a) <- act_heaveside_forward x (embed_scale self) (zero_point self) ;;
  Ok (y, {| zero_point := zero_point self; embed_scale := a |}).

(* ================================================================= *)
(** ** nn.Linear and NormedLinear *)

Record Linear := mkLinear { weight : mat; bias : option vec }.

Definition Linear_forward (self : Linear) (x : vec) : vec :=
  F_linear x (weight self) (bias self).

Record NormedLinear := mkNormedLinear {
  nl_linear : Linear;   (* the [nn.Linear] it extends *)
  nl_scale : R
}.

(** [m.mean(dim=0, keepdim=True)] *)
Definition mean_rows (m : mat) : vec :=
  map (fun j => sum (col j m) / INR (length m)) (seq 0 (ncols m)).

(** [m - v] with [v] broadcast over the rows. *)
Definition sub_rows (m : mat) (v : vec) : mat :=
  map (fun r => map2 Rminus r v) m.

(** [m.norm(2, dim=0, keepdim=True)] *)
Definition norm2_rows (m : mat) : vec :=
  map (fun j => sqrt (sum (map (fun x => x * x) (col j m)))) (seq 0 (ncols m)).

(** The default [eps] of [F.normalize]. *)
Definition normalize_eps : R := / 10 ^ 12.

(** [F.normalize(m, p=2, dim=0)]: each entry over the norm of its column,
    the norm clamped from below by [eps]. *)
Definition F_normalize_dim0 (m : mat) : mat :=
  let denom := map (fun n => Rmax n normalize_eps) (norm2_rows m) in
  map (fun r => map2 Rdiv r denom) m.

(** The weight of [NormedLinear.forward] before the scalar is applied. *)
Definition normalized_weight (w : mat) : mat :=
  F_normalize_dim0 (sub_rows w (mean_rows w)).

Definition NormedLinear_weight (self : NormedLinear) : mat :=
  map (map (Rmult (nl_scale self)))
    (normalized_weight (weight (nl_linear self))).

Definition NormedLinear_forward (self : NormedLinear) (x : vec) : vec :=
  F_linear x (NormedLinear_weight self) (bias (nl_linear self)).

(* ================================================================= *)
(** ** Attention bias and masks *)

(** A float that may be [float("-inf")]. *)
Inductive ext : Type :=
| Fin (r : R)
| NegInf.

Definition ext_add (a b : ext) : ext :=
  match a, b with
  | Fin x, Fin y => Fin (x + y)
  | _, _ => NegInf
  end.

(** [F.relu] of a value that may be [-inf]. *)
Definition relu (a : ext) : R :=
  match a with
  | Fin x => Rmax 0 x
  | NegInf => 0
  end.

(** The conversion of a fill value to the [bool] dtype: non-zero is True. *)
Definition ext_to_bool (a : ext) : bool :=
  match a with
  | Fin x => if Req_dec_T x 0 then false else true
  | NegInf => true
  end.

(** The [mask] argument: [torch.bool] or a float dtype, rows by query
    position, columns by key position. *)
Inductive mask_tensor : Type :=
| BoolMask (m : list (list bool))
| FloatMask (m : list (list ext)).

Definition zeros2 (L S : nat) : list (list ext) := repeat (repeat (Fin 0) S) L.

(** [torch.ones(L, S, dtype=torch.bool).tril(diagonal=0)] *)
Definition ones_tril (L S : nat) : list (list bool) :=
  map (fun i => map (fun j => j <=? i)%nat (seq 0 S)) (seq 0 L).

Definition logical_not (m : list (list bool)) : list (list bool) :=
  map (map negb) m.

(** [t.masked_fill_(m, value)] *)
Definition masked_fill {A} (t : list (list A)) (m : list (list bool)) (value : A)
  : list (list A) :=
  map2 (map2 (fun x b => if b : bool then value else x)) t m.

(* ================================================================= *)
(** ** Config *)

(** The feed-forward classes a configuration can name. *)
Inductive mlp_class_name : Type :=
| LLaMAMLP_name
| GptNeoxMLP_name.

(** Modelled from the spec: [Config] is declared in [src/config.py]
    (absent).  The fields are the ones [quant_model.py] reads;
    [rotary_n_elem] stands for [int(rotary_percentage * head_size)],
    [norm_class] for the row-wise map computed by an instance of the
    configured normalisation class, and [mlp_class] for the field read by
    the line of [Block.__init__] that is commented out. *)
Record Config := mkConfig {
  n_embd : nat;
  n_layer : nat;
  n_head : nat;
  n_query_groups : nat;
  head_size : nat;
  intermediate_size : nat;
  block_size : nat;
  padded_vocab_size : nat;
  use_bias : bool;
  parallel_residual : bool;
  shared_attention_norm : bool;
  norm_eps : R;
  norm_class : nat -> R -> vec -> vec;
  rotary_n_elem : nat;
  condense_ratio : nat;
  mlp_class : mlp_class_name
}.

(* ================================================================= *)
(** ** scaled_dot_product_attention *)

(** [t.size()] of a four-dimensional tensor. *)
Definition shape4 {A} (t : list (list (list (list A))))
  : nat * nat * nat * nat :=
  (length t, ncols t, ncols (hd [] t), ncols (hd [] (hd [] t))).

Definition shape_eqb (s1 s2 : nat * nat * nat * nat) : bool :=
  let '(a1, b1, c1, d1) := s1 in
  let '(a2, b2, c2, d2) := s2 in
  ((a1 =? a2) && (b1 =? b2) && (c1 =? c2) && (d1 =? d2))%nat.

(** [t.repeat_interleave(n, dim=0)] *)
Definition repeat_interleave {A} (n : nat) (l : list A) : list A :=
  flat_map (fun x => repeat x n) l.

(** [torch.dropout(w, 0.0, train=True)]: every entry is kept and scaled
    by [1 / (1 - 0)]. *)
Definition dropout0 (w : tensor4) : tensor4 := w.

(** The additive bias built from [mask], with [mask] as the call leaves
    it. *)
Definition attention_bias (L S : nat) (mask : option mask_tensor)
  : list (list ext) * option mask_tensor :=
  let attn_bias := zeros2 L S in
  match mask with
  | None =>
      let temp_mask := ones_tril L S in
      (masked_fill attn_bias (logical_not temp_mask) NegInf, None)
  | Some (BoolMask m) =>
      (* [mask.masked_fill_]: the fill goes to [mask] itself, converted to
         its dtype *)
      (attn_bias,
       Some (BoolMask (masked_fill m (logical_not m) (ext_to_bool NegInf))))
  | Some (FloatMask m) =>
      (map2 (map2 ext_add) attn_bias m, Some (FloatMask m))
  end.

(** [scaled_dot_product_attention] up to [attn_weight]: the weights
    (B, H, L, S), the values they multiply (B, H, S, D) and [mask] as the
    call leaves it. *)
Definition attention_weights (cfg : Config) (q k v : tensor4)
  (mask : option mask_tensor)
  : result (tensor4 * tensor4 * option mask_tensor) :=
  let scale := Some (1 / INR (head_size cfg)) in
  let q := map (transpose []) q in
  let k := map (transpose []) k in
  let v := map (transpose []) v in
  '(k, v) <-
    (if negb (shape_eqb (shape4 q) (shape4 k)) then
       if ((ncols k =? 0) || (ncols v =? 0))%nat
       then Raise (ZeroDivisionError "integer division or modulo by zero")
       else Ok (map (repeat_interleave (ncols q / ncols k)) k,
                map (repeat_interleave (ncols q / ncols v)) v)
     else Ok (k, v)) ;;
  let L := ncols (hd [] q) in
  let S := ncols (hd [] k) in
  let scale_factor :=
    match scale with
    | None => 1 / sqrt (INR (ncols (hd [] (hd [] q))))
    | Some s => s
    end in
  let '(attn_bias, mask) := attention_bias L S mask in
  let attn_weight :=
    map2 (map2 (fun qh kh =>
                  map (map (fun x => x * scale_factor))
                    (matmul qh (transpose 0 kh)))) q k in
  let attn_weight :=
    map (map (fun w =>
                map2 (map2 (fun x b => relu (ext_add (Fin x) b))) w attn_bias))
      attn_weight in
  let attn_weight := dropout0 attn_weight in
  Ok (attn_weight, v, mask).

Definition scaled_dot_product_attention (cfg : Config) (q k v : tensor4)
  (mask : option mask_tensor) : result (tensor4 * option mask_tensor) :=
  '(attn_weight, v, mask) <- attention_weights cfg q k v mask ;;
  let y := map2 (map2 matmul) attn_weight v in
  Ok (map (transpose []) y, mask).

(* ================================================================= *)
(** ** Key/value cache *)

Definition KVCache : Type := tensor4 * tensor4.

(** [torch.roll(l, -1)] along the axis of [l]. *)
Definition roll_left {A} (l : list A) : list A := skipn 1 l ++ firstn 1 l.

Fixpoint set_nth {A} (i : nat) (x : A) (l : list A) : list A :=
  match l, i with
  | [], _ => []
  | _ :: t, O => x :: t
  | a :: t, S i' => a :: set_nth i' x t
  end.

(** The copies of [index_copy_] along one axis, in index order. *)
Fixpoint index_copy_seq {A} (self : list A) (index : list nat) (source : list A)
  : list A :=
  match index, source with
  | i :: index', s :: source' => index_copy_seq (set_nth i s self) index' source'
  | _, _ => self
  end.

(** [self.index_copy_(1, index, source)] on (B, S, G, D) tensors. *)
Definition index_copy_1 (self : tensor4) (index : list nat) (source : tensor4)
  : result tensor4 :=
  if negb (forallb (fun sb => length index =? length sb)%nat source) then
    Raise (IndexError
      "index_copy_(): Number of indices should be equal to source.size(dim)")
  else if negb (forallb (fun cb => forallb (fun i => i <? length cb)%nat index)
                  self) then
    Raise (IndexError "index_copy_(): index out of range")
  else if negb ((length self =? length source)%nat
                && (snd (fst (shape4 self)) =? snd (fst (shape4 source)))%nat
                && (snd (shape4 self) =? snd (shape4 source))%nat) then
    Raise (RuntimeError
      "index_copy_(): Source/destination tensor must have same slice shapes")
  else Ok (map2 (fun cb sb => index_copy_seq cb index sb) self source).

(** [input_pos[-1]] *)
Definition last_pos (input_pos : list nat) : result nat :=
  match rev input_pos with
  | [] => Raise (IndexError "index -1 is out of bounds for dimension 0 with size 0")
  | p :: _ => Ok p
  end.

(** The cache branch of [CausalSelfAttention.forward]: the keys and values
    attention reads, which are also the new cache. *)
Definition kv_cache_write (max_seq_length : nat) (input_pos : list nat)
  (kv_cache : KVCache) (k v : tensor4) : result KVCache :=
  let '(cache_k, cache_v) := kv_cache in
  p <- last_pos input_pos ;;
  let '(input_pos, cache_k, cache_v) :=
    if (max_seq_length <=? p)%nat
    then ([(max_seq_length - 1)%nat], map roll_left cache_k, map roll_left cache_v)
    else (input_pos, cache_k, cache_v) in
  k <- index_copy_1 cache_k input_pos k ;;
  v <- index_copy_1 cache_v input_pos v ;;
  Ok (k, v).

(* ================================================================= *)
(** ** Modules with parameters *)

Record CausalSelfAttention := mkCausalSelfAttention {
  csa_attn : Linear;
  encoder_input : ParamHeaveside;
  encoder_k : ParamHeaveside;
  encoder_q : ParamHeaveside;
  encoder_output : ParamHeaveside;
  csa_proj : NormedLinear
}.

Record GptNeoxMLP := mkGptNeoxMLP {
  mlp_fc : Linear;
  mlp_act2 : ParamHeaveside;
  mlp_act1 : ParamHeaveside;
  mlp_proj : NormedLinear
}.

(** [norm_1] and [norm_2] are [MyNorm] and carry no parameter. *)
Record Block := mkBlock {
  blk_attn : CausalSelfAttention;
  blk_mlp : GptNeoxMLP
}.

Definition MyNorm_forward (x : tensor3) : tensor3 := x.

Definition GptNeoxMLP_forward (self : GptNeoxMLP) (x : tensor3)
  : result (tensor3 * GptNeoxMLP) :=
  '(x, act1) <- ParamHeaveside_forward (mlp_act1 self) x ;;
  let x := map (map (Linear_forward (mlp_fc self))) x in
  '(x, act2) <- ParamHeaveside_forward (mlp_act2 self) x ;;
  Ok (map (map (NormedLinear_forward (mlp_proj self))) x,
      {| mlp_fc := mlp_fc self; mlp_act2 := act2; mlp_act1 := act1;
         mlp_proj := mlp_proj self |}).

Section Model.

(** Modelled from the spec: [apply_rotary_emb_func] is defined in
    [fused_rotary_embedding.py] (absent).  The rotation of one head vector
    by the table rows of its position is kept abstract. *)
Variable apply_rotary_emb_row : vec -> vec -> vec -> vec.

(** The rounding of [Tensor.bfloat16()]. *)
Variable bfloat16 : R -> R.

(** [apply_rotary_emb_func(x, cos, sin, False, True)] on (B, T, H, D):
    position [t] is rotated by row [t] of the tables. *)
Definition apply_rotary_emb_func (x : tensor4) (cos sin : mat) : tensor4 :=
  map (fun xb =>
         map2 (fun xt cs => map (apply_rotary_emb_row (fst cs) (snd cs)) xt)
           xb (combine cos sin)) x.

(** [qkv.view(B, T, n_query_groups, total_qkv, head_size)] on one row. *)
Definition view_groups (total_qkv hs : nat) (r : vec) : list (list vec) :=
  chunks total_qkv (chunks hs r).

(** One part of [qkv.split((q_per_kv, 1, 1), dim=-2)], reshaped to
    (heads, head_size) for one row. *)
Definition split_part (from len : nat) (groups : list (list vec)) : list vec :=
  concat (map (fun g => firstn len (skipn from g)) groups).

Definition CausalSelfAttention_forward (cfg : Config)
  (self : CausalSelfAttention) (x : tensor3) (rope : mat * mat)
  (max_seq_length : nat) (mask : option mask_tensor)
  (input_pos : option (list nat)) (kv_cache : option KVCache)
  : result (tensor3 * option KVCache * option mask_tensor
            * CausalSelfAttention) :=
  '(x, enc_input) <- ParamHeaveside_forward (encoder_input self) x ;;
  let qkv := map (map (Linear_forward (csa_attn self))) x in
  q_per_kv <-
    (if (n_query_groups cfg =? 0)%nat
     then Raise (ZeroDivisionError "integer division or modulo by zero")
     else Ok (n_head cfg / n_query_groups cfg)%nat) ;;
  let total_qkv := (q_per_kv + 2)%nat in
  let qkv := map (map (view_groups total_qkv (head_size cfg))) qkv in
  let q := map (map (split_part 0 q_per_kv)) qkv in
  let k := map (map (split_part q_per_kv 1)) qkv in
  let v := map (map (split_part (q_per_kv + 1) 1)) qkv in
  let '(cos, sin) := rope in
  let q := apply_rotary_emb_func q cos sin in
  let k := apply_rotary_emb_func k cos sin in
  '(q, enc_q) <- ParamHeaveside_forward (encoder_q self) q ;;
  '(k, enc_k) <- ParamHeaveside_forward (encoder_k self) k ;;
  '(k, v, kv_cache) <-
    match kv_cache with
    | None => Ok (k, v, None)
    | Some cache =>
        match input_pos with
        | None => Raise (TypeError "'NoneType' object is not subscriptable")
        | Some input_pos =>
            '(k, v) <- kv_cache_write max_seq_length input_pos cache k v ;;
            Ok (k, v, Some (k, v))
        end
    end ;;
  '(y, mask) <- scaled_dot_product_attention cfg q k v mask ;;
  let y := map (map (@concat R)) y in
  '(y, enc_output) <- ParamHeaveside_forward (encoder_output self) y ;;
  let y := map (map (NormedLinear_forward (csa_proj self))) y in
  Ok (y, kv_cache, mask,
      {| csa_attn := csa_attn self; encoder_input := enc_input;
         encoder_k := enc_k; encoder_q := enc_q;
         encoder_output := enc_output; csa_proj := csa_proj self |}).

Definition Block_forward (cfg : Config) (self : Block) (x : tensor3)
  (rope : mat * mat) (max_seq_length : nat) (mask : option mask_tensor)
  (input_pos : option (list nat)) (kv_cache : option KVCache)
  : result (tensor3 * option KVCache * option mask_tensor * Block) :=
  let n_1 := MyNorm_forward x in
  '(h, new_kv_cache, mask, attn) <-
    CausalSelfAttention_forward cfg (blk_attn self) n_1 rope max_seq_length
      mask input_pos kv_cache ;;
  if parallel_residual cfg then
    let n_2 := if shared_attention_norm cfg then n_1 else MyNorm_forward x in
    '(m, mlp) <- GptNeoxMLP_forward (blk_mlp self) n_2 ;;
    Ok (add3 (add3 x h) m, new_kv_cache, mask,
        {| blk_attn := attn; blk_mlp := mlp |})
  else
    if shared_attention_norm cfg then
      Raise (NotImplementedError
        ("No checkpoint amongst the ones we support uses this configuration"
         ++ " (non-parallel residual and shared attention norm)."))
    else
      let x := add3 x h in
      '(m, mlp) <- GptNeoxMLP_forward (blk_mlp self) (MyNorm_forward x) ;;
      Ok (add3 x m, new_kv_cache, mask,
          {| blk_attn := attn; blk_mlp := mlp |}).

(* ================================================================= *)
(** ** QuantGPT *)

(** The parameters and the three caches of a model instance; [ln_f] is the
    map [norm_class cfg (n_embd cfg) (norm_eps cfg)]. *)
Record QuantGPT := mkQuantGPT {
  lm_head : Linear;
  wte : mat;
  h : list Block;
  rope_cache : option (mat * mat);
  mask_cache : option (list (list bool));
  kv_caches : list KVCache
}.

(** [torch.arange(0, n, 2)] *)
Definition arange2 (n : nat) : list nat :=
  map (fun i => (2 * i)%nat) (seq 0 ((n + 1) / 2)).

(** The module-level [build_rope_cache], called with
    [dtype=torch.bfloat16] and the default [base]. *)
Definition build_rope_cache (seq_len n_elem : nat) (condense : nat)
  : mat * mat :=
  let base := 10000 in
  let theta :=
    map (fun e => 1 / Rpower base (INR e / INR n_elem)) (arange2 n_elem) in
  let seq_idx := map (fun i => INR i / INR condense) (seq 0 seq_len) in
  let idx_theta := map (fun s => map (fun t => s * t) theta) seq_idx in
  (map (map (fun a => bfloat16 (cos a))) idx_theta,
   map (map (fun a => bfloat16 (sin a))) idx_theta).

Definition QuantGPT_build_rope_cache (cfg : Config) : mat * mat :=
  build_rope_cache (block_size cfg) (rotary_n_elem cfg) (condense_ratio cfg).

Definition build_mask_cache (cfg : Config) : list (list bool) :=
  ones_tril (block_size cfg) (block_size cfg).

Definition zeros4 (B S G D : nat) : tensor4 :=
  repeat (repeat (repeat (repeat 0 D) G) S) B.

Definition build_kv_caches (cfg : Config) (idx : tensor3)
  (max_seq_length rope_cache_length : nat) : list KVCache :=
  let B := length idx in
  let heads :=
    if (n_query_groups cfg =? 1)%nat then 1%nat else n_query_groups cfg in
  repeat
    (zeros4 B max_seq_length heads
       (rope_cache_length + head_size cfg - rotary_n_elem cfg),
     zeros4 B max_seq_length heads (head_size cfg))
    (n_layer cfg).

Definition reset_cache (self : QuantGPT) : QuantGPT :=
  {| lm_head := lm_head self; wte := wte self; h := h self;
     rope_cache := rope_cache self; mask_cache := mask_cache self;
     kv_caches := [] |}.

(** [t.index_select(0, index)] *)
Fixpoint index_select {A} (t : list A) (index : list nat) : result (list A) :=
  match index with
  | [] => Ok []
  | i :: index' =>
      match nth_error t i with
      | None => Raise (IndexError "index out of range in self")
      | Some a => rest <- index_select t index' ;; Ok (a :: rest)
      end
  end.

(** [self.transformer.wte(idx)] *)
Fixpoint embedding (w : mat) (idx : list (list nat)) : result tensor3 :=
  match idx with
  | [] => Ok []
  | row :: idx' =>
      r <- index_select w row ;;
      rest <- embedding w idx' ;;
      Ok (r :: rest)
  end.

(** The loop over the layers without a cache; [h] holds [n_layer] blocks. *)
Fixpoint forward_blocks (cfg : Config) (blocks : list Block) (x : tensor3)
  (rope : mat * mat) (max_seq_length : nat) : result (tensor3 * list Block) :=
  match blocks with
  | [] => Ok (x, [])
  | b :: blocks' =>
      '(x, _, _, b) <- Block_forward cfg b x rope max_seq_length None None None ;;
      '(x, blocks') <- forward_blocks cfg blocks' x rope max_seq_length ;;
      Ok (x, b :: blocks')
  end.

(** The loop over the layers with [kv_caches[i]] read and written back. *)
Fixpoint forward_blocks_cached (cfg : Config) (blocks : list Block)
  (caches : list KVCache) (x : tensor3) (rope : mat * mat)
  (max_seq_length : nat) (mask : option mask_tensor) (input_pos : list nat)
  : result (tensor3 * list Block * list KVCache) :=
  match blocks with
  | [] => Ok (x, [], caches)
  | b :: blocks' =>
      match caches with
      | [] => Raise (IndexError "list index out of range")
      | c :: caches' =>
          '(x, c, mask, b) <-
            Block_forward cfg b x rope max_seq_length mask (Some input_pos)
              (Some c) ;;
          match c with
          | None => Raise (TypeError "kv cache is None")
          | Some c =>
              '(x, blocks', caches') <-
                forward_blocks_cached cfg blocks' caches' x rope
                  max_seq_length mask input_pos ;;
              Ok (x, b :: blocks', c :: caches')
          end
      end
  end.

Definition QuantGPT_forward (cfg : Config) (self : QuantGPT)
  (idx : list (list nat)) (max_seq_length : option nat)
  (input_pos : option (list nat)) : result (tensor3 * QuantGPT) :=
  let T := ncols idx in
  let use_kv_cache := match input_pos with Some _ => true | None => false end in
  let block_size := block_size cfg in
  let max_seq_length :=
    match max_seq_length with None => block_size | Some m => m end in
  if use_kv_cache && negb (T <=? max_seq_length)%nat then
    Raise (AssertionError
      ("Cannot forward sequence of length " ++ str T
       ++ ", max seq length is only " ++ str max_seq_length))
  else if negb (max_seq_length <=? block_size)%nat then
    Raise (AssertionError
      ("Cannot attend to " ++ str max_seq_length
       ++ ", block size is only " ++ str block_size))
  else if negb (T <=? block_size)%nat then
    Raise (AssertionError
      ("Cannot forward sequence of length " ++ str T
       ++ ", block size is only " ++ str block_size))
  else
    let rope_cache :=
      match rope_cache self with
      | None => QuantGPT_build_rope_cache cfg
      | Some rc => rc
      end in
    let '(cos, sin) := rope_cache in
    match input_pos with
    | Some input_pos =>
        let mask_cache :=
          match mask_cache self with
          | None => build_mask_cache cfg
          | Some mc => mc
          end in
        cos <- index_select cos input_pos ;;
        sin <- index_select sin input_pos ;;
        mask <- index_select mask_cache input_pos ;;
        let mask := map (firstn max_seq_length) mask in
        x <- embedding (wte self) idx ;;
        let kv_caches :=
          match kv_caches self with
          | [] => build_kv_caches cfg x max_seq_length (ncols cos * 2)
          | _ :: _ => kv_caches self
          end in
        '(x, blocks, kv_caches) <-
          forward_blocks_cached cfg (h self) kv_caches x (cos, sin)
            max_seq_length (Some (BoolMask mask)) input_pos ;;
        let x := map (map (norm_class cfg (n_embd cfg) (norm_eps cfg))) x in
        Ok (map (map (Linear_forward (lm_head self))) x,
            {| lm_head := lm_head self; wte := wte self; h := blocks;
               rope_cache := Some rope_cache; mask_cache := Some mask_cache;
               kv_caches := kv_caches |})
    | None =>
        let cos := firstn T cos in
        let sin := firstn T sin in
        x <- embedding (wte self) idx ;;
        '(x, blocks) <-
          forward_blocks cfg (h self) x (cos, sin) max_seq_length ;;
        let x := map (map (norm_class cfg (n_embd cfg) (norm_eps cfg))) x in
        Ok (map (map (Linear_forward (lm_head self))) x,
            {| lm_head := lm_head self; wte := wte self; h := blocks;
               rope_cache := Some rope_cache; mask_cache := mask_cache self;
               kv_caches := kv_caches self |})
    end.

(** Incremental decoding: one call per position, [input_pos = [i]], the
    state of each call handed to the next; the result of call [i]. *)
Fixpoint decode (cfg : Config) (self : QuantGPT) (tokens : list (list nat))
  (n i : nat) : result (tensor3 * QuantGPT) :=
  let idx := map (fun row => [nth i row 0%nat]) tokens in
  match i with
  | O => QuantGPT_forward cfg self idx (Some n) (Some [i])
  | S i' =>
      '(_, self) <- decode cfg self tokens n i' ;;
      QuantGPT_forward cfg self idx (Some n) (Some [i])
  end.

(* ================================================================= *)
(** ** The forward pass position by position

    What the layers compute on one position once every [AlphaInit] is
    initialized; the statements about [QuantGPT_forward] are written with
    these. *)

(** A spiking activation with its current parameters, on one row. *)
Definition act (p : ParamHeaveside) : vec -> vec :=
  heaveside_row (data (embed_scale p)) (zero_point p).

Definition q_per_kv (cfg : Config) : nat := (n_head cfg / n_query_groups cfg)%nat.

Definition qkv_groups (cfg : Config) (a : CausalSelfAttention) (x : vec)
  : list (list vec) :=
  view_groups (q_per_kv cfg + 2) (head_size cfg)
    (Linear_forward (csa_attn a) (act (encoder_input a) x)).

(** Queries, keys and values of one position: one vector per head (per
    group for keys and values), [cs] the rows of the rotary tables. *)
Definition q_heads (cfg : Config) (a : CausalSelfAttention) (cs : vec * vec)
  (x : vec) : list vec :=
  map (act (encoder_q a))
    (map (apply_rotary_emb_row (fst cs) (snd cs))
       (split_part 0 (q_per_kv cfg) (qkv_groups cfg a x))).

Definition k_heads (cfg : Config) (a : CausalSelfAttention) (cs : vec * vec)
  (x : vec) : list vec :=
  map (act (encoder_k a))
    (map (apply_rotary_emb_row (fst cs) (snd cs))
       (split_part (q_per_kv cfg) 1 (qkv_groups cfg a x))).

Definition v_heads (cfg : Config) (a : CausalSelfAttention) (x : vec)
  : list vec :=
  split_part (q_per_kv cfg + 1) 1 (qkv_groups cfg a x).

(** The attention output of one query position: per head, the sum over the
    key positions of weight times value. *)
Definition attend (cfg : Config) (bias : nat -> ext) (q : list vec)
  (keys values : list (list vec)) : list vec :=
  tab (n_head cfg) (fun h =>
    tab (head_size cfg) (fun d =>
      sum (tab (length keys) (fun j =>
        relu (ext_add
                (Fin (dot (nth h q [])
                        (nth (h / q_per_kv cfg) (nth j keys []) [])
                      * (1 / INR (head_size cfg))))
                (bias j))
        * nth d (nth (h / q_per_kv cfg) (nth j values []) []) 0)))).

Definition causal (i j : nat) : ext := if (j <=? i)%nat then Fin 0 else NegInf.

Definition attn_post (a : CausalSelfAttention) (heads : list vec) : vec :=
  NormedLinear_forward (csa_proj a) (act (encoder_output a) (concat heads)).

Definition mlp_row (m : GptNeoxMLP) (x : vec) : vec :=
  NormedLinear_forward (mlp_proj m)
    (act (mlp_act2 m) (Linear_forward (mlp_fc m) (act (mlp_act1 m) x))).

(** The residual composition of a block on one position, [heads] being
    the attention output of that position. *)
Definition block_row (cfg : Config) (blk : Block) (x : vec) (heads : list vec)
  : vec :=
  let h := attn_post (blk_attn blk) heads in
  if parallel_residual cfg
  then map2 Rplus (map2 Rplus x h) (mlp_row (blk_mlp blk) x)
  else map2 Rplus (map2 Rplus x h)
         (mlp_row (blk_mlp blk) (map2 Rplus x h)).

(** A block on the whole sequence [xs] of one batch element, with causal
    attention. *)
Definition block_seq (cfg : Config) (blk : Block) (cos sin : mat) (xs : mat)
  : mat :=
  let n := length xs in
  let a := blk_attn blk in
  let keys :=
    tab n (fun j => k_heads cfg a (nth j cos [], nth j sin []) (nth j xs [])) in
  let values := tab n (fun j => v_heads cfg a (nth j xs [])) in
  tab n (fun i =>
    block_row cfg blk (nth i xs [])
      (attend cfg (causal i)
         (q_heads cfg a (nth i cos [], nth i sin []) (nth i xs []))
         keys values)).

(** The layers in sequence, and the logits of the last layer's output. *)
Definition blocks_seq (cfg : Config) (blocks : list Block) (cos sin : mat)
  (x : tensor3) : tensor3 :=
  fold_left (fun x blk => map (block_seq cfg blk cos sin) x) blocks x.

Definition logits_row (cfg : Config) (self : QuantGPT) (x : vec) : vec :=
  Linear_forward (lm_head self) (norm_class cfg (n_embd cfg) (norm_eps cfg) x).

(** The cache of a layer whose input on the full sequence is [x], once
    positions [0 .. i - 1] have been decoded: their keys and values, and
    zeros in the slots not yet written. *)
Definition zero_slot (cfg : Config) : mat :=
  repeat (repeat 0 (head_size cfg)) (n_query_groups cfg).

Definition cache_at (cfg : Config) (blk : Block) (cos sin : mat) (x : tensor3)
  (n i : nat) : KVCache :=
  (map (fun xs =>
          tab n (fun j =>
            if (j <? i)%nat
            then k_heads cfg (blk_attn blk) (nth j cos [], nth j sin [])
                   (nth j xs [])
            else zero_slot cfg)) x,
   map (fun xs =>
          tab n (fun j =>
            if (j <? i)%nat
            then v_heads cfg (blk_attn blk) (nth j xs [])
            else zero_slot cfg)) x).

Fixpoint layer_caches (cfg : Config) (blocks : list Block) (cos sin : mat)
  (x : tensor3) (n i : nat) : list KVCache :=
  match blocks with
  | [] => []
  | blk :: blocks' =>
      cache_at cfg blk cos sin x n i
      :: layer_caches cfg blocks' cos sin
           (map (block_seq cfg blk cos sin) x) n i
  end.

(** Position [i] of every batch element, as a sequence of length 1. *)
Definition position (i : nat) (x : tensor3) : tensor3 :=
  map (fun xs => [nth i xs []]) x.

(** The embedded tokens, for tokens inside the vocabulary. *)
Definition embed (w : mat) (tokens : list (list nat)) : tensor3 :=
  map (map (fun t => nth t w [])) tokens.

(** The hidden states of the last layer on the whole of [tokens], [n]
    positions long, and the instance once positions [0 .. i - 1] of them
    have been decoded. *)
Definition hidden (cfg : Config) (self : QuantGPT) (tokens : list (list nat))
  (n : nat) : tensor3 :=
  let rc := QuantGPT_build_rope_cache cfg in
  blocks_seq cfg (h self) (firstn n (fst rc)) (firstn n (snd rc))
    (embed (wte self) tokens).

Definition decoded (cfg : Config) (self : QuantGPT) (tokens : list (list nat))
  (n i : nat) : QuantGPT :=
  let rc := QuantGPT_build_rope_cache cfg in
  {| lm_head := lm_head self; wte := wte self; h := h self;
     rope_cache := Some rc; mask_cache := Some (build_mask_cache cfg);
     kv_caches :=
       layer_caches cfg (h self) (firstn n (fst rc)) (firstn n (snd rc))
         (embed (wte self) tokens) n i |}.

(** Well-formed configurations and models: the shapes the constructors
    give to what attention reads, every [AlphaInit] initialized, and a
    residual policy that [Block.forward] supports. *)
Definition wf_config (cfg : Config) : bool :=
  ((0 <? n_query_groups cfg) && (0 <? head_size cfg) && (0 <? q_per_kv cfg)
   && (n_head cfg =? n_query_groups cfg * q_per_kv cfg)
   && (rotary_n_elem cfg =? 2 * ((rotary_n_elem cfg + 1) / 2))
   && (rotary_n_elem cfg <=? head_size cfg))%nat
  && (parallel_residual cfg || negb (shared_attention_norm cfg)).

Definition wf_heaveside (size : nat) (p : ParamHeaveside) : bool :=
  ((length (zero_point p) =? size)
   && (length (data (embed_scale p)) =? size))%nat
  && initialized (embed_scale p).

Definition wf_linear (out : nat) (l : Linear) : bool :=
  (length (weight l) =? out)%nat
  && match bias l with
     | None => true
     | Some b => (length b =? out)%nat
     end.

Definition wf_block (cfg : Config) (blk : Block) : bool :=
  let a := blk_attn blk in
  let m := blk_mlp blk in
  wf_linear ((n_head cfg + 2 * n_query_groups cfg) * head_size cfg) (csa_attn a)
  && initialized (embed_scale (encoder_input a))
  && wf_heaveside (head_size cfg) (encoder_q a)
  && wf_heaveside (head_size cfg) (encoder_k a)
  && initialized (embed_scale (encoder_output a))
  && initialized (embed_scale (mlp_act1 m))
  && initialized (embed_scale (mlp_act2 m)).

Definition wf_model (cfg : Config) (self : QuantGPT) : bool :=
  (length (h self) =? n_layer cfg)%nat && forallb (wf_block cfg) (h self).

(** The caches of an instance between generation sessions: the key/value
    caches cleared, the rotary and the mask cache absent or as built. *)
Definition caches_reset (cfg : Config) (self : QuantGPT) : Prop :=
  (rope_cache self = None
   \/ rope_cache self = Some (QuantGPT_build_rope_cache cfg))
  /\ (mask_cache self = None
      \/ mask_cache self = Some (build_mask_cache cfg))
  /\ kv_caches self = [].

(* ================================================================= *)
(** ** Construction: the module tree built by the [__init__] methods *)

Inductive class_name : Type :=
| C_Embedding
| C_Linear
| C_NormedLinear
| C_ParamHeaveside
| C_MyNorm
| C_norm_class
| C_CausalSelfAttention
| C_GptNeoxMLP
| C_LLaMAMLP
| C_SwiGLU
| C_Block
| C_ModuleList
| C_ModuleDict
| C_QuantGPT.

(** A module: its class, its own parameters (name and shape, a parameter
    that is [None] left out) and its named children, in registration
    order. *)
#[warnings="-register-all"]
Inductive module : Type :=
| Module (cls : class_name) (params : list (string * list nat))
    (children : list (string * module)).

Definition cls_of (m : module) : class_name :=
  match m with Module c _ _ => c end.
Definition params_of (m : module) : list (string * list nat) :=
  match m with Module _ p _ => p end.
Definition children_of (m : module) : list (string * module) :=
  match m with Module _ _ c => c end.

Definition class_eqb (a b : class_name) : bool :=
  match a, b with
  | C_Embedding, C_Embedding | C_Linear, C_Linear
  | C_NormedLinear, C_NormedLinear | C_ParamHeaveside, C_ParamHeaveside
  | C_MyNorm, C_MyNorm | C_norm_class, C_norm_class
  | C_CausalSelfAttention, C_CausalSelfAttention
  | C_GptNeoxMLP, C_GptNeoxMLP | C_LLaMAMLP, C_LLaMAMLP
  | C_SwiGLU, C_SwiGLU | C_Block, C_Block | C_ModuleList, C_ModuleList
  | C_ModuleDict, C_ModuleDict | C_QuantGPT, C_QuantGPT => true
  | _, _ => false
  end.

(** [isinstance(module, cls)]: [NormedLinear] extends [nn.Linear]. *)
Definition isinstance (m : module) (c : class_name) : bool :=
  class_eqb (cls_of m) c
  || (class_eqb (cls_of m) C_NormedLinear && class_eqb c C_Linear).

Definition nn_Linear (in_features out_features : nat) (bias : bool) : module :=
  Module C_Linear
    (("weight"%string, [out_features; in_features])
     :: if bias then [("bias"%string, [out_features])] else []) [].

Definition NormedLinear___init__ (in_features out_features : nat) (bias : bool)
  : module :=
  Module C_NormedLinear
    (params_of (nn_Linear in_features out_features bias)
     ++ [("scale"%string, [])]) [].

Definition ParamHeaveside_module (size : nat) : module :=
  Module C_ParamHeaveside
    [("zero_point"%string, [size]); ("embed_scale"%string, [size])] [].

Definition MyNorm___init__ (size : nat) : module := Module C_MyNorm [] [].

Definition CausalSelfAttention___init__ (config : Config) : module :=
  let shape :=
    ((n_head config + 2 * n_query_groups config) * head_size config)%nat in
  Module C_CausalSelfAttention []
    [("attn"%string, nn_Linear (n_embd config) shape (use_bias config));
     ("encoder_input"%string, ParamHeaveside_module (n_embd config));
     ("encoder_k"%string, ParamHeaveside_module (head_size config));
     ("encoder_q"%string, ParamHeaveside_module (head_size config));
     ("encoder_output"%string, ParamHeaveside_module (n_embd config));
     ("proj"%string,
      NormedLinear___init__ (n_embd config) (n_embd config) (use_bias config))].

Definition GptNeoxMLP___init__ (config : Config) : module :=
  Module C_GptNeoxMLP []
    [("fc"%string,
      nn_Linear (n_embd config) (intermediate_size config) (use_bias config));
     ("act2"%string, ParamHeaveside_module (intermediate_size config));
     ("act1"%string, ParamHeaveside_module (n_embd config));
     ("proj"%string,
      NormedLinear___init__ (intermediate_size config) (n_embd config)
        (use_bias config))].

Definition SwiGLU___init__ (config : Config) : module :=
  Module C_SwiGLU []
    [("w1"%string,
      nn_Linear (n_embd config) (intermediate_size config) (use_bias config));
     ("w2"%string,
      nn_Linear (n_embd config) (intermediate_size config) (use_bias config));
     ("w3"%string,
      nn_Linear (intermediate_size config) (n_embd config) (use_bias config))].

Definition LLaMAMLP___init__ (config : Config) : module :=
  Module C_LLaMAMLP [] [("swiglu"%string, SwiGLU___init__ config)].

(** The class a configuration's [mlp_class] names, instantiated. *)
Definition mlp_class_init (name : mlp_class_name) (config : Config) : module :=
  match name with
  | LLaMAMLP_name => LLaMAMLP___init__ config
  | GptNeoxMLP_name => GptNeoxMLP___init__ config
  end.

Definition Block___init__ (config : Config) : module :=
  Module C_Block []
    ([("norm_1"%string, MyNorm___init__ (n_embd config));
      ("attn"%string, CausalSelfAttention___init__ config)]
     ++ (if negb (shared_attention_norm config)
         then [("norm_2"%string, MyNorm___init__ (n_embd config))] else [])
     ++ [("mlp"%string, GptNeoxMLP___init__ config)]).

Definition QuantGPT___init__ (config : Config) : module :=
  let mlist :=
    Module C_ModuleList []
      (map (fun i => (str i, Block___init__ config)) (seq 0 (n_layer config))) in
  Module C_QuantGPT []
    [("lm_head"%string,
      nn_Linear (n_embd config) (padded_vocab_size config) false);
     ("transformer"%string,
      Module C_ModuleDict []
        [("wte"%string,
          Module C_Embedding
            [("weight"%string, [padded_vocab_size config; n_embd config])] []);
         ("h"%string, mlist);
         ("ln_f"%string, Module C_norm_class [] [])])].

(* ================================================================= *)
(** ** Weight initialisation *)

(** What an [nn.init] call leaves in a parameter: the distribution its
    entries were drawn from, or zeros. *)
Inductive init_dist : Type :=
| Normal (mean std : R)
| Zeros.

(** [module.named_parameters()]: the names, own parameters first, then
    those of the children under ["child."]. *)
Fixpoint named_parameters (m : module) : list string :=
  match m with
  | Module _ ps ch =>
      map fst ps
      ++ (fix children (l : list (string * module)) : list string :=
            match l with
            | [] => []
            | (name, c) :: l' =>
                map (fun p => (name ++ "." ++ p)%string) (named_parameters c)
                ++ children l'
            end) ch
  end.

Definition has_param (m : module) (name : string) : bool :=
  existsb (fun p => String.eqb (fst p) name) (params_of m).

(** [QuantGPT._init_weights(module, n_layer)]: the initialisations it
    performs, in order, on parameters named relative to [module]. *)
Definition _init_weights (config : Config) (m : module) (n_layer : nat)
  : list (string * init_dist) :=
  (if isinstance m C_Embedding then
     [("weight"%string, Normal 0 (sqrt (2 / 5 / INR (n_embd config))))]
   else if isinstance m C_Linear then
     ("weight"%string, Normal 0 (sqrt (2 / 5 / INR (n_embd config))))
     :: (if has_param m "bias" then [("bias"%string, Zeros)] else [])
   else [])
  ++ flat_map
       (fun name =>
          if (String.eqb name "proj.weight" && isinstance m C_LLaMAMLP)
             || (String.eqb name "w3.weight" && isinstance m C_SwiGLU
                 || (String.eqb name "proj.weight"
                     && isinstance m C_CausalSelfAttention))
          then [(name,
                 Normal 0 (1 / sqrt (INR (n_embd config)) / INR n_layer))]
          else [])
       (named_parameters m).

(** [module.apply(fn)] with [fn = _init_weights(., n_layer)]: the children
    first, then the module itself; the names are made absolute by
    [prefix]. *)
Fixpoint apply_init_weights (config : Config) (n_layer : nat)
  (prefix : string) (m : module) : list (string * init_dist) :=
  match m with
  | Module _ _ ch =>
      (fix children (l : list (string * module)) : list (string * init_dist) :=
         match l with
         | [] => []
         | (name, c) :: l' =>
             apply_init_weights config n_layer (prefix ++ name ++ ".")%string c
             ++ children l'
         end) ch
      ++ map (fun e => ((prefix ++ fst e)%string, snd e))
           (_init_weights config m n_layer)
  end.

(** The initialisations a parameter receives, oldest first. *)
Definition inits_of (name : string) (events : list (string * init_dist))
  : list init_dist :=
  map snd (filter (fun e => String.eqb (fst e) name) events).

(* ================================================================= *)
(** ** A small configuration *)

(** Two heads of size 2 sharing one key/value group, one layer, and the
    gated feed-forward class named as [mlp_class]. *)
Definition small_config : Config :=
  {| n_embd := 4; n_layer := 1; n_head := 2; n_query_groups := 1;
     head_size := 2; intermediate_size := 3; block_size := 3;
     padded_vocab_size := 2; use_bias := false; parallel_residual := true;
     shared_attention_norm := false; norm_eps := / 100000;
     norm_class := fun _ _ v => v; rotary_n_elem := 2; condense_ratio := 1;
     mlp_class := LLaMAMLP_name |}.

(** An instance of [small_config] as training leaves it: the shapes of the
    constructors, every [AlphaInit] initialized, the caches cleared. *)
Definition trained_heaveside (size : nat) : ParamHeaveside :=
  {| zero_point := repeat 0 size;
     embed_scale := {| data := repeat 1 size; initialized := true |} |}.

Definition ones_linear (out_features in_features : nat) : Linear :=
  {| weight := repeat (repeat 1 in_features) out_features; bias := None |}.

Definition small_model : QuantGPT :=
  {| lm_head := ones_linear 2 4;
     wte := [[1; 0; 0; 0]; [0; 1; 0; 0]];
     h := [ {| blk_attn :=
                 {| csa_attn := ones_linear 8 4;
                    encoder_input := trained_heaveside 4;
                    encoder_k := trained_heaveside 2;
                    encoder_q := trained_heaveside 2;
                    encoder_output := trained_heaveside 4;
                    csa_proj :=
                      {| nl_linear := ones_linear 4 4; nl_scale := 1 |} |};
               blk_mlp :=
                 {| mlp_fc := ones_linear 3 4;
                    mlp_act2 := trained_heaveside 3;
                    mlp_act1 := trained_heaveside 4;
                    mlp_proj :=
                      {| nl_linear := ones_linear 4 3; nl_scale := 1 |} |} |} ];
     rope_cache := None; mask_cache := None; kv_caches := [] |}.

(* ================================================================= *)
(** ** act_quantization *)

(** [torch.round]: the nearest integer, a half going to the even one. *)
Definition round_half_even (x : R) : R :=
  let n := Int_part x in
  let f := frac_part x in
  if Rlt_dec f (1 / 2) then IZR n
  else if Rlt_dec (1 / 2) f then IZR (n + 1)
  else if Z.even n then IZR n else IZR (n + 1).

(** [uniform_quant(x, b)] on one entry. *)
Definition uniform_quant (x : R) (b : nat) : R :=
  let xdiv := x * (2 ^ b - 1) in
  let xhard := round_half_even xdiv / (2 ^ b - 1) in
  xhard.

(** [x.clamp(min=0, max=1)] on one entry. *)
Definition clamp01 (x : R) : R := Rmin (Rmax x 0) 1.

(** What [ctx.save_for_backward(x, x_q)] keeps. *)
Record quant_ctx := mkQuantCtx { saved_x : vec; saved_x_q : vec }.

(** [_uq.forward] of [act_quantization(b)]; the operations are entrywise,
    so [x] is given by its flat contents, and [alpha] is the scalar the
    gradient of [backward] is summed to. *)
Definition act_quantization_forward (b : nat) (x : vec) (alpha : R)
  : vec * quant_ctx :=
  let x := map (fun xi => xi / alpha) x in
  let x_c := map clamp01 x in
  let x_q := map (fun xi => uniform_quant xi b) x_c in
  (map (fun q => q * alpha) x_q, {| saved_x := x; saved_x_q := x_q |}).

(** [_uq.backward] of [act_quantization(b)]: [(grad_input, grad_alpha)]. *)
Definition act_quantization_backward (ctx : quant_ctx) (grad_output : vec)
  : vec * R :=
  let grad_input := grad_output in
  let x := saved_x ctx in
  let x_q := saved_x_q ctx in
  let i := map (fun xi => if Rlt_dec 1 xi then 1 else 0) x in
  let grad_alpha :=
    sum (map2 Rmult grad_output
           (map2 Rplus i
              (map2 Rmult (map2 Rminus x_q x) (map (fun ii => 1 - ii) i)))) in
  let grad_input := map2 Rmult grad_input (map (fun ii => 1 - ii) i) in
  (grad_input, grad_alpha).

(* ================================================================= *)
(** ** apply_rope *)

(** [apply_rope(x, cos, sin)] on one head vector [x] and the table rows of
    its position; on tensors with leading axes the same is done at every
    index of those axes. *)
Definition apply_rope (x cos sin : vec) : vec :=
  let head_size := length x in
  let x1 := firstn (head_size / 2) x in
  let x2 := skipn (head_size / 2) x in
  let rotated := map Ropp x2 ++ x1 in
  let roped :=
    map2 Rplus (map2 Rmult x cos) (map2 Rmult rotated sin) in
  roped.

(** The table rows of the angles [theta], each table repeated to the
    width of the head ([cos.repeat(1, 2)] at the call site). *)
Definition rope_cos (theta : vec) : vec := map cos theta ++ map cos theta.
Definition rope_sin (theta : vec) : vec := map sin theta ++ map sin theta.

(* ================================================================= *)
(** ** What a forward pass leaves in the modules *)

(** A spiking activation after a call: the threshold as it was, the
    [AlphaInit] initialized, and unchanged if it was initialized before. *)
Definition heaveside_kept (p p' : ParamHeaveside) : Prop :=
  zero_point p' = zero_point p
  /\ initialized (embed_scale p') = true
  /\ (initialized (embed_scale p) = true -> embed_scale p' = embed_scale p).

Definition attention_kept (a a' : CausalSelfAttention) : Prop :=
  csa_attn a' = csa_attn a /\ csa_proj a' = csa_proj a
  /\ heaveside_kept (encoder_input a) (encoder_input a')
  /\ heaveside_kept (encoder_q a) (encoder_q a')
  /\ heaveside_kept (encoder_k a) (encoder_k a')
  /\ heaveside_kept (encoder_output a) (encoder_output a').

Definition mlp_kept (m m' : GptNeoxMLP) : Prop :=
  mlp_fc m' = mlp_fc m /\ mlp_proj m' = mlp_proj m
  /\ heaveside_kept (mlp_act1 m) (mlp_act1 m')
  /\ heaveside_kept (mlp_act2 m) (mlp_act2 m').

Definition block_kept (b b' : Block) : Prop :=
  attention_kept (blk_attn b) (blk_attn b')
  /\ mlp_kept (blk_mlp b) (blk_mlp b').

(* ================================================================= *)
(** ** A run of cache writes *)

(** The cache branch of [CausalSelfAttention.forward] over successive
    calls, each call given the cache the call before returned (as
    [QuantGPT.forward] does through [self.kv_caches[i]]); a call is its
    [input_pos] and its new keys and values. *)
Fixpoint kv_cache_writes (max_seq_length : nat)
  (calls : list (list nat * tensor4 * tensor4)) (kv_cache : KVCache)
  : result KVCache :=
  match calls with
  | [] => Ok kv_cache
  | (input_pos, k, v) :: calls' =>
      kv_cache <- kv_cache_write max_seq_length input_pos kv_cache k v ;;
      kv_cache_writes max_seq_length calls' kv_cache
  end.

(* ================================================================= *)
(** ** reset_cache on any device *)


(* ================================================================= *)
(** ** Scalar multiples of tensors *)

(** [a * t] on a four-dimensional tensor. *)
Definition scale4 (a : R) (t : tensor4) : tensor4 :=
  map (map (map (map (Rmult a)))) t.

(* ================================================================= *)
(** ** SwiGLU and LLaMAMLP *)

(** [torch.nn.functional.silu]: [x * sigmoid(x)]. *)
Definition silu (x : R) : R := x * (1 / (1 + exp (- x))).

Record SwiGLU := mkSwiGLU { w1 : Linear; w2 : Linear; w3 : Linear }.

(** [SwiGLU.forward] on one row. *)
Definition SwiGLU_forward (self : SwiGLU) (x : vec) : vec :=
  let x_fc_1 := Linear_forward (w1 self) x in
  let x_fc_2 := Linear_forward (w2 self) x in
  let x := map2 Rmult (map silu x_fc_1) x_fc_2 in
  let y := Linear_forward (w3 self) x in
  y.

Record LLaMAMLP := mkLLaMAMLP { swiglu : SwiGLU }.

Definition LLaMAMLP_forward (self : LLaMAMLP) (x : vec) : vec :=
  let out := SwiGLU_forward (swiglu self) x in
  out.

(** The block of [small_model]. *)
Definition small_block : Block :=
  {| blk_attn :=
       {| csa_attn := ones_linear 8 4;
          encoder_input := trained_heaveside 4;
          encoder_k := trained_heaveside 2;
          encoder_q := trained_heaveside 2;
          encoder_output := trained_heaveside 4;
          csa_proj := {| nl_linear := ones_linear 4 4; nl_scale := 1 |} |};
     blk_mlp :=
       {| mlp_fc := ones_linear 3 4;
          mlp_act2 := trained_heaveside 3;
          mlp_act1 := trained_heaveside 4;
          mlp_proj := {| nl_linear := ones_linear 4 3; nl_scale := 1 |} |} |}.

(** [small_config] with a rotary width of one column. *)
Definition odd_rotary_config : Config :=
  {| n_embd := 4; n_layer := 1; n_head := 2; n_query_groups := 1;
     head_size := 2; intermediate_size := 3; block_size := 3;
     padded_vocab_size := 2; use_bias := false; parallel_residual := true;
     shared_attention_norm := false; norm_eps := / 100000;
     norm_class := fun _ _ v => v; rotary_n_elem := 1; condense_ratio := 1;
     mlp_class := LLaMAMLP_name |}.

(* ================================================================= *)
(** * Properties *)


(* ----------------------------------------------------------------- *)
(** ** Lists *)


Lemma length_map2 {A B C} (f : A -> B -> C) l1 l2 :
  length (map2 f l1 l2) = Nat.min (length l1) (length l2).
Proof. unfold map2. now rewrite length_map, length_combine. Qed.

Lemma nth_map2 {A B C} (f : A -> B -> C) l1 l2 i d d1 d2 :
  (i < length l1)%nat -> (i < length l2)%nat ->
  nth i (map2 f l1 l2) d = f (nth i l1 d1) (nth i l2 d2).
Proof.
  revert l2 i. induction l1 as [|a l1 IH]; intros [|b l2] [|i] H1 H2;
    simpl in *; try lia; auto.
  apply IH; lia.
Qed.

Lemma map2_cons {A B C} (f : A -> B -> C) a l1 b l2 :
  map2 f (a :: l1) (b :: l2) = f a b :: map2 f l1 l2.
Proof. reflexivity. Qed.

Lemma map2_map_l {A A' B C} (f : A' -> B -> C) (g : A -> A') l1 l2 :
  map2 f (map g l1) l2 = map2 (fun a b => f (g a) b) l1 l2.
Proof.
  revert l2. induction l1 as [|a l1 IH]; intros [|b l2]; auto.
  simpl. rewrite !map2_cons. now rewrite IH.
Qed.

Lemma map2_map_r {A B B' C} (f : A -> B' -> C) (g : B -> B') l1 l2 :
  map2 f l1 (map g l2) = map2 (fun a b => f a (g b)) l1 l2.
Proof.
  revert l2. induction l1 as [|a l1 IH]; intros [|b l2]; auto.
  simpl. rewrite !map2_cons. now rewrite IH.
Qed.

Lemma map_map2 {A B C D} (g : C -> D) (f : A -> B -> C) l1 l2 :
  map g (map2 f l1 l2) = map2 (fun a b => g (f a b)) l1 l2.
Proof. unfold map2. now rewrite map_map. Qed.

Lemma map2_ext {A B C} (f g : A -> B -> C) l1 l2 :
  (forall a b, In a l1 -> In b l2 -> f a b = g a b) ->
  map2 f l1 l2 = map2 g l1 l2.
Proof.
  unfold map2. intros E. apply map_ext_in. intros [a b] Hin. simpl.
  apply E; [eapply in_combine_l | eapply in_combine_r]; eauto.
Qed.

Lemma map_seq_nth {A} (l : list A) d :
  map (fun i => nth i l d) (seq 0 (length l)) = l.
Proof.
  induction l as [|a l IH]; auto.
  simpl. f_equal. rewrite <- seq_shift, map_map. exact IH.
Qed.

Lemma nth_map_seq {A} (f : nat -> A) n i d :
  (i < n)%nat -> nth i (map f (seq 0 n)) d = f i.
Proof.
  intros Hi. rewrite (nth_indep _ d (f 0%nat)) by now rewrite length_map, length_seq.
  rewrite (map_nth f (seq 0 n) 0%nat i), seq_nth; auto.
Qed.

Lemma nth_map_lt {A B} (f : A -> B) (l : list A) d d' i :
  (i < length l)%nat -> nth i (map f l) d' = f (nth i l d).
Proof.
  intros Hi. rewrite (nth_indep _ d' (f d)) by now rewrite length_map.
  apply map_nth.
Qed.

Lemma list_eq_nth {A} (l l' : list A) d :
  length l = length l' ->
  (forall i, (i < length l)%nat -> nth i l d = nth i l' d) -> l = l'.
Proof. intros. eapply nth_ext; eauto. Qed.

Lemma length_concat_rect {A} (n : nat) (x : list (list A)) :
  Forall (fun r => length r = n) x -> length (concat x) = (length x * n)%nat.
Proof.
  induction 1 as [|r x Hr _ IH]; auto. simpl. rewrite length_app. lia.
Qed.

Lemma chunks_concat {A} (n : nat) (x : list (list A)) :
  (0 < n)%nat -> Forall (fun r => length r = n) x -> chunks n (concat x) = x.
Proof.
  intros Hn Hx. unfold chunks.
  rewrite (length_concat_rect n), Nat.div_mul by (auto; lia).
  induction Hx as [|r x Hr Hx IH]; auto.
  simpl. f_equal.
  - rewrite firstn_app, Hr, Nat.sub_diag, firstn_all2 by lia.
    simpl. now rewrite app_nil_r.
  - rewrite <- seq_shift, map_map. rewrite <- IH at 2.
    apply map_ext. intros i. f_equal. simpl.
    rewrite skipn_app, Hr, (skipn_all2 r) by lia.
    simpl. f_equal. lia.
Qed.

(* ----------------------------------------------------------------- *)
(** ** Tabulated lists *)

Lemma length_tab {A} n (f : nat -> A) : length (tab n f) = n.
Proof. unfold tab. now rewrite length_map, length_seq. Qed.

Lemma nth_tab {A} n (f : nat -> A) i d : (i < n)%nat -> nth i (tab n f) d = f i.
Proof. apply nth_map_seq. Qed.

Lemma tab_ext {A} n (f g : nat -> A) :
  (forall i, (i < n)%nat -> f i = g i) -> tab n f = tab n g.
Proof.
  intros E. apply map_ext_in. intros i Hi. apply in_seq in Hi. apply E. lia.
Qed.

Lemma map_tab {A B} (g : A -> B) n (f : nat -> A) :
  map g (tab n f) = tab n (fun i => g (f i)).
Proof. apply map_map. Qed.

Lemma map2_tab {A B C} (g : A -> B -> C) n f1 f2 :
  map2 g (tab n f1) (tab n f2) = tab n (fun i => g (f1 i) (f2 i)).
Proof.
  unfold tab, map2. generalize 0%nat as s.
  induction n as [|n IH]; intros s; [reflexivity|].
  simpl. f_equal. apply IH.
Qed.

Lemma tab_nth {A} (l : list A) n d :
  length l = n -> l = tab n (fun i => nth i l d).
Proof. intros <-. symmetry. apply map_seq_nth. Qed.

Lemma tab_S {A} n (f : nat -> A) : tab (S n) f = f 0%nat :: tab n (fun i => f (S i)).
Proof. unfold tab. simpl. f_equal. now rewrite <- seq_shift, map_map. Qed.

Lemma ncols_tab {A} n (f : nat -> list A) :
  (0 < n)%nat -> ncols (tab n f) = length (f 0%nat).
Proof. destruct n; [lia|]. intros _. now rewrite tab_S. Qed.

Lemma hd_tab {A} n (f : nat -> A) d : (0 < n)%nat -> hd d (tab n f) = f 0%nat.
Proof. destruct n; [lia|]. intros _. now rewrite tab_S. Qed.

Lemma transpose_tab {A} (d : A) R C (f : nat -> list A) :
  (0 < R)%nat -> length (f 0%nat) = C ->
  transpose d (tab R f) = tab C (fun c => tab R (fun r => nth c (f r) d)).
Proof.
  intros HR HC. unfold transpose. rewrite ncols_tab, HC by assumption.
  apply tab_ext. intros c _. apply map_tab.
Qed.

Lemma col_tab R (f : nat -> vec) j :
  col j (tab R f) = tab R (fun r => nth j (f r) 0).
Proof. apply map_tab. Qed.

Lemma tab_app {A} a b (f : nat -> A) :
  tab (a + b) f = tab a f ++ tab b (fun i => f (a + i)%nat).
Proof.
  revert f. induction a as [|a IH]; intros f; [reflexivity|].
  change (S a + b)%nat with (S (a + b)). rewrite !tab_S, IH. reflexivity.
Qed.

Lemma tab_const {A} n (f : nat -> A) c :
  (forall i, (i < n)%nat -> f i = c) -> tab n f = repeat c n.
Proof.
  revert f. induction n as [|n IH]; intros f E; [reflexivity|].
  rewrite tab_S. simpl. f_equal; [apply E; lia|].
  apply IH. intros i Hi. apply E. lia.
Qed.

Lemma repeat_interleave_tab {A} rep G (f : nat -> A) :
  (0 < rep)%nat ->
  repeat_interleave rep (tab G f) = tab (G * rep) (fun h => f (h / rep)%nat).
Proof.
  intros Hrep. unfold repeat_interleave. revert f.
  induction G as [|G IH]; intros f; [reflexivity|].
  rewrite tab_S. simpl flat_map. rewrite IH.
  change (S G * rep)%nat with (rep + G * rep)%nat. rewrite tab_app. f_equal.
  - symmetry. apply tab_const. intros i Hi. now rewrite Nat.div_small.
  - apply tab_ext. intros i _. f_equal.
    replace (rep + i)%nat with (1 * rep + i)%nat by lia.
    rewrite Nat.div_add_l by lia. reflexivity.
Qed.

Lemma sum_tab_ext n (f g : nat -> R) :
  (forall i, (i < n)%nat -> f i = g i) -> sum (tab n f) = sum (tab n g).
Proof. intros E. f_equal. now apply tab_ext. Qed.

Lemma dot_tab n (f g : nat -> R) :
  dot (tab n f) (tab n g) = sum (tab n (fun i => f i * g i)).
Proof. unfold dot. now rewrite map2_tab. Qed.

Lemma is_rect_spec {A} n (p : A -> bool) (l : list A) :
  is_rect n p l = true ->
  length l = n /\ forall i d, (i < n)%nat -> p (nth i l d) = true.
Proof.
  unfold is_rect. intros H. apply andb_prop in H as [Hl Hp].
  apply Nat.eqb_eq in Hl. split; [assumption|].
  intros i d Hi. rewrite forallb_forall in Hp. apply Hp, nth_In. lia.
Qed.

(* ----------------------------------------------------------------- *)
(** ** AlphaInit and the spiking activation *)

Lemma initialize_wrapper_uninitialized (alpha : AlphaInit) (x : mat) :
  initialized alpha = false ->
  Forall (fun r => length r = length (data alpha)) x ->
  AlphaInit_initialize_wrapper alpha (concat x) =
  Ok {| data :=
          map (fun c => 4 * (sum (map (fun r => Rabs (nth c r 0)) x)
                             / INR (length x)))
            (seq 0 (length (data alpha)));
        initialized := true |}.
Proof.
  intros Hi Hx. unfold AlphaInit_initialize_wrapper, AlphaInit__initialize.
  rewrite Hi. do 2 f_equal. unfold mean_dim0. rewrite map_map.
  destruct (length (data alpha)) as [|n] eqn:En; [reflexivity|].
  rewrite concat_map, chunks_concat.
  - apply map_ext. intros c. unfold col. rewrite length_map, map_map.
    do 3 f_equal. apply map_ext. intros r.
    rewrite <- Rabs_R0 at 1. apply map_nth.
  - lia.
  - rewrite Forall_map. eapply Forall_impl; [|exact Hx].
    intros r Hr. now rewrite length_map.
Qed.

Lemma forward_initialized {T} `{Tensor T} (x : T) (alpha : AlphaInit)
  (beta : vec) :
  initialized alpha = true ->
  act_heaveside_forward x alpha beta =
  Ok (map_rows (heaveside_row (data alpha) beta) x,
      {| saved_y := map (fun r => map2 Rminus r beta) (rows x);
         saved_alpha := data alpha |},
      alpha).
Proof.
  intros Hi. unfold act_heaveside_forward. rewrite Hi. simpl.
  rewrite rows_map_rows, !map_rows_map_rows. reflexivity.
Qed.

Lemma forward_uninitialized {T} `{Tensor T} (x : T) (alpha : AlphaInit)
  (beta : vec) :
  initialized alpha = false ->
  Forall (fun r => length r = length (data alpha)) (rows x) ->
  let alpha' :=
    {| data :=
         map (fun c => 4 * (sum (map (fun r => Rabs (nth c r 0)) (rows x))
                            / INR (length (rows x))))
           (seq 0 (length (data alpha)));
       initialized := true |} in
  act_heaveside_forward x alpha beta =
  Ok (map_rows (heaveside_row (data alpha') beta) x,
      {| saved_y := map (fun r => map2 Rminus r beta) (rows x);
         saved_alpha := data alpha' |},
      alpha').
Proof.
  intros Hi Hx. unfold act_heaveside_forward. rewrite Hi. simpl negb. cbv iota.
  rewrite initialize_wrapper_uninitialized by assumption. simpl.
  rewrite rows_map_rows, !map_rows_map_rows. reflexivity.
Qed.

Lemma initialize_initialized (alpha : AlphaInit) (t : vec) (u : list R) :
  initialized alpha = true ->
  AlphaInit__initialize alpha t = Raise (AssertionError "already initialized.")
  /\ AlphaInit_initialize_wrapper alpha u
     = Raise (AssertionError "already initialized.").
Proof.
  intros Hi. unfold AlphaInit_initialize_wrapper, AlphaInit__initialize.
  now rewrite Hi.
Qed.

(** C7.  The first forward call through a [ParamHeaveside] whose
    [AlphaInit] is not initialized succeeds, sets the parameter, channel by
    channel, to 4 times the mean absolute value of that input batch and
    marks it initialized; any later forward call returns the parameter as it
    is (only the optimiser changes it), and running the initialisation a
    second time, directly or through the wrapper, raises
    ["already initialized."] instead of overwriting. *)
Theorem AlphaInit_initialized_at_most_once {T} `{Tensor T}
  (self : ParamHeaveside) (x x' : T) (init_tensor : vec) (tensor : list R) :
  initialized (embed_scale self) = false ->
  rows x <> [] ->
  Forall (fun r => length r = length (data (embed_scale self))) (rows x) ->
  exists out self',
    ParamHeaveside_forward self x = Ok (out, self')
    /\ initialized (embed_scale self') = true
    /\ data (embed_scale self')
       = map (fun c => 4 * (sum (map (fun r => Rabs (nth c r 0)) (rows x))
                            / INR (length (rows x))))
           (seq 0 (length (data (embed_scale self))))
    /\ zero_point self' = zero_point self
    /\ (exists out', ParamHeaveside_forward self' x' = Ok (out', self'))
    /\ AlphaInit__initialize (embed_scale self') init_tensor
       = Raise (AssertionError "already initialized.")
    /\ AlphaInit_initialize_wrapper (embed_scale self') tensor
       = Raise (AssertionError "already initialized.").
Proof.
  intros Hi _ Hx. unfold ParamHeaveside_forward.
  rewrite forward_uninitialized by assumption. simpl.
  eexists _, _. split; [reflexivity|]. simpl.
  split; [reflexivity|]. split; [reflexivity|]. split; [reflexivity|].
  split; [|split; reflexivity].
  eexists. reflexivity.
Qed.

Lemma entry_map {A} (f : A -> vec) (l : list A) (d : A) r c :
  (r < length l)%nat -> entry (map f l) r c = nth c (f (nth r l d)) 0.
Proof.
  intros Hr. unfold entry. f_equal.
  rewrite (nth_indep _ [] (f d)) by now rewrite length_map.
  apply map_nth.
Qed.

Lemma gt0_cases (y : R) : gt0 y = 0 \/ gt0 y = 1.
Proof. unfold gt0. destruct (Rlt_dec 0 y); auto. Qed.

Lemma heaveside_row_nth (alpha beta x : vec) (c : nat) :
  (c < length alpha)%nat -> (c < length beta)%nat -> (c < length x)%nat ->
  nth c (heaveside_row alpha beta x) 0
  = nth c alpha 0 * (if Rlt_dec 0 (nth c x 0 - nth c beta 0) then 1 else 0).
Proof.
  intros Ha Hb Hx. unfold heaveside_row.
  rewrite (nth_map2 _ _ _ _ 0 0 0), (nth_map_lt _ _ 0 0),
    (nth_map2 _ _ _ _ 0 0 0);
    rewrite ?length_map, ?length_map2; auto; lia.
Qed.

Lemma forward_total {T} `{Tensor T} (x : T) (alpha : AlphaInit) (beta : vec)
  (size : nat) :
  length (data alpha) = size ->
  Forall (fun r => length r = size) (rows x) ->
  exists alpha',
    length (data alpha') = size
    /\ act_heaveside_forward x alpha beta
       = Ok (map_rows (heaveside_row (data alpha') beta) x,
             {| saved_y := map (fun r => map2 Rminus r beta) (rows x);
                saved_alpha := data alpha' |},
             alpha').
Proof.
  intros Ha Hx. destruct (initialized alpha) eqn:Hi.
  - exists alpha. split; [assumption|]. now apply forward_initialized.
  - eexists. split; [|apply forward_uninitialized; [assumption|]].
    + simpl. now rewrite length_map, length_seq.
    + now rewrite Ha.
Qed.

Lemma entry_map2 (f : R -> R -> R) (a b : mat) r c :
  (r < length a)%nat -> (r < length b)%nat ->
  (c < length (nth r a []))%nat -> (c < length (nth r b []))%nat ->
  entry (map2 (map2 f) a b) r c = f (entry a r c) (entry b r c).
Proof.
  intros Hra Hrb Hca Hcb. unfold entry.
  rewrite (nth_map2 _ _ _ _ _ [] []) by assumption.
  now apply nth_map2.
Qed.

Lemma col_as_entries (m : mat) (c n : nat) :
  length m = n -> col c m = map (fun r => entry m r c) (seq 0 n).
Proof.
  intros <-. unfold col, entry.
  rewrite <- (map_seq_nth m []) at 1. now rewrite map_map.
Qed.

(** C4.  Forward: the call succeeds and every output entry is the channel's
    current [alpha] times the indicator of [x - beta > 0], hence [0] or
    [alpha].  Backward, at sharpness [s] (4 in [ParamHeaveside]) and with
    the context saved by that forward call: entry by entry,
    [grad_x = g * alpha * s / (PI * ((s * (x - beta))^2 + 1))],
    [grad_beta = - grad_x] and
    [grad_alpha = g * (1 / PI * atan (x - beta) + 1 / 2)]; reduced to the
    per-channel shape of the parameters, each is the sum of its column over
    the batch. *)
Theorem spiking_activation_forward_backward {T} `{Tensor T}
  (x : T) (alpha : AlphaInit) (beta : vec) (g : mat) (s : R) (size : nat) :
  length (data alpha) = size ->
  length beta = size ->
  Forall (fun r => length r = size) (rows x) ->
  length g = length (rows x) ->
  Forall (fun r => length r = size) g ->
  exists out ctx alpha',
    act_heaveside_forward x alpha beta = Ok (out, ctx, alpha')
    /\ (forall r c, (r < length (rows x))%nat -> (c < size)%nat ->
        entry (rows out) r c
        = nth c (data alpha') 0
          * (if Rlt_dec 0 (entry (rows x) r c - nth c beta 0) then 1 else 0)
        /\ (entry (rows out) r c = 0
            \/ entry (rows out) r c = nth c (data alpha') 0))
    /\ let '(grad_x, grad_alpha, grad_beta) :=
         act_heaveside_backward s ctx g in
       (forall r c, (r < length (rows x))%nat -> (c < size)%nat ->
        let y := entry (rows x) r c - nth c beta 0 in
        entry grad_x r c
        = entry g r c * nth c (data alpha') 0 * s / (PI * ((s * y) ^ 2 + 1))
        /\ entry grad_beta r c = - entry grad_x r c
        /\ entry grad_alpha r c = entry g r c * (1 / PI * atan y + 1 / 2))
       /\ (forall c, (c < size)%nat ->
           nth c (sum_to_size size grad_alpha) 0
           = sum (map (fun r => entry grad_alpha r c)
                    (seq 0 (length (rows x))))
           /\ nth c (sum_to_size size grad_beta) 0
              = sum (map (fun r => entry grad_beta r c)
                       (seq 0 (length (rows x))))).
Proof.
  intros Ha Hb Hx Hg Hgr.
  destruct (forward_total x alpha beta size Ha Hx) as (alpha' & Ha' & Hf).
  eexists _, _, alpha'. split; [exact Hf|]. clear Hf.
  assert (Hrow : forall r, (r < length (rows x))%nat ->
                           length (nth r (rows x) []) = size).
  { intros r Hr. rewrite Forall_forall in Hx. apply Hx, nth_In, Hr. }
  assert (Hgrow : forall r, (r < length (rows x))%nat ->
                            length (nth r g []) = size).
  { intros r Hr. rewrite Forall_forall in Hgr. apply Hgr, nth_In. lia. }
  split.
  - intros r c Hr Hc. rewrite rows_map_rows, (entry_map _ _ ([] : vec)) by assumption.
    rewrite heaveside_row_nth by (rewrite ?Hrow; lia).
    fold (entry (rows x) r c). split; [reflexivity|].
    destruct (Rlt_dec 0 _); [right|left]; lra.
  - cbv beta iota zeta delta [act_heaveside_backward saved_y saved_alpha].
    split.
    + intros r c Hr Hc.
      set (y := entry (rows x) r c - nth c beta 0).
      assert (Hlen : forall (f : vec -> vec),
                 (forall v, length v = size -> length (f v) = size) ->
                 length (nth r (map f (map (fun r0 => map2 Rminus r0 beta)
                                         (rows x))) []) = size).
      { intros f Hf. rewrite map_map, (nth_map_lt _ _ []) by assumption.
        apply Hf. rewrite length_map2, Hrow by assumption. lia. }
      assert (Hsub : nth c (map2 Rminus (nth r (rows x) []) beta) 0 = y).
      { rewrite (nth_map2 _ _ _ _ 0 0 0) by (rewrite ?Hrow; lia).
        reflexivity. }
      rewrite !entry_map2;
        rewrite ?length_map, ?Hlen, ?Hgrow; try lia;
        try (intros v Hv; rewrite ?length_map2, ?length_map, ?Hv; lia).
      rewrite !map_map, !(entry_map _ _ ([] : vec)) by assumption.
      rewrite !(nth_map2 _ _ _ _ 0 0 0), !(nth_map_lt _ _ 0 0), !Hsub;
        rewrite ?length_map, ?length_map2, ?Hrow; try lia.
      assert (HPI : PI <> 0) by (apply Rgt_not_eq, PI_RGT_0).
      assert (Hden : (s * y) ^ 2 + 1 <> 0) by nra.
      1: repeat split; field; auto.
      all: try assumption.
      all: rewrite !map_map, (nth_map_lt _ _ ([] : vec)) by assumption;
        rewrite ?length_map2, ?length_map, ?length_map2, ?length_map, ?Hrow
          by assumption; lia.
    + intros c Hc. unfold sum_to_size. rewrite !nth_map_seq by assumption.
      split; f_equal; apply col_as_entries;
        rewrite length_map2, !length_map; lia.
Qed.

(* ----------------------------------------------------------------- *)
(** ** NormedLinear *)

Lemma sum_map_div (l : vec) (d : R) :
  sum (map (fun x => x / d) l) = sum l / d.
Proof.
  induction l as [|a l IH]; simpl; [unfold Rdiv; ring|].
  rewrite IH. unfold Rdiv. ring.
Qed.

Lemma sum_map_minus (l : vec) (m : R) :
  sum (map (fun x => x - m) l) = sum l - INR (length l) * m.
Proof.
  induction l as [|a l IH]; [simpl; ring|].
  change (sum (map (fun x => x - m) (a :: l)))
    with (a - m + sum (map (fun x => x - m) l)).
  rewrite IH, length_cons, S_INR. simpl. ring.
Qed.

Lemma sum_sq_div (l : vec) (d : R) :
  d <> 0 ->
  sum (map (fun x => x * x) (map (fun x => x / d) l))
  = sum (map (fun x => x * x) l) / (d * d).
Proof.
  intros Hd. induction l as [|a l IH]; simpl; [unfold Rdiv; ring|].
  rewrite IH. field. exact Hd.
Qed.

Section Columns.

Variables (w : mat) (n : nat).
Hypothesis Hrect : Forall (fun r => length r = n) w.
Hypothesis Hrows : w <> [].

Lemma ncols_rect : ncols w = n.
Proof.
  destruct w as [|r w']; [contradiction|]. unfold ncols. simpl.
  now inversion Hrect.
Qed.

Lemma col_sub_rows (v : vec) (j : nat) :
  (j < n)%nat -> length v = n ->
  col j (sub_rows w v) = map (fun x => x - nth j v 0) (col j w).
Proof.
  intros Hj Hv. unfold col, sub_rows. rewrite !map_map.
  pose proof (proj1 (Forall_forall _ _) Hrect) as Hall.
  apply map_ext_in. intros r Hr.
  apply (nth_map2 _ _ _ _ 0 0 0); rewrite ?(Hall r Hr); lia.
Qed.

Lemma col_F_normalize (j : nat) :
  (j < n)%nat ->
  col j (F_normalize_dim0 w)
  = map (fun x => x / Rmax (norm2 (col j w)) normalize_eps) (col j w).
Proof.
  intros Hj. unfold col at 1. unfold F_normalize_dim0. rewrite map_map.
  unfold col at 2. rewrite map_map.
  assert (Hlen : length (norm2_rows w) = n).
  { unfold norm2_rows. now rewrite length_map, length_seq, ncols_rect. }
  pose proof (proj1 (Forall_forall _ _) Hrect) as Hall.
  apply map_ext_in. intros r Hr.
  rewrite (nth_map2 _ _ _ _ 0 0 0)
    by (rewrite ?length_map, ?Hlen, ?(Hall r Hr); lia).
  f_equal. rewrite (nth_map_lt _ _ 0) by lia.
  unfold norm2_rows. rewrite nth_map_seq by (rewrite ncols_rect; lia).
  reflexivity.
Qed.

End Columns.

Lemma sum_sq_nonneg (l : vec) : 0 <= sum (map (fun x => x * x) l).
Proof. induction l as [|a l IH]; simpl; nra. Qed.

Lemma normalize_eps_pos : 0 < normalize_eps.
Proof. unfold normalize_eps. apply Rinv_0_lt_compat, pow_lt. lra. Qed.

Lemma sub_rows_rect (w : mat) (v : vec) (n : nat) :
  Forall (fun r => length r = n) w -> length v = n ->
  Forall (fun r => length r = n) (sub_rows w v).
Proof.
  intros Hw Hv. unfold sub_rows. rewrite Forall_map.
  eapply Forall_impl; [|exact Hw]. intros r Hr. simpl in Hr.
  rewrite length_map2. lia.
Qed.

Lemma centred_column_sum (w : mat) (n j : nat) :
  w <> [] -> Forall (fun r => length r = n) w -> (j < n)%nat ->
  sum (col j (sub_rows w (mean_rows w))) = 0.
Proof.
  intros Hne Hw Hj.
  assert (Hm : length (mean_rows w) = n).
  { unfold mean_rows. now rewrite length_map, length_seq, (ncols_rect w n). }
  rewrite (col_sub_rows w n) by assumption.
  rewrite sum_map_minus. unfold mean_rows.
  rewrite nth_map_seq by (rewrite (ncols_rect w n); assumption).
  replace (length (col j w)) with (length w)
    by (unfold col; now rewrite length_map).
  assert (INR (length w) <> 0).
  { apply not_0_INR. destruct w; [contradiction|discriminate]. }
  field. assumption.
Qed.

(** C5 (as amended).  [NormedLinear.forward] is the affine map whose weight
    is [scale] times the normalised weight, with the optional bias; for a
    weight matrix with at least one row, every column of the normalised
    weight (one input index, taken along the output axis, [dim=0]) has
    zero mean, and has L2 norm 1 whenever the L2 norm of the mean-centred
    column is at least the [eps] of [F.normalize]. *)
Theorem NormedLinear_columns_normalized (self : NormedLinear) (x : vec)
  (n : nat) :
  weight (nl_linear self) <> [] ->
  Forall (fun r => length r = n) (weight (nl_linear self)) ->
  NormedLinear_forward self x
  = F_linear x
      (map (map (Rmult (nl_scale self)))
         (F_normalize_dim0
            (sub_rows (weight (nl_linear self))
               (mean_rows (weight (nl_linear self))))))
      (bias (nl_linear self))
  /\ forall j, (j < n)%nat ->
       mean (col j (normalized_weight (weight (nl_linear self)))) = 0
       /\ (normalize_eps
           <= norm2 (col j (sub_rows (weight (nl_linear self))
                              (mean_rows (weight (nl_linear self))))) ->
           norm2 (col j (normalized_weight (weight (nl_linear self)))) = 1).
Proof.
  intros Hne Hw. split; [reflexivity|]. intros j Hj.
  set (w := weight (nl_linear self)) in *.
  assert (Hm : length (mean_rows w) = n).
  { unfold mean_rows. now rewrite length_map, length_seq, (ncols_rect w n). }
  assert (Hc : Forall (fun r => length r = n) (sub_rows w (mean_rows w)))
    by now apply sub_rows_rect.
  assert (Hcne : sub_rows w (mean_rows w) <> []).
  { unfold sub_rows. destruct w; [contradiction|discriminate]. }
  unfold normalized_weight.
  rewrite (col_F_normalize _ n) by assumption.
  set (c := col j (sub_rows w (mean_rows w))).
  assert (Hd : 0 < Rmax (norm2 c) normalize_eps).
  { eapply Rlt_le_trans; [apply normalize_eps_pos|apply Rmax_r]. }
  split.
  - unfold mean. rewrite sum_map_div. unfold c.
    rewrite (centred_column_sum w n) by assumption.
    unfold Rdiv. ring.
  - intros Heps. rewrite Rmax_left in * by assumption.
    unfold norm2 at 1. rewrite sum_sq_div by lra.
    unfold norm2. rewrite sqrt_sqrt by apply sum_sq_nonneg.
    unfold Rdiv. rewrite Rinv_r, sqrt_1; [reflexivity|].
    intros E. unfold norm2 in Hd. rewrite E, sqrt_0 in Hd. lra.
Qed.

(** C5, counterexample.  For the 2 by 2 weight [[1, 0], [0, 0]] the first
    output row of the normalised weight does not have zero mean. *)
Lemma NormedLinear_rows_not_normalized :
  ~ (forall row, In row (normalized_weight [[1; 0]; [0; 0]]) ->
                 mean row = 0 /\ norm2 row = 1).
Proof.
  intros Hall.
  destruct (Hall (nth 0 (normalized_weight [[1; 0]; [0; 0]]) []))
    as [Hmean _]; [left; reflexivity|].
  revert Hmean.
  cbv [normalized_weight F_normalize_dim0 sub_rows mean_rows norm2_rows ncols
       col hd length seq map map2 combine nth fst snd mean sum fold_right INR].
  set (d0 := Rmax _ normalize_eps). set (d1 := Rmax _ normalize_eps).
  assert (H0 : 0 < d0).
  { eapply Rlt_le_trans; [apply normalize_eps_pos|apply Rmax_r]. }
  assert (H1 : 0 < d1).
  { eapply Rlt_le_trans; [apply normalize_eps_pos|apply Rmax_r]. }
  assert (Ha : 0 < (1 - (1 + (0 + 0)) / (1 + 1)) / d0)
    by (apply Rdiv_lt_0_compat; lra).
  assert (Hb : (0 - (0 + (0 + 0)) / (1 + 1)) / d1 = 0)
    by (unfold Rdiv; ring).
  rewrite Hb. clearbody d0 d1. lra.
Qed.

(* ----------------------------------------------------------------- *)
(** ** Precondition failures *)


(* ----------------------------------------------------------------- *)
(** ** The feed-forward sublayer *)

Lemma ParamHeaveside_forward_ok {T} `{Tensor T} (self : ParamHeaveside)
  (x : T) :
  exists y a,
    ParamHeaveside_forward self x
    = Ok (y, {| zero_point := zero_point self; embed_scale := a |})
    /\ initialized a = true
    /\ (initialized (embed_scale self) = true -> a = embed_scale self)
    /\ y = map_rows (heaveside_row (data a) (zero_point self)) x.
Proof.
  unfold ParamHeaveside_forward, act_heaveside_forward.
  destruct (initialized (embed_scale self)) eqn:Hi; simpl.
  - eexists _, _. split; [reflexivity|]. split; [exact Hi|].
    split; [reflexivity|]. now rewrite !map_rows_map_rows.
  - unfold AlphaInit_initialize_wrapper, AlphaInit__initialize.
    rewrite Hi. simpl.
    eexists _, _. split; [reflexivity|]. split; [reflexivity|].
    split; [discriminate|]. now rewrite !map_rows_map_rows.
Qed.

(** C10 (as amended).  Whatever [mlp_class] the configuration names, the
    feed-forward sublayer that [Block.__init__] builds is a [GptNeoxMLP]:
    spiking activations of width [n_embd] and [intermediate_size] around a
    linear expansion, and a [NormedLinear] projection back to [n_embd].
    Its forward always returns, and its value is
    [proj(act2(fc(act1(x))))], each activation being the step function of
    its own (by then initialized) parameters. *)
Theorem Block_mlp_is_GptNeoxMLP (config : Config) (self : GptNeoxMLP)
  (x : tensor3) :
  filter (fun c => String.eqb (fst c) "mlp") (children_of (Block___init__ config))
  = [("mlp"%string, GptNeoxMLP___init__ config)]
  /\ GptNeoxMLP___init__ config
     = Module C_GptNeoxMLP []
         [("fc"%string,
           nn_Linear (n_embd config) (intermediate_size config)
             (use_bias config));
          ("act2"%string, ParamHeaveside_module (intermediate_size config));
          ("act1"%string, ParamHeaveside_module (n_embd config));
          ("proj"%string,
           NormedLinear___init__ (intermediate_size config) (n_embd config)
             (use_bias config))]
  /\ exists a1 a2,
       let act1 := heaveside_row (data a1) (zero_point (mlp_act1 self)) in
       let act2 := heaveside_row (data a2) (zero_point (mlp_act2 self)) in
       let fc := Linear_forward (mlp_fc self) in
       let proj := NormedLinear_forward (mlp_proj self) in
       GptNeoxMLP_forward self x
       = Ok (map (map (fun r => proj (act2 (fc (act1 r))))) x,
             {| mlp_fc := mlp_fc self;
                mlp_act2 := {| zero_point := zero_point (mlp_act2 self);
                               embed_scale := a2 |};
                mlp_act1 := {| zero_point := zero_point (mlp_act1 self);
                               embed_scale := a1 |};
                mlp_proj := mlp_proj self |}).
Proof.
  split; [|split; [reflexivity|]].
  - unfold Block___init__. simpl.
    destruct (shared_attention_norm config); reflexivity.
  - unfold GptNeoxMLP_forward.
    destruct (ParamHeaveside_forward_ok (mlp_act1 self) x)
      as (y1 & a1 & E1 & _ & _ & ->).
    rewrite E1. simpl bind.
    match goal with
    | |- context [ParamHeaveside_forward (mlp_act2 self) ?z] =>
        destruct (ParamHeaveside_forward_ok (mlp_act2 self) z)
          as (y2 & a2 & E2 & _ & _ & ->)
    end.
    rewrite E2. simpl bind.
    exists a1, a2. cbv zeta. f_equal. f_equal.
    simpl. rewrite !map_map. apply map_ext. intros b.
    rewrite !map_map. reflexivity.
Qed.

(** C10, counterexample.  [small_config] names the gated class as its
    [mlp_class]; the block built from it holds no instance of that
    class. *)
Lemma Block_mlp_ignores_mlp_class :
  mlp_class small_config = LLaMAMLP_name
  /\ ~ In ("mlp"%string, mlp_class_init (mlp_class small_config) small_config)
         (children_of (Block___init__ small_config)).
Proof.
  split; [reflexivity|]. simpl. intros [H|[H|[H|[H|[]]]]]; discriminate H.
Qed.

(* ----------------------------------------------------------------- *)
(** ** Weight initialisation *)

(** C9.  Visiting the attention block re-draws its [proj.weight] with the
    depth-dependent deviation [1 / sqrt(n_embd) / n_layer], after the
    general draw made when the projection itself was visited; visiting a
    [GptNeoxMLP], the feed-forward block every [Block] holds, performs no
    initialisation at all, so that its output projection keeps the general
    draw alone.  The two histories are evaluated on the model built from
    [small_config]. *)
Theorem init_weights_skips_GptNeoxMLP_proj :
  (forall config n_layer,
     _init_weights config (GptNeoxMLP___init__ config) n_layer = [])
  /\ (forall config n_layer,
        _init_weights config (CausalSelfAttention___init__ config) n_layer
        = [("proj.weight"%string,
            Normal 0 (1 / sqrt (INR (n_embd config)) / INR n_layer))])
  /\ (forall config n_layer i o b,
        _init_weights config (NormedLinear___init__ i o b) n_layer
        = ("weight"%string, Normal 0 (sqrt (2 / 5 / INR (n_embd config))))
          :: (if b then [("bias"%string, Zeros)] else []))
  /\ let events :=
       apply_init_weights small_config (n_layer small_config) ""
         (QuantGPT___init__ small_config) in
     inits_of "transformer.h.0.mlp.proj.weight" events
     = [Normal 0 (sqrt (2 / 5 / INR (n_embd small_config)))]
     /\ inits_of "transformer.h.0.attn.proj.weight" events
        = [Normal 0 (sqrt (2 / 5 / INR (n_embd small_config)));
           Normal 0 (1 / sqrt (INR (n_embd small_config))
                     / INR (n_layer small_config))].
Proof.
  split; [|split; [|split]].
  - intros config n. unfold _init_weights, GptNeoxMLP___init__.
    destruct (use_bias config); reflexivity.
  - intros config n. unfold _init_weights, CausalSelfAttention___init__.
    destruct (use_bias config); reflexivity.
  - intros config n i o b. destruct b; reflexivity.
  - split; reflexivity.
Qed.

(* ----------------------------------------------------------------- *)
(** ** Attention *)

Lemma relu_Fin_nonneg (x : R) : 0 <= x -> relu (ext_add (Fin x) (Fin 0)) = x.
Proof. intros Hx. simpl. rewrite Rplus_0_r. now apply Rmax_right. Qed.

Lemma masked_fill_not_self (m : list (list bool)) :
  masked_fill m (logical_not m) true = map (map (fun _ => true)) m.
Proof.
  unfold masked_fill, logical_not.
  induction m as [|r m IH]; [reflexivity|].
  simpl. rewrite map2_cons. f_equal; [|exact IH].
  clear IH. induction r as [|b r IH]; [reflexivity|].
  simpl. rewrite map2_cons. f_equal; [|exact IH]. now destruct b.
Qed.

Lemma map_transpose_tab {A} (d : A) B R C (F : nat -> nat -> nat -> A) :
  (0 < R)%nat ->
  map (transpose d) (tab B (fun b => tab R (fun r => tab C (F b r))))
  = tab B (fun b => tab C (fun c => tab R (fun r => F b r c))).
Proof.
  intros HR. rewrite map_tab. apply tab_ext. intros b _.
  rewrite (transpose_tab d R C) by (auto using length_tab).
  apply tab_ext. intros c Hc. apply tab_ext. intros r _. now apply nth_tab.
Qed.

Lemma map2_tab2 {A B C} (f : A -> B -> C) L S a b :
  map2 (map2 f) (tab L (fun i => tab S (a i))) (tab L (fun i => tab S (b i)))
  = tab L (fun i => tab S (fun j => f (a i j) (b i j))).
Proof. rewrite map2_tab. apply tab_ext. intros i _. apply map2_tab. Qed.

Lemma head_scores L S D (Qh Kh : nat -> vec) (scale : R) :
  (0 < S)%nat -> (0 < D)%nat ->
  (forall j, (j < S)%nat -> length (Kh j) = D) ->
  map (map (fun x => x * scale)) (matmul (tab L Qh) (transpose 0 (tab S Kh)))
  = tab L (fun i => tab S (fun j => dot (Qh i) (Kh j) * scale)).
Proof.
  intros HS HD HK. rewrite (transpose_tab 0 S D) by (auto; apply HK; lia).
  unfold matmul. rewrite ncols_tab, length_tab by assumption.
  rewrite !map_tab. apply tab_ext. intros i _.
  fold (tab S (fun j => dot (Qh i)
                      (col j (tab D (fun c => tab S (fun r => nth c (Kh r) 0)))))).
  rewrite map_tab. apply tab_ext. intros j Hj. do 2 f_equal.
  rewrite col_tab. rewrite (tab_nth (Kh j) D 0) by auto.
  apply tab_ext. intros d _. now rewrite nth_tab by assumption.
Qed.

Lemma head_output L S Dv (W : nat -> nat -> R) (Vh : nat -> vec) :
  (0 < S)%nat ->
  (forall j, (j < S)%nat -> length (Vh j) = Dv) ->
  matmul (tab L (fun i => tab S (W i))) (tab S Vh)
  = tab L (fun i =>
             tab Dv (fun d => sum (tab S (fun j => W i j * nth d (Vh j) 0)))).
Proof.
  intros HS HV. unfold matmul. rewrite ncols_tab, HV by lia.
  rewrite map_tab. apply tab_ext. intros i _. apply tab_ext. intros d _.
  now rewrite col_tab, dot_tab.
Qed.

Section AttentionNormalForm.

Variables (cfg : Config) (B L S H G D Dv rep : nat).
Variables (Q K V : nat -> nat -> nat -> vec).
Hypotheses (HB : (0 < B)%nat) (HL : (0 < L)%nat) (HS : (0 < S)%nat)
  (HG : (0 < G)%nat) (Hrep : (0 < rep)%nat) (HD : (0 < D)%nat)
  (HH : H = (G * rep)%nat).
Hypothesis HQ : length (Q 0 0 0)%nat = D.
Hypothesis HK : forall b j g,
  (b < B)%nat -> (j < S)%nat -> (g < G)%nat -> length (K b j g) = D.
Hypothesis HV : forall b j g,
  (b < B)%nat -> (j < S)%nat -> (g < G)%nat -> length (V b j g) = Dv.

Let q := tab B (fun b => tab L (fun i => tab H (Q b i))).
Let k := tab B (fun b => tab S (fun j => tab G (K b j))).
Let v := tab B (fun b => tab S (fun j => tab G (V b j))).

Lemma H_pos : (0 < H)%nat.
Proof. subst H. nia. Qed.

Lemma group_lt h : (h < H)%nat -> (h / rep < G)%nat.
Proof. intros Hh. apply Nat.Div0.div_lt_upper_bound. subst H. lia. Qed.

Lemma gqa_expand (X : nat -> nat -> nat -> vec) :
  let q' := map (transpose []) q in
  let k' := map (transpose []) k in
  let x' := map (transpose [])
              (tab B (fun b => tab S (fun j => tab G (X b j)))) in
  (if negb (shape_eqb (shape4 q') (shape4 k'))
   then map (repeat_interleave (ncols q' / ncols x')) x' else x')
  = tab B (fun b => tab H (fun h => tab S (fun j => X b j (h / rep)%nat)))
  /\ ncols x' = G.
Proof.
  intros q' k' x'. pose proof H_pos as HHp.
  assert (Eq : q' = tab B (fun b => tab H (fun h => tab L (fun i => Q b i h))))
    by (apply map_transpose_tab; assumption).
  assert (Ek : k' = tab B (fun b => tab G (fun g => tab S (fun j => K b j g))))
    by (apply map_transpose_tab; assumption).
  assert (Ex : x' = tab B (fun b => tab G (fun g => tab S (fun j => X b j g))))
    by (apply map_transpose_tab; assumption).
  assert (Sq : shape4 q' = (B, H, L, D)).
  { rewrite Eq. unfold shape4.
    repeat (rewrite ?length_tab; rewrite ?ncols_tab by assumption;
            rewrite ?hd_tab by assumption).
    now rewrite HQ. }
  assert (Sk : shape4 k' = (B, G, S, D)).
  { rewrite Ek. unfold shape4.
    repeat (rewrite ?length_tab; rewrite ?ncols_tab by assumption;
            rewrite ?hd_tab by assumption).
    now rewrite HK. }
  rewrite Sq, Sk.
  assert (Nq : ncols q' = H)
    by (rewrite Eq, ncols_tab, length_tab by assumption; reflexivity).
  assert (Nx : ncols x' = G)
    by (rewrite Ex, ncols_tab, length_tab by assumption; reflexivity).
  split; [|exact Nx].
  destruct (negb (shape_eqb (B, H, L, D) (B, G, S, D))) eqn:Hs.
  - rewrite Nq, Nx, Ex, map_tab.
    replace (H / G)%nat with rep
      by (subst H; rewrite Nat.mul_comm, Nat.div_mul; lia).
    apply tab_ext. intros b _. rewrite repeat_interleave_tab by assumption.
    now rewrite <- HH.
  - apply negb_false_iff in Hs. unfold shape_eqb in Hs.
    rewrite !andb_true_iff, !Nat.eqb_eq in Hs.
    destruct Hs as [[[_ Hs] _] _].
    assert (rep = 1%nat) by nia. subst rep.
    rewrite Ex. apply tab_ext. intros b _. rewrite Hs. apply tab_ext.
    intros h _. apply tab_ext. intros j _. now rewrite Nat.div_1_r.
Qed.

(** The weights, entry by entry, for a bias given entry by entry. *)
Lemma attention_weights_tab mask (bfun : nat -> nat -> ext) mask' :
  attention_bias L S mask = (tab L (fun i => tab S (bfun i)), mask') ->
  attention_weights cfg q k v mask
  = Ok (tab B (fun b => tab H (fun h => tab L (fun i => tab S (fun j =>
          relu (ext_add
                  (Fin (dot (Q b i h) (K b j (h / rep)%nat)
                        * (1 / INR (head_size cfg))))
                  (bfun i j)))))),
        tab B (fun b => tab H (fun h => tab S (fun j => V b j (h / rep)%nat))),
        mask').
Proof.
  intros Hbias. pose proof H_pos as HHp. unfold attention_weights.
  destruct (gqa_expand K) as [EK NK]. destruct (gqa_expand V) as [EV NV].
  cbv zeta in EK, NK, EV, NV. unfold k, v in *.
  set (q' := map (transpose []) q) in *.
  set (k' := map (transpose [])
               (tab B (fun b => tab S (fun j => tab G (K b j))))) in *.
  set (v' := map (transpose [])
               (tab B (fun b => tab S (fun j => tab G (V b j))))) in *.
  assert (Eq : q' = tab B (fun b => tab H (fun h => tab L (fun i => Q b i h))))
    by (apply map_transpose_tab; assumption).
  assert (Ekv :
    (if negb (shape_eqb (shape4 q') (shape4 k'))
     then if ((ncols k' =? 0) || (ncols v' =? 0))%nat
          then Raise (ZeroDivisionError "integer division or modulo by zero")
          else Ok (map (repeat_interleave (ncols q' / ncols k')) k',
                   map (repeat_interleave (ncols q' / ncols v')) v')
     else Ok (k', v'))
    = Ok (tab B (fun b => tab H (fun h => tab S (fun j => K b j (h / rep)%nat))),
          tab B (fun b => tab H (fun h => tab S (fun j => V b j (h / rep)%nat))))).
  { rewrite NK, NV in *.
    replace (G =? 0)%nat with false by (symmetry; apply Nat.eqb_neq; lia).
    simpl orb. cbv iota.
    destruct (negb (shape_eqb (shape4 q') (shape4 k')));
      now rewrite EK, EV. }
  rewrite Ekv. simpl bind. cbv beta iota zeta.
  rewrite Eq.
  repeat (rewrite ?length_tab; rewrite ?ncols_tab by assumption;
          rewrite ?hd_tab by assumption).
  rewrite Hbias. unfold dropout0. do 3 f_equal.
  rewrite map2_tab, map_tab. apply tab_ext. intros b Hb.
  rewrite map2_tab, map_tab. apply tab_ext. intros h Hh.
  rewrite (head_scores L S D)
    by (auto; intros j Hj; apply HK; auto using group_lt).
  apply map2_tab2.
Qed.

(** The output, entry by entry. *)
Lemma scaled_dot_product_attention_tab mask (bfun : nat -> nat -> ext) mask' :
  attention_bias L S mask = (tab L (fun i => tab S (bfun i)), mask') ->
  scaled_dot_product_attention cfg q k v mask
  = Ok (tab B (fun b => tab L (fun i => tab H (fun h => tab Dv (fun d =>
          sum (tab S (fun j =>
                 relu (ext_add
                         (Fin (dot (Q b i h) (K b j (h / rep)%nat)
                               * (1 / INR (head_size cfg))))
                         (bfun i j))
                 * nth d (V b j (h / rep)%nat) 0)))))),
        mask').
Proof.
  intros Hbias. pose proof H_pos as HHp.
  unfold scaled_dot_product_attention.
  rewrite (attention_weights_tab mask bfun mask' Hbias). simpl bind.
  cbv beta iota zeta. do 2 f_equal.
  rewrite <- (map_transpose_tab [] B H L) by assumption. f_equal.
  rewrite map2_tab. apply tab_ext. intros b Hb.
  rewrite map2_tab. apply tab_ext. intros h Hh.
  apply head_output; [assumption|].
  intros j Hj. apply HV; auto using group_lt.
Qed.

End AttentionNormalForm.

Lemma zeros2_tab L S :
  zeros2 L S = tab L (fun _ => tab S (fun _ => Fin 0)).
Proof.
  unfold zeros2. symmetry. apply tab_const. intros i _.
  apply tab_const. reflexivity.
Qed.

Lemma attention_bias_None L S :
  attention_bias L S None
  = (tab L (fun i => tab S (fun j => if (j <=? i)%nat then Fin 0 else NegInf)),
     None).
Proof.
  unfold attention_bias, masked_fill, logical_not, ones_tril.
  f_equal. rewrite zeros2_tab.
  fold (tab L (fun i => map (fun j => (j <=? i)%nat) (seq 0 S))).
  rewrite map_tab, map2_tab. apply tab_ext. intros i _.
  fold (tab S (fun j => (j <=? i)%nat)). rewrite map_tab, map2_tab.
  apply tab_ext. intros j _. now destruct (j <=? i)%nat.
Qed.

Lemma has_shape4_tab B T H D (t : tensor4) :
  has_shape4 B T H D t = true ->
  t = tab B (fun b => tab T (fun i => tab H (get4 t b i)))
  /\ forall b i h, (b < B)%nat -> (i < T)%nat -> (h < H)%nat ->
                   length (get4 t b i h) = D.
Proof.
  intros Ht. apply is_rect_spec in Ht as [HB Ht].
  assert (H3 : forall b, (b < B)%nat ->
            length (nth b t []) = T
            /\ forall i, (i < T)%nat ->
                 length (nth i (nth b t []) []) = H
                 /\ forall h, (h < H)%nat ->
                      length (nth h (nth i (nth b t []) []) []) = D).
  { intros b Hb. specialize (Ht b [] Hb).
    apply is_rect_spec in Ht as [HT Ht]. split; [assumption|].
    intros i Hi. specialize (Ht i [] Hi).
    apply is_rect_spec in Ht as [HH Ht]. split; [assumption|].
    intros h Hh. specialize (Ht h [] Hh). now apply Nat.eqb_eq in Ht. }
  split.
  - rewrite (tab_nth t B []) at 1 by assumption.
    apply tab_ext. intros b Hb. destruct (H3 b Hb) as [HT H2].
    rewrite (tab_nth (nth b t []) T []) at 1 by assumption.
    apply tab_ext. intros i Hi. destruct (H2 i Hi) as [HH _].
    now rewrite (tab_nth (nth i (nth b t []) []) H []) at 1 by assumption.
  - intros b i h Hb Hi Hh. now apply H3.
Qed.

(** C1.  On queries (B, L, H, D), keys (B, S, G, D) and values
    (B, S, G, Dv), with [H = G * rep] heads and no [mask]:
    the bias is [-inf] where the key position [j] is after the query
    position [i] and 0 elsewhere; the weights are
    [relu(q . k * (1 / head_size) + bias)], head [h] reading key/value group
    [h / rep], with nothing dividing them by their sum; a weight under a
    [-inf] bias is 0; and the output at [(b, i, h)] is the sum over the key
    positions of weight times value. *)
Theorem sdpa_relu_causal (cfg : Config) (B L S H G D Dv rep : nat)
  (q k v : tensor4) :
  (0 < B)%nat -> (0 < L)%nat -> (0 < S)%nat -> (0 < G)%nat ->
  (0 < rep)%nat -> (0 < D)%nat -> H = (G * rep)%nat ->
  has_shape4 B L H D q = true ->
  has_shape4 B S G D k = true ->
  has_shape4 B S G Dv v = true ->
  let scale := 1 / INR (head_size cfg) in
  let bias i j := if (j <=? i)%nat then Fin 0 else NegInf in
  let w b h i j :=
    relu (ext_add (Fin (dot (get4 q b i h) (get4 k b j (h / rep)%nat) * scale))
            (bias i j)) in
  attention_bias L S None = (tab L (fun i => tab S (bias i)), None)
  /\ attention_weights cfg q k v None
     = Ok (tab B (fun b => tab H (fun h => tab L (fun i => tab S (w b h i)))),
           tab B (fun b => tab H (fun h =>
                    tab S (fun j => get4 v b j (h / rep)%nat))),
           None)
  /\ scaled_dot_product_attention cfg q k v None
     = Ok (tab B (fun b => tab L (fun i => tab H (fun h => tab Dv (fun d =>
             sum (tab S (fun j =>
                    w b h i j * nth d (get4 v b j (h / rep)%nat) 0)))))),
           None)
  /\ (forall b h i j, (i < j)%nat -> w b h i j = 0)
  /\ (forall b h i j, (j <= i)%nat ->
        w b h i j
        = Rmax 0 (dot (get4 q b i h) (get4 k b j (h / rep)%nat) * scale)).
Proof.
  intros HB HL HS HG Hrep HD HH Hq Hk Hv scale bias w.
  apply has_shape4_tab in Hq as [Eq Lq].
  apply has_shape4_tab in Hk as [Ek Lk].
  apply has_shape4_tab in Hv as [Ev Lv].
  assert (HHp : (0 < H)%nat) by (subst H; nia).
  split; [apply attention_bias_None|].
  split; [|split; [|split]].
  - rewrite Eq, Ek, Ev at 1.
    apply attention_weights_tab with (D := D) (G := G); auto.
    apply attention_bias_None.
  - rewrite Eq, Ek, Ev at 1.
    apply scaled_dot_product_attention_tab with (D := D) (G := G); auto.
    apply attention_bias_None.
  - intros b h i j Hij. unfold w, bias.
    destruct (j <=? i)%nat eqn:E; [apply Nat.leb_le in E; lia|reflexivity].
  - intros b h i j Hij. unfold w, bias.
    apply Nat.leb_le in Hij. rewrite Hij. simpl. now rewrite Rplus_0_r.
Qed.

(** C2.  With a boolean mask the fill is applied to the mask and the
    additive bias stays zero everywhere.  Query [(1, 1)] against two keys
    [(1, 1)] at head size 2, the second key disallowed by the mask
    [[True, False]]: both weights are 1, the output is the sum of both
    values, and the mask comes back as [[True, True]]. *)
Theorem bool_mask_leaves_bias_zero :
  (forall L S m,
     attention_bias L S (Some (BoolMask m))
     = (zeros2 L S, Some (BoolMask (map (map (fun _ => true)) m))))
  /\ attention_weights small_config
       [[[[1; 1]]]] [[[[1; 1]]; [[1; 1]]]] [[[[1; 0]]; [[0; 1]]]]
       (Some (BoolMask [[true; false]]))
     = Ok ([[[[1; 1]]]], [[[[1; 0]; [0; 1]]]],
           Some (BoolMask [[true; true]]))
  /\ scaled_dot_product_attention small_config
       [[[[1; 1]]]] [[[[1; 1]]; [[1; 1]]]] [[[[1; 0]]; [[0; 1]]]]
       (Some (BoolMask [[true; false]]))
     = Ok ([[[[1; 1]]]], Some (BoolMask [[true; true]])).
Proof.
  assert (Hb : forall L S m,
    attention_bias L S (Some (BoolMask m))
    = (zeros2 L S, Some (BoolMask (map (map (fun _ => true)) m)))).
  { intros L S m. unfold attention_bias. simpl ext_to_bool.
    now rewrite masked_fill_not_self. }
  assert (Hw : attention_weights small_config
       [[[[1; 1]]]] [[[[1; 1]]; [[1; 1]]]] [[[[1; 0]]; [[0; 1]]]]
       (Some (BoolMask [[true; false]]))
     = Ok ([[[[1; 1]]]], [[[[1; 0]; [0; 1]]]],
           Some (BoolMask [[true; true]]))).
  { unfold attention_weights. cbn -[relu ext_add INR attention_bias].
    rewrite Hb. cbn -[relu ext_add INR].
    assert (E : (1 * 1 + (1 * 1 + 0)) * (1 / INR 2) = 1) by (simpl; lra).
    rewrite E, relu_Fin_nonneg by lra. reflexivity. }
  split; [exact Hb|]. split; [exact Hw|].
  unfold scaled_dot_product_attention. rewrite Hw. cbn.
  replace (1 * 1 + (1 * 0 + 0)) with 1 by ring.
  replace (1 * 0 + (1 * 1 + 0)) with 1 by ring.
  reflexivity.
Qed.

(* ----------------------------------------------------------------- *)
(** ** Key/value cache *)

Lemma length_set_nth {A} i (x : A) l : length (set_nth i x l) = length l.
Proof.
  revert i. induction l as [|a l IH]; intros [|i]; simpl; auto.
Qed.

Lemma nth_set_nth_eq {A} i (x : A) l d :
  (i < length l)%nat -> nth i (set_nth i x l) d = x.
Proof.
  revert i. induction l as [|a l IH]; intros [|i] Hi; simpl in *;
    try lia; auto.
  apply IH. lia.
Qed.

Lemma nth_set_nth_neq {A} i j (x : A) l d :
  j <> i -> nth j (set_nth i x l) d = nth j l d.
Proof.
  revert i j. induction l as [|a l IH]; intros [|i] [|j] Hj; simpl;
    try congruence; auto.
Qed.

Lemma length_index_copy_seq {A} (self : list A) index source :
  length (index_copy_seq self index source) = length self.
Proof.
  revert self source. induction index as [|i index IH];
    intros self [|s source]; simpl; auto.
  now rewrite IH, length_set_nth.
Qed.

Lemma index_copy_seq_other {A} (self : list A) index source j d :
  ~ In j index ->
  nth j (index_copy_seq self index source) d = nth j self d.
Proof.
  revert self source. induction index as [|i index IH];
    intros self [|s source] Hj; simpl; auto.
  rewrite IH by (intros Hin; apply Hj; now right).
  apply nth_set_nth_neq. intros ->. apply Hj. now left.
Qed.

Lemma index_copy_seq_written {A} (self : list A) index source t d :
  NoDup index -> length index = length source ->
  Forall (fun i => (i < length self)%nat) index ->
  (t < length index)%nat ->
  nth (nth t index 0%nat) (index_copy_seq self index source) d
  = nth t source d.
Proof.
  revert self source t. induction index as [|i index IH];
    intros self [|s source] t Hnd Hlen Hrange Ht; simpl in *;
    try lia; try discriminate.
  inversion Hnd as [|? ? Hnotin Hnd']; subst.
  inversion Hrange as [|? ? Hi Hrange']; subst.
  destruct t as [|t].
  - rewrite index_copy_seq_other by assumption.
    now apply nth_set_nth_eq.
  - apply IH; auto; try lia.
    eapply Forall_impl; [|exact Hrange']. intros a Ha.
    now rewrite length_set_nth.
Qed.

Lemma last_pos_last (input_pos : list nat) :
  input_pos <> [] -> last_pos input_pos = Ok (last input_pos 0%nat).
Proof.
  intros Hne. destruct (exists_last Hne) as (l & x & ->).
  unfold last_pos. now rewrite rev_unit, last_last.
Qed.

Lemma is_rect_intro {A} n (p : A -> bool) (l : list A) (d : A) :
  length l = n ->
  (forall i, (i < n)%nat -> p (nth i l d) = true) ->
  is_rect n p l = true.
Proof.
  intros Hl Hp. unfold is_rect. rewrite Hl, Nat.eqb_refl. simpl.
  apply forallb_forall. intros x Hx.
  destruct (In_nth l x d Hx) as (i & Hi & <-). apply Hp. lia.
Qed.

Lemma nth_roll_left {A} (l : list A) d j :
  (0 < length l)%nat -> (j < length l)%nat ->
  nth j (roll_left l) d
  = if (j =? length l - 1)%nat then nth 0 l d else nth (S j) l d.
Proof.
  intros Hl Hj. unfold roll_left. destruct l as [|a l]; simpl in *; [lia|].
  rewrite Nat.sub_0_r.
  destruct (j =? length l)%nat eqn:E.
  - apply Nat.eqb_eq in E. subst j.
    now rewrite app_nth2, Nat.sub_diag by lia.
  - apply Nat.eqb_neq in E. rewrite app_nth1 by lia. reflexivity.
Qed.

Lemma length_roll_left {A} (l : list A) : length (roll_left l) = length l.
Proof.
  unfold roll_left. rewrite length_app, length_skipn, length_firstn.
  destruct l; simpl; lia.
Qed.

Lemma forallb_set_nth {A} (p : A -> bool) i x l :
  p x = true -> forallb p l = true -> forallb p (set_nth i x l) = true.
Proof.
  intros Hx. revert i. induction l as [|a l IH]; intros [|i] Hl; simpl in *;
    auto; apply andb_prop in Hl as [Ha Hl]; rewrite ?Hx, ?Ha; simpl; auto.
Qed.

Lemma is_rect_index_copy_seq {A} n (p : A -> bool) self index source :
  is_rect n p self = true -> forallb p source = true ->
  is_rect n p (index_copy_seq self index source) = true.
Proof.
  unfold is_rect. rewrite length_index_copy_seq. intros Hs Hsrc.
  apply andb_prop in Hs as [Hl Hs]. rewrite Hl. simpl.
  clear Hl. revert self source Hs Hsrc. induction index as [|i index IH];
    intros self [|s source] Hs Hsrc; simpl in *; auto.
  apply andb_prop in Hsrc as [Hps Hsrc].
  apply IH; auto using forallb_set_nth.
Qed.

Lemma is_rect_roll_left {A} n (p : A -> bool) l :
  is_rect n p l = true -> is_rect n p (roll_left l) = true.
Proof.
  unfold is_rect. rewrite length_roll_left. intros H.
  apply andb_prop in H as [Hl Hp]. rewrite Hl. simpl.
  unfold roll_left. rewrite forallb_app.
  destruct l as [|a l]; simpl in *; auto.
  apply andb_prop in Hp as [Ha Hp]. now rewrite Ha, Hp.
Qed.

Lemma is_rect_map {A B} n (p : A -> bool) (q : B -> bool) (f : A -> B) l :
  (forall a, p a = true -> q (f a) = true) ->
  is_rect n p l = true -> is_rect n q (map f l) = true.
Proof.
  unfold is_rect. rewrite length_map. intros Hf H.
  apply andb_prop in H as [Hl Hp]. rewrite Hl. simpl.
  rewrite forallb_forall in *. intros y Hy.
  apply in_map_iff in Hy as (a & <- & Ha). auto.
Qed.

Lemma is_rect_map2 {A B C} n (p : A -> bool) (q : B -> bool) (r : C -> bool)
  (f : A -> B -> C) l1 l2 :
  (forall a b, p a = true -> q b = true -> r (f a b) = true) ->
  is_rect n p l1 = true -> is_rect n q l2 = true ->
  is_rect n r (map2 f l1 l2) = true.
Proof.
  unfold is_rect. rewrite length_map2. intros Hf H1 H2.
  apply andb_prop in H1 as [Hl1 Hp]. apply andb_prop in H2 as [Hl2 Hq].
  apply Nat.eqb_eq in Hl1, Hl2. rewrite Hl1, Hl2, Nat.min_id, Nat.eqb_refl.
  simpl. rewrite forallb_forall in *. intros y Hy. unfold map2 in Hy.
  apply in_map_iff in Hy as ([a b] & <- & Hab). simpl.
  apply Hf; [apply Hp; eapply in_combine_l|apply Hq; eapply in_combine_r];
    eauto.
Qed.

Lemma index_copy_1_ok (B Sn T G D : nat) (self source : tensor4) index :
  (0 < B)%nat -> (0 < G)%nat -> (0 < T)%nat ->
  has_shape4 B Sn G D self = true ->
  has_shape4 B T G D source = true ->
  length index = T ->
  Forall (fun i => (i < Sn)%nat) index ->
  index_copy_1 self index source
  = Ok (map2 (fun cb sb => index_copy_seq cb index sb) self source).
Proof.
  intros HB HG HT Hself Hsrc Hlen Hrange.
  assert (HSn : (0 < Sn)%nat).
  { destruct index as [|i index]; [simpl in Hlen; lia|].
    inversion Hrange; lia. }
  pose proof Hself as Hs. pose proof Hsrc as Hc.
  apply has_shape4_tab in Hs as [Es Ls]. apply has_shape4_tab in Hc as [Ec Lc].
  assert (S1 : shape4 self = (B, Sn, G, D)).
  { rewrite Es. unfold shape4.
    repeat (rewrite ?length_tab; rewrite ?ncols_tab by assumption;
            rewrite ?hd_tab by assumption).
    now rewrite Ls. }
  assert (S2 : shape4 source = (B, T, G, D)).
  { rewrite Ec. unfold shape4.
    repeat (rewrite ?length_tab; rewrite ?ncols_tab by assumption;
            rewrite ?hd_tab by assumption).
    now rewrite Lc. }
  unfold index_copy_1.
  assert (C1 : forallb (fun sb : list (list (list R)) =>
                          (length index =? length sb)%nat) source = true).
  { apply forallb_forall. intros sb Hin. apply Nat.eqb_eq.
    unfold has_shape4, is_rect in Hsrc. apply andb_prop in Hsrc as [_ Hall].
    rewrite forallb_forall in Hall. specialize (Hall sb Hin).
    apply andb_prop in Hall as [Hl _]. apply Nat.eqb_eq in Hl. lia. }
  assert (C2 : forallb (fun cb : list (list (list R)) =>
                          forallb (fun i => (i <? length cb)%nat) index)
                 self = true).
  { apply forallb_forall. intros cb Hin.
    unfold has_shape4, is_rect in Hself. apply andb_prop in Hself as [_ Hall].
    rewrite forallb_forall in Hall. specialize (Hall cb Hin).
    apply andb_prop in Hall as [Hl _]. apply Nat.eqb_eq in Hl.
    apply forallb_forall. intros i Hi. apply Nat.ltb_lt.
    rewrite Forall_forall in Hrange. specialize (Hrange i Hi). lia. }
  rewrite C1, C2, S1, S2. simpl.
  assert (E : length self = length source).
  { apply (f_equal (fun s => fst (fst (fst s)))) in S1, S2. simpl in *. lia. }
  now rewrite E, !Nat.eqb_refl.
Qed.

Lemma has_shape4_lengths B T G D (t : tensor4) b :
  has_shape4 B T G D t = true -> (b < B)%nat ->
  length t = B /\ has_shape3 T G D (nth b t []) = true
  /\ length (nth b t []) = T.
Proof.
  intros Ht Hb. apply is_rect_spec in Ht as [HB Ht].
  specialize (Ht b [] Hb). split; [assumption|]. split; [assumption|].
  now apply is_rect_spec in Ht as [HT _].
Qed.

Lemma has_shape4_index_copy B Sn T G D (self source : tensor4) index :
  has_shape4 B Sn G D self = true -> has_shape4 B T G D source = true ->
  has_shape4 B Sn G D
    (map2 (fun cb sb => index_copy_seq cb index sb) self source) = true.
Proof.
  intros Hs Hc. eapply is_rect_map2; [|exact Hs|exact Hc].
  intros cb sb Hcb Hsb. apply is_rect_index_copy_seq; [assumption|].
  unfold has_shape3, is_rect in Hsb. now apply andb_prop in Hsb as [_ Hsb].
Qed.

Lemma slot_index_copy B Sn T G D (self source : tensor4) index b j :
  has_shape4 B Sn G D self = true -> has_shape4 B T G D source = true ->
  (b < B)%nat ->
  slot (map2 (fun cb sb => index_copy_seq cb index sb) self source) b j
  = nth j (index_copy_seq (nth b self []) index (nth b source [])) [].
Proof.
  intros Hs Hc Hb. unfold slot.
  destruct (has_shape4_lengths _ _ _ _ _ b Hs Hb) as (Ls & _).
  destruct (has_shape4_lengths _ _ _ _ _ b Hc Hb) as (Lc & _).
  now rewrite (nth_map2 _ _ _ _ _ [] []) by lia.
Qed.

(** The two branches of the cache write, for one of the two caches. *)
Lemma write_full_cache B Sn G D (cache source : tensor4) :
  (0 < B)%nat -> (0 < G)%nat -> (0 < Sn)%nat ->
  has_shape4 B Sn G D cache = true -> has_shape4 B 1 G D source = true ->
  exists c',
    index_copy_1 (map roll_left cache) [(Sn - 1)%nat] source = Ok c'
    /\ has_shape4 B Sn G D c' = true
    /\ forall b, (b < B)%nat ->
         slot c' b (Sn - 1) = slot source b 0
         /\ forall j, (j < Sn - 1)%nat -> slot c' b j = slot cache b (S j).
Proof.
  intros HB HG HS Hc Hs.
  assert (Hr : has_shape4 B Sn G D (map roll_left cache) = true).
  { eapply is_rect_map; [|exact Hc]. intros a. apply is_rect_roll_left. }
  eexists. split; [|split].
  - apply (index_copy_1_ok B Sn 1 G D); auto. repeat constructor. lia.
  - now apply (has_shape4_index_copy B Sn 1 G D).
  - intros b Hb.
    destruct (has_shape4_lengths _ _ _ _ _ b Hc Hb) as (Lc & _ & Lcb).
    destruct (has_shape4_lengths _ _ _ _ _ b Hs Hb) as (Ls & _ & Lsb).
    assert (Eb : nth b (map roll_left cache) [] = roll_left (nth b cache []))
      by (apply nth_map_lt; lia).
    split.
    + rewrite (slot_index_copy B Sn 1 G D) by assumption.
      change (Sn - 1)%nat with (nth 0 [(Sn - 1)%nat] 0%nat) at 1.
      rewrite index_copy_seq_written; auto.
      * repeat constructor. intros [].
      * repeat constructor. rewrite Eb, length_roll_left. lia.
    + intros j Hj. rewrite (slot_index_copy B Sn 1 G D) by assumption.
      rewrite index_copy_seq_other by (intros [E|[]]; lia).
      rewrite Eb, nth_roll_left by lia.
      replace (j =? length (nth b cache []) - 1)%nat with false
        by (symmetry; apply Nat.eqb_neq; lia).
      reflexivity.
Qed.

Lemma write_within_cache B Sn G D (cache source : tensor4) index :
  (0 < B)%nat -> (0 < G)%nat -> index <> [] ->
  has_shape4 B Sn G D cache = true ->
  has_shape4 B (length index) G D source = true ->
  Forall (fun i => (i < Sn)%nat) index -> NoDup index ->
  exists c',
    index_copy_1 cache index source = Ok c'
    /\ has_shape4 B Sn G D c' = true
    /\ forall b, (b < B)%nat ->
         (forall t, (t < length index)%nat ->
            slot c' b (nth t index 0%nat) = slot source b t)
         /\ forall j, ~ In j index -> slot c' b j = slot cache b j.
Proof.
  intros HB HG Hne Hc Hs Hrange Hnd.
  assert (HT : (0 < length index)%nat)
    by (destruct index; [contradiction|simpl; lia]).
  eexists. split; [|split].
  - now apply (index_copy_1_ok B Sn (length index) G D).
  - now apply (has_shape4_index_copy B Sn (length index) G D).
  - intros b Hb.
    destruct (has_shape4_lengths _ _ _ _ _ b Hc Hb) as (Lc & _ & Lcb).
    destruct (has_shape4_lengths _ _ _ _ _ b Hs Hb) as (Ls & _ & Lsb).
    split.
    + intros t Ht.
      rewrite (slot_index_copy B Sn (length index) G D) by assumption.
      apply index_copy_seq_written; auto. now rewrite Lcb.
    + intros j Hj.
      rewrite (slot_index_copy B Sn (length index) G D) by assumption.
      now apply index_copy_seq_other.
Qed.


(* ----------------------------------------------------------------- *)
(** ** The layers on initialized parameters *)

Lemma ParamHeaveside_forward_init {T} `{Tensor T} (p : ParamHeaveside) (x : T) :
  initialized (embed_scale p) = true ->
  ParamHeaveside_forward p x = Ok (map_rows (act p) x, p).
Proof.
  intros Hi. unfold ParamHeaveside_forward.
  rewrite forward_initialized by assumption. simpl. now destruct p.
Qed.

Lemma GptNeoxMLP_forward_init (m : GptNeoxMLP) (x : tensor3) :
  initialized (embed_scale (mlp_act1 m)) = true ->
  initialized (embed_scale (mlp_act2 m)) = true ->
  GptNeoxMLP_forward m x = Ok (map (map (mlp_row m)) x, m).
Proof.
  intros H1 H2. unfold GptNeoxMLP_forward.
  rewrite ParamHeaveside_forward_init by assumption. simpl bind.
  rewrite ParamHeaveside_forward_init by assumption. simpl bind.
  destruct m. simpl. f_equal. f_equal.
  rewrite !map_map. apply map_ext. intros xb. rewrite !map_map.
  reflexivity.
Qed.

Lemma length_chunks {A} n (l : list A) : length (chunks n l) = (length l / n)%nat.
Proof. unfold chunks. now rewrite length_map, length_seq. Qed.

Lemma chunks_lengths {A} n (l : list A) :
  (0 < n)%nat -> Forall (fun c => length c = n) (chunks n l).
Proof.
  intros Hn. unfold chunks. rewrite Forall_map, Forall_forall.
  intros i Hi. apply in_seq in Hi.
  rewrite length_firstn, length_skipn.
  assert ((i + 1) * n <= length l)%nat.
  { etransitivity; [|apply (Nat.Div0.mul_div_le _ n)].
    rewrite (Nat.mul_comm n). apply Nat.mul_le_mono_r. lia. }
  lia.
Qed.

Lemma Forall_firstn_skipn {A} (P : A -> Prop) a b (l : list A) :
  Forall P l -> Forall P (firstn a (skipn b l)).
Proof.
  intros Hl.
  assert (Hs : Forall P (skipn b l)).
  { rewrite <- (firstn_skipn b l) in Hl. now apply Forall_app in Hl. }
  rewrite <- (firstn_skipn a (skipn b l)) in Hs. now apply Forall_app in Hs.
Qed.

Lemma chunks_Forall {A} (P : A -> Prop) n (l : list A) :
  Forall P l -> Forall (Forall P) (chunks n l).
Proof.
  intros Hl. unfold chunks. rewrite Forall_map, Forall_forall.
  intros i _. now apply Forall_firstn_skipn.
Qed.

Lemma length_split_part (from len total : nat) (groups : list (list vec)) :
  Forall (fun g => length g = total) groups -> (from + len <= total)%nat ->
  length (split_part from len groups) = (length groups * len)%nat.
Proof.
  intros Hg Hlen. unfold split_part.
  rewrite (length_concat_rect len); [now rewrite length_map|].
  rewrite Forall_map. eapply Forall_impl; [|exact Hg].
  intros g Eg. simpl in Eg. rewrite length_firstn, length_skipn. lia.
Qed.

Lemma split_part_Forall (P : vec -> Prop) from len (groups : list (list vec)) :
  Forall (Forall P) groups -> Forall P (split_part from len groups).
Proof.
  intros Hg. unfold split_part. apply Forall_concat. rewrite Forall_map.
  eapply Forall_impl; [|exact Hg]. intros g. apply Forall_firstn_skipn.
Qed.

Lemma length_F_linear x (l : Linear) out :
  wf_linear out l = true -> length (Linear_forward l x) = out.
Proof.
  unfold wf_linear, Linear_forward, F_linear. intros H.
  apply andb_prop in H as [Hw Hb]. apply Nat.eqb_eq in Hw.
  destruct (bias l) as [b|].
  - apply Nat.eqb_eq in Hb. rewrite length_map2, length_map. lia.
  - now rewrite length_map.
Qed.

Lemma length_heaveside_row alpha beta x n :
  length alpha = n -> length beta = n -> length x = n ->
  length (heaveside_row alpha beta x) = n.
Proof.
  intros Ha Hb Hx. unfold heaveside_row.
  rewrite length_map2, length_map, length_map2. lia.
Qed.

Lemma map2_nth_tab {A B C} (f : A -> B -> C) l1 l2 n d1 d2 :
  length l1 = n -> length l2 = n ->
  map2 f l1 l2 = tab n (fun i => f (nth i l1 d1) (nth i l2 d2)).
Proof.
  intros H1 H2. rewrite (tab_nth l1 n d1) at 1 by assumption.
  rewrite (tab_nth l2 n d2) at 1 by assumption. apply map2_tab.
Qed.

Lemma Forall_nth_length (l : list vec) n i :
  Forall (fun c => length c = n) l -> (i < length l)%nat ->
  length (nth i l []) = n.
Proof.
  intros Hl Hi. rewrite Forall_forall in Hl. now apply Hl, nth_In.
Qed.

Lemma has_shape4_slot B T G D (t : tensor4) b j :
  has_shape4 B T G D t = true -> (b < B)%nat -> (j < T)%nat ->
  length (slot t b j) = G /\ Forall (fun c => length c = D) (slot t b j).
Proof.
  intros Ht Hb Hj. apply is_rect_spec in Ht as [_ Ht].
  specialize (Ht b [] Hb). apply is_rect_spec in Ht as [_ Ht].
  specialize (Ht j [] Hj). unfold slot.
  unfold has_shape2, is_rect in Ht. apply andb_prop in Ht as [HG HD].
  apply Nat.eqb_eq in HG. split; [assumption|].
  rewrite Forall_forall. rewrite forallb_forall in HD.
  intros c Hc. now apply Nat.eqb_eq, HD.
Qed.

Lemma has_shape4_ext B T G D (t1 t2 : tensor4) :
  has_shape4 B T G D t1 = true -> has_shape4 B T G D t2 = true ->
  (forall b j, (b < B)%nat -> (j < T)%nat -> slot t1 b j = slot t2 b j) ->
  t1 = t2.
Proof.
  intros H1 H2 Hs.
  apply (list_eq_nth _ _ []).
  - apply is_rect_spec in H1 as [L1 _]. apply is_rect_spec in H2 as [L2 _].
    lia.
  - intros b Hb.
    assert (Hb' : (b < B)%nat)
      by (apply is_rect_spec in H1 as [L1 _]; lia).
    destruct (has_shape4_lengths _ _ _ _ _ b H1 Hb') as (_ & _ & E1).
    destruct (has_shape4_lengths _ _ _ _ _ b H2 Hb') as (_ & _ & E2).
    apply (list_eq_nth _ _ []); [lia|].
    intros j Hj. apply (Hs b j); lia.
Qed.

Lemma has_shape4_tab_intro B T G D (F : nat -> nat -> list vec) :
  (forall b j, (b < B)%nat -> (j < T)%nat ->
     length (F b j) = G /\ Forall (fun c => length c = D) (F b j)) ->
  has_shape4 B T G D (tab B (fun b => tab T (F b))) = true.
Proof.
  intros HF. apply (is_rect_intro _ _ _ []); [apply length_tab|].
  intros b Hb. rewrite nth_tab by assumption.
  apply (is_rect_intro _ _ _ []); [apply length_tab|].
  intros j Hj. rewrite nth_tab by assumption.
  destruct (HF b j Hb Hj) as [LG FD].
  apply (is_rect_intro _ _ _ []); [assumption|].
  intros g Hg. apply Nat.eqb_eq. apply Forall_nth_length; [assumption|lia].
Qed.

Lemma slot_tab B T (F : nat -> nat -> mat) b j :
  (b < B)%nat -> (j < T)%nat ->
  slot (tab B (fun b => tab T (F b))) b j = F b j.
Proof. intros Hb Hj. unfold slot. now rewrite !nth_tab. Qed.

Section Decoding.

Variable cfg : Config.
Hypothesis Hrot : forall c s x, length (apply_rotary_emb_row c s x) = length x.
Hypothesis Hcfg : wf_config cfg = true.

Lemma cfg_facts :
  (0 < n_query_groups cfg)%nat /\ (0 < head_size cfg)%nat
  /\ (0 < q_per_kv cfg)%nat
  /\ n_head cfg = (n_query_groups cfg * q_per_kv cfg)%nat
  /\ rotary_n_elem cfg = (2 * ((rotary_n_elem cfg + 1) / 2))%nat
  /\ (rotary_n_elem cfg <= head_size cfg)%nat
  /\ (parallel_residual cfg = true \/ shared_attention_norm cfg = false).
Proof.
  unfold wf_config in Hcfg.
  rewrite !andb_true_iff, !Nat.ltb_lt, !Nat.eqb_eq, Nat.leb_le, orb_true_iff,
    negb_true_iff in Hcfg.
  tauto.
Qed.

Lemma wf_block_facts (blk : Block) :
  wf_block cfg blk = true ->
  wf_linear ((n_head cfg + 2 * n_query_groups cfg) * head_size cfg)
    (csa_attn (blk_attn blk)) = true
  /\ initialized (embed_scale (encoder_input (blk_attn blk))) = true
  /\ wf_heaveside (head_size cfg) (encoder_q (blk_attn blk)) = true
  /\ wf_heaveside (head_size cfg) (encoder_k (blk_attn blk)) = true
  /\ initialized (embed_scale (encoder_output (blk_attn blk))) = true
  /\ initialized (embed_scale (mlp_act1 (blk_mlp blk))) = true
  /\ initialized (embed_scale (mlp_act2 (blk_mlp blk))) = true.
Proof.
  unfold wf_block. rewrite !andb_true_iff. tauto.
Qed.

Lemma wf_heaveside_facts size p :
  wf_heaveside size p = true ->
  length (zero_point p) = size /\ length (data (embed_scale p)) = size
  /\ initialized (embed_scale p) = true.
Proof.
  unfold wf_heaveside. rewrite !andb_true_iff, !Nat.eqb_eq. tauto.
Qed.

Lemma length_act size p x :
  wf_heaveside size p = true -> length x = size -> length (act p x) = size.
Proof.
  intros Hp Hx. apply wf_heaveside_facts in Hp as (Hz & Hd & _).
  now apply length_heaveside_row.
Qed.

(** The shapes of the heads of one position. *)
Lemma qkv_groups_shape (blk : Block) (x : vec) :
  wf_block cfg blk = true ->
  let groups := qkv_groups cfg (blk_attn blk) x in
  length groups = n_query_groups cfg
  /\ Forall (fun g => length g = (q_per_kv cfg + 2)%nat) groups
  /\ Forall (Forall (fun c : vec => length c = head_size cfg)) groups.
Proof.
  intros Hblk groups.
  destruct cfg_facts as (HG & Hhs & Hq & Hn & _).
  apply wf_block_facts in Hblk as (Hlin & _).
  unfold groups, qkv_groups, view_groups.
  split; [|split].
  - rewrite !length_chunks, (length_F_linear _ _ _ Hlin), Nat.div_mul by lia.
    rewrite Hn.
    replace (n_query_groups cfg * q_per_kv cfg + 2 * n_query_groups cfg)%nat
      with (n_query_groups cfg * (q_per_kv cfg + 2))%nat by lia.
    rewrite Nat.div_mul; lia.
  - apply chunks_lengths. lia.
  - apply chunks_Forall, chunks_lengths. lia.
Qed.

Lemma heads_shape (blk : Block) (cs : vec * vec) (x : vec) :
  wf_block cfg blk = true ->
  let a := blk_attn blk in
  (length (q_heads cfg a cs x) = n_head cfg
   /\ Forall (fun c => length c = head_size cfg) (q_heads cfg a cs x))
  /\ (length (k_heads cfg a cs x) = n_query_groups cfg
      /\ Forall (fun c => length c = head_size cfg) (k_heads cfg a cs x))
  /\ (length (v_heads cfg a x) = n_query_groups cfg
      /\ Forall (fun c => length c = head_size cfg) (v_heads cfg a x)).
Proof.
  intros Hblk a.
  destruct cfg_facts as (HG & Hhs & Hq & Hn & _).
  destruct (qkv_groups_shape blk x Hblk) as (Lg & Tg & Cg).
  apply wf_block_facts in Hblk as (_ & _ & Hpq & Hpk & _).
  unfold q_heads, k_heads, v_heads. fold a in Lg, Tg, Cg.
  assert (Hact : forall p l,
            wf_heaveside (head_size cfg) p = true ->
            Forall (fun c : vec => length c = head_size cfg) l ->
            Forall (fun c : vec => length c = head_size cfg)
              (map (act p) (map (apply_rotary_emb_row (fst cs) (snd cs)) l))).
  { intros p l Hp Hl. rewrite map_map, Forall_map.
    eapply Forall_impl; [|exact Hl]. intros c Hc. simpl in Hc.
    apply (length_act _ _ _ Hp). now rewrite Hrot. }
  repeat split.
  - rewrite !length_map, (length_split_part _ _ (q_per_kv cfg + 2)); auto; lia.
  - apply Hact; auto using split_part_Forall.
  - rewrite !length_map, (length_split_part _ _ (q_per_kv cfg + 2)); auto; lia.
  - apply Hact; auto using split_part_Forall.
  - rewrite (length_split_part _ _ (q_per_kv cfg + 2)); auto; lia.
  - auto using split_part_Forall.
Qed.

(** The attention sublayer on initialized parameters: queries, keys and
    values are computed position by position, and only
    [scaled_dot_product_attention] relates positions. *)
Lemma CausalSelfAttention_forward_init (blk : Block) (x : tensor3)
  (cos sin : mat) (msl : nat) (mask : option mask_tensor)
  (pos : option (list nat)) (kv : option KVCache) :
  wf_block cfg blk = true ->
  let a := blk_attn blk in
  let q := map (fun xb => map2 (fun xr cs => q_heads cfg a cs xr) xb
                            (combine cos sin)) x in
  let k := map (fun xb => map2 (fun xr cs => k_heads cfg a cs xr) xb
                            (combine cos sin)) x in
  let v := map (map (v_heads cfg a)) x in
  CausalSelfAttention_forward cfg a x (cos, sin) msl mask pos kv
  = ('(k, v, kv_cache) <-
       match kv with
       | None => Ok (k, v, None)
       | Some cache =>
           match pos with
           | None => Raise (TypeError "'NoneType' object is not subscriptable")
           | Some input_pos =>
               '(k, v) <- kv_cache_write msl input_pos cache k v ;;
               Ok (k, v, Some (k, v))
           end
       end ;;
     '(y, mask) <- scaled_dot_product_attention cfg q k v mask ;;
     Ok (map (map (attn_post a)) y, kv_cache, mask, a)).
Proof.
  intros Hblk a q k v.
  destruct cfg_facts as (HG & Hhs & Hq & Hn & _).
  apply wf_block_facts in Hblk as (_ & Hin & Hpq & Hpk & Hout & _).
  apply wf_heaveside_facts in Hpq as (_ & _ & Hpq).
  apply wf_heaveside_facts in Hpk as (_ & _ & Hpk).
  fold a in Hin, Hpq, Hpk, Hout.
  unfold CausalSelfAttention_forward.
  rewrite (ParamHeaveside_forward_init (encoder_input a)) by assumption.
  cbn [bind].
  replace (n_query_groups cfg =? 0)%nat with false
    by (symmetry; apply Nat.eqb_neq; lia).
  cbn [bind]. fold (q_per_kv cfg).
  rewrite (ParamHeaveside_forward_init (encoder_q a)) by assumption.
  cbn [bind].
  rewrite (ParamHeaveside_forward_init (encoder_k a)) by assumption.
  cbn [bind].
  match goal with
  | |- context [scaled_dot_product_attention cfg ?q' _ _ _] =>
      replace q' with q
  end.
  2:{ unfold q, q_heads, qkv_groups, apply_rotary_emb_func. cbn [map_rows Tensor_list Tensor_mat].
      rewrite !map_map. apply map_ext. intros xb.
      rewrite !map_map, map2_map_l, map_map2. apply map2_ext.
      intros xr cs _ _. now rewrite map_map. }
  replace (map_rows (act (encoder_k a))
             (apply_rotary_emb_func
                (map (map (split_part (q_per_kv cfg) 1))
                   (map (map (view_groups (q_per_kv cfg + 2) (head_size cfg)))
                      (map (map (Linear_forward (csa_attn a)))
                         (map_rows (act (encoder_input a)) x))))
                cos sin)) with k.
  2:{ unfold k, k_heads, qkv_groups, apply_rotary_emb_func.
      cbn [map_rows Tensor_list Tensor_mat].
      rewrite !map_map. apply map_ext. intros xb.
      rewrite !map_map, map2_map_l, map_map2. apply map2_ext.
      intros xr cs _ _. now rewrite map_map. }
  replace (map (map (split_part (q_per_kv cfg + 1) 1))
             (map (map (view_groups (q_per_kv cfg + 2) (head_size cfg)))
                (map (map (Linear_forward (csa_attn a)))
                   (map_rows (act (encoder_input a)) x)))) with v.
  2:{ unfold v, v_heads, qkv_groups. cbn [map_rows Tensor_list Tensor_mat].
      rewrite !map_map. apply map_ext. intros xb. now rewrite !map_map. }
  match goal with
  | |- bind ?c _ = bind ?c _ => destruct c as [[[k0 v0] kvc]|e]
  end; [|reflexivity].
  cbn [bind].
  destruct (scaled_dot_product_attention cfg q k0 v0 mask) as [[y m]|e];
    [|reflexivity].
  cbn [bind].
  rewrite (ParamHeaveside_forward_init (encoder_output a)) by assumption.
  cbn [bind map_rows Tensor_list Tensor_mat].
  destruct a. cbn. do 4 f_equal.
  rewrite !map_map. apply map_ext. intros yb. now rewrite !map_map.
Qed.

(** [scaled_dot_product_attention] on queries given position by position
    and keys and values given slot by slot. *)
Lemma sdpa_as_attend (B L S : nat) (Qh : nat -> nat -> list vec)
  (Ks Vs : nat -> list (list vec)) mask (bfun : nat -> nat -> ext) mask' :
  (0 < B)%nat -> (0 < L)%nat -> (0 < S)%nat ->
  (forall b i, (b < B)%nat -> (i < L)%nat ->
     length (Qh b i) = n_head cfg
     /\ Forall (fun c => length c = head_size cfg) (Qh b i)) ->
  (forall b, (b < B)%nat ->
     length (Ks b) = S
     /\ forall j, (j < S)%nat ->
          length (nth j (Ks b) []) = n_query_groups cfg
          /\ Forall (fun c => length c = head_size cfg) (nth j (Ks b) [])) ->
  (forall b, (b < B)%nat ->
     length (Vs b) = S
     /\ forall j, (j < S)%nat ->
          length (nth j (Vs b) []) = n_query_groups cfg
          /\ Forall (fun c => length c = head_size cfg) (nth j (Vs b) [])) ->
  attention_bias L S mask = (tab L (fun i => tab S (bfun i)), mask') ->
  scaled_dot_product_attention cfg
    (tab B (fun b => tab L (fun i => Qh b i))) (tab B Ks) (tab B Vs) mask
  = Ok (tab B (fun b => tab L (fun i =>
          attend cfg (bfun i) (Qh b i) (Ks b) (Vs b))),
        mask').
Proof.
  intros HB HL HS HQ HK HV Hbias.
  destruct cfg_facts as (HG & Hhs & Hq & Hn & _).
  assert (HHp : (0 < n_head cfg)%nat) by (rewrite Hn; nia).
  set (Q := fun b i h => nth h (Qh b i) ([] : vec)).
  set (K := fun b j g => nth g (nth j (Ks b) []) ([] : vec)).
  set (V := fun b j g => nth g (nth j (Vs b) []) ([] : vec)).
  replace (tab B (fun b => tab L (fun i => Qh b i)))
    with (tab B (fun b => tab L (fun i => tab (n_head cfg) (Q b i)))).
  2:{ apply tab_ext. intros b Hb. apply tab_ext. intros i Hi. symmetry.
      apply tab_nth. now apply HQ. }
  replace (tab B Ks)
    with (tab B (fun b => tab S (fun j => tab (n_query_groups cfg) (K b j)))).
  2:{ apply tab_ext. intros b Hb. destruct (HK b Hb) as [Lk Hk].
      rewrite (tab_nth (Ks b) S []) at 1 by assumption.
      apply tab_ext. intros j Hj. symmetry. apply tab_nth. now apply Hk. }
  replace (tab B Vs)
    with (tab B (fun b => tab S (fun j => tab (n_query_groups cfg) (V b j)))).
  2:{ apply tab_ext. intros b Hb. destruct (HV b Hb) as [Lv Hv].
      rewrite (tab_nth (Vs b) S []) at 1 by assumption.
      apply tab_ext. intros j Hj. symmetry. apply tab_nth. now apply Hv. }
  rewrite (scaled_dot_product_attention_tab cfg B L S (n_head cfg)
             (n_query_groups cfg) (head_size cfg) (head_size cfg)
             (q_per_kv cfg) Q K V) with (bfun := bfun) (mask' := mask');
    auto.
  - do 2 f_equal. apply tab_ext. intros b Hb. apply tab_ext. intros i Hi.
    unfold attend. destruct (HK b Hb) as [Lk _]. rewrite Lk. reflexivity.
  - unfold Q. destruct (HQ 0%nat 0%nat HB HL) as [Lq Fq].
    apply Forall_nth_length; [assumption|lia].
  - intros b j g Hb Hj Hg. unfold K. destruct (HK b Hb) as [_ Hk].
    destruct (Hk j Hj) as [Lg Fg]. apply Forall_nth_length; [assumption|lia].
  - intros b j g Hb Hj Hg. unfold V. destruct (HV b Hb) as [_ Hv].
    destruct (Hv j Hj) as [Lg Fg]. apply Forall_nth_length; [assumption|lia].
Qed.

Lemma add3_tab B n (X Y : nat -> mat) :
  (forall b, (b < B)%nat -> length (X b) = n) ->
  (forall b, (b < B)%nat -> length (Y b) = n) ->
  add3 (tab B X) (tab B Y)
  = tab B (fun b => tab n (fun i =>
             map2 Rplus (nth i (X b) []) (nth i (Y b) []))).
Proof.
  intros HX HY. unfold add3. rewrite map2_tab. apply tab_ext. intros b Hb.
  apply map2_nth_tab; auto.
Qed.

(** The residual composition of [Block.forward] once the attention
    sublayer has returned [hs]. *)
Lemma Block_residual (blk : Block) B n (X Hs : nat -> mat)
  (kvc : option KVCache) (mk : option mask_tensor) :
  wf_block cfg blk = true ->
  (forall b, (b < B)%nat -> length (X b) = n) ->
  (forall b, (b < B)%nat -> length (Hs b) = n) ->
  (if parallel_residual cfg
   then
     '(m, mlp) <- GptNeoxMLP_forward (blk_mlp blk)
                    (if shared_attention_norm cfg then tab B X
                     else MyNorm_forward (tab B X)) ;;
     Ok (add3 (add3 (tab B X) (tab B Hs)) m, kvc, mk,
         {| blk_attn := blk_attn blk; blk_mlp := mlp |})
   else
     if shared_attention_norm cfg
     then Raise (NotImplementedError
            ("No checkpoint amongst the ones we support uses this configuration"
             ++ " (non-parallel residual and shared attention norm)."))
     else
       '(m, mlp) <- GptNeoxMLP_forward (blk_mlp blk)
                      (MyNorm_forward (add3 (tab B X) (tab B Hs))) ;;
       Ok (add3 (add3 (tab B X) (tab B Hs)) m, kvc, mk,
           {| blk_attn := blk_attn blk; blk_mlp := mlp |}))
  = Ok (tab B (fun b => tab n (fun i =>
          let x := nth i (X b) [] in
          let h := nth i (Hs b) [] in
          if parallel_residual cfg
          then map2 Rplus (map2 Rplus x h) (mlp_row (blk_mlp blk) x)
          else map2 Rplus (map2 Rplus x h)
                 (mlp_row (blk_mlp blk) (map2 Rplus x h)))),
        kvc, mk, blk).
Proof.
  intros Hblk HX HH.
  destruct cfg_facts as (_ & _ & _ & _ & _ & _ & Hres).
  apply wf_block_facts in Hblk as (_ & _ & _ & _ & _ & H1 & H2).
  unfold MyNorm_forward.
  assert (Hadd : add3 (tab B X) (tab B Hs)
                 = tab B (fun b => tab n (fun i =>
                     map2 Rplus (nth i (X b) []) (nth i (Hs b) []))))
    by now apply add3_tab.
  destruct (parallel_residual cfg) eqn:Hpar.
  - replace (if shared_attention_norm cfg then tab B X else tab B X)
      with (tab B X) by now destruct (shared_attention_norm cfg).
    rewrite GptNeoxMLP_forward_init by assumption. cbn [bind].
    destruct blk as [a m]. cbn [blk_attn blk_mlp]. do 4 f_equal.
    rewrite Hadd, map_tab.
    rewrite (add3_tab B n);
      try (intros b' Hb'; rewrite ?length_map, ?length_tab; auto; fail).
    apply tab_ext. intros b Hb. apply tab_ext. intros i Hi.
    rewrite nth_tab by assumption. cbv zeta. f_equal.
    apply nth_map_lt. rewrite HX; assumption.
  - destruct Hres as [Hres|Hres]; [discriminate|]. rewrite Hres.
    rewrite GptNeoxMLP_forward_init by assumption. cbn [bind].
    destruct blk as [a m]. cbn [blk_attn blk_mlp]. do 4 f_equal.
    rewrite Hadd, map_tab.
    rewrite (add3_tab B n);
      try (intros b' Hb'; rewrite ?length_map, ?length_tab; auto; fail).
    apply tab_ext. intros b Hb. apply tab_ext. intros i Hi.
    rewrite nth_tab by assumption. cbv zeta. f_equal.
    rewrite (nth_map_lt _ _ []) by (rewrite length_tab; assumption).
    now rewrite nth_tab.
Qed.

Lemma rope_rows_tab {A} (f : vec -> vec * vec -> A) (xs cos sin : mat) n :
  length xs = n -> length cos = n -> length sin = n ->
  map2 f xs (combine cos sin)
  = tab n (fun i => f (nth i xs []) (nth i cos [], nth i sin [])).
Proof.
  intros Hx Hc Hs.
  rewrite (map2_nth_tab f xs (combine cos sin) n [] ([], []))
    by (rewrite ?length_combine; lia).
  apply tab_ext. intros i _. now rewrite combine_nth by lia.
Qed.

Lemma heads_slot_shape (blk : Block) (F : nat -> list vec) n :
  (forall j, (j < n)%nat ->
     length (F j) = n_query_groups cfg
     /\ Forall (fun c => length c = head_size cfg) (F j)) ->
  length (tab n F) = n
  /\ forall j, (j < n)%nat ->
       length (nth j (tab n F) []) = n_query_groups cfg
       /\ Forall (fun c => length c = head_size cfg) (nth j (tab n F) []).
Proof.
  intros HF. split; [apply length_tab|].
  intros j Hj. rewrite nth_tab by assumption. now apply HF.
Qed.

(** A block on full sequences, without a cache. *)
Lemma Block_forward_full (blk : Block) (B n : nat) (X : nat -> mat)
  (cos sin : mat) (msl : nat) :
  wf_block cfg blk = true ->
  (0 < B)%nat -> (0 < n)%nat ->
  (forall b, (b < B)%nat -> length (X b) = n) ->
  length cos = n -> length sin = n ->
  Block_forward cfg blk (tab B X) (cos, sin) msl None None None
  = Ok (tab B (fun b => block_seq cfg blk cos sin (X b)), None, None, blk).
Proof.
  intros Hblk HB Hn HX Hcos Hsin.
  unfold Block_forward, MyNorm_forward.
  rewrite CausalSelfAttention_forward_init by assumption.
  cbv zeta. cbn [bind].
  set (a := blk_attn blk).
  set (cs := fun i => (nth i cos ([] : vec), nth i sin ([] : vec))).
  replace (map (fun xb => map2 (fun xr c => q_heads cfg a c xr) xb
                            (combine cos sin)) (tab B X))
    with (tab B (fun b => tab n (fun i =>
                   q_heads cfg a (cs i) (nth i (X b) [])))).
  2:{ rewrite map_tab. apply tab_ext. intros b Hb. symmetry.
      apply rope_rows_tab; auto. }
  replace (map (fun xb => map2 (fun xr c => k_heads cfg a c xr) xb
                            (combine cos sin)) (tab B X))
    with (tab B (fun b => tab n (fun j =>
                   k_heads cfg a (cs j) (nth j (X b) [])))).
  2:{ rewrite map_tab. apply tab_ext. intros b Hb. symmetry.
      apply rope_rows_tab; auto. }
  replace (map (map (v_heads cfg a)) (tab B X))
    with (tab B (fun b => tab n (fun j => v_heads cfg a (nth j (X b) [])))).
  2:{ rewrite map_tab. apply tab_ext. intros b Hb.
      transitivity (map (v_heads cfg a) (tab n (fun j => nth j (X b) [])));
        [now rewrite map_tab|].
      f_equal. symmetry. apply tab_nth. auto. }
  rewrite (sdpa_as_attend B n n) with (bfun := causal) (mask' := None);
    auto.
  - cbn [bind]. rewrite !map_tab.
    rewrite (Block_residual blk B n) by
      (auto; intros b Hb; now rewrite map_tab, length_tab).
    do 4 f_equal. apply tab_ext. intros b Hb.
    unfold block_seq. rewrite (HX b Hb). apply tab_ext. intros i Hi.
    cbv zeta. unfold block_row. fold a.
    rewrite map_tab, nth_tab by assumption. reflexivity.
  - intros b i Hb Hi. apply (heads_shape blk (cs i) (nth i (X b) []) Hblk).
  - intros b Hb. apply (heads_slot_shape blk). intros j Hj.
    apply (heads_shape blk (cs j) (nth j (X b) []) Hblk).
  - intros b Hb. apply (heads_slot_shape blk). intros j Hj.
    apply (heads_shape blk (cs j) (nth j (X b) []) Hblk).
  - apply attention_bias_None.
Qed.

Lemma attention_bias_Bool L S m :
  attention_bias L S (Some (BoolMask m))
  = (tab L (fun _ => tab S (fun _ => Fin 0)),
     Some (BoolMask (map (map (fun _ => true)) m))).
Proof.
  unfold attention_bias. simpl ext_to_bool.
  now rewrite masked_fill_not_self, zeros2_tab.
Qed.

(** The cache write of one decoding step, slot by slot. *)
Lemma decode_cache_write (B n i : nat) (cache : tensor4)
  (F : nat -> list vec) :
  (0 < B)%nat -> (i < n)%nat ->
  has_shape4 B n (n_query_groups cfg) (head_size cfg) cache = true ->
  (forall b, (b < B)%nat ->
     length (F b) = n_query_groups cfg
     /\ Forall (fun c => length c = head_size cfg) (F b)) ->
  index_copy_1 cache [i] (tab B (fun b => [F b]))
  = Ok (tab B (fun b => tab n (fun j =>
          if (j =? i)%nat then F b else slot cache b j))).
Proof.
  intros HB Hi Hc HF.
  destruct cfg_facts as (HG & _).
  assert (Hsrc : has_shape4 B 1 (n_query_groups cfg) (head_size cfg)
                   (tab B (fun b => tab 1 (fun _ => F b))) = true).
  { apply has_shape4_tab_intro. intros b j Hb _. now apply HF. }
  assert (Hne : [i] <> []) by discriminate.
  assert (Hrange : Forall (fun i0 => (i0 < n)%nat) [i])
    by (constructor; [exact Hi|constructor]).
  assert (Hnd : NoDup [i]) by (constructor; [intros []|constructor]).
  destruct (write_within_cache B n (n_query_groups cfg) (head_size cfg)
              cache (tab B (fun b => tab 1 (fun _ => F b))) [i]
              HB HG Hne Hc Hsrc Hrange Hnd)
    as (c' & Ec & Sc & Pc).
  - change (tab B (fun b => [F b]))
      with (tab B (fun b => tab 1 (fun _ => F b))).
    rewrite Ec. f_equal.
    apply (has_shape4_ext B n (n_query_groups cfg) (head_size cfg));
      [assumption| |].
    + apply has_shape4_tab_intro. intros b j Hb Hj.
      destruct (j =? i)%nat; [now apply HF|].
      now apply (has_shape4_slot B n).
    + intros b j Hb Hj. rewrite slot_tab by assumption.
      destruct (Pc b Hb) as [Pw Po].
      destruct (j =? i)%nat eqn:E.
      * apply Nat.eqb_eq in E. subst j.
        assert (P0 := Pw 0%nat). simpl in P0. rewrite P0 by lia.
        now rewrite slot_tab by lia.
      * apply Nat.eqb_neq in E. apply Po. intros [Hin|[]]. lia.
Qed.

(** A block on one new position [i], with a cache. *)
Lemma Block_forward_decode (blk : Block) (B n i : nat) (X : nat -> vec)
  (c s : vec) (Kc Vc : tensor4) (m : list (list bool)) :
  wf_block cfg blk = true ->
  (0 < B)%nat -> (i < n)%nat ->
  has_shape4 B n (n_query_groups cfg) (head_size cfg) Kc = true ->
  has_shape4 B n (n_query_groups cfg) (head_size cfg) Vc = true ->
  let a := blk_attn blk in
  let kslots b :=
    tab n (fun j => if (j =? i)%nat then k_heads cfg a (c, s) (X b)
                    else slot Kc b j) in
  let vslots b :=
    tab n (fun j => if (j =? i)%nat then v_heads cfg a (X b)
                    else slot Vc b j) in
  Block_forward cfg blk (tab B (fun b => [X b])) ([c], [s]) n
    (Some (BoolMask m)) (Some [i]) (Some (Kc, Vc))
  = Ok (tab B (fun b =>
          [block_row cfg blk (X b)
             (attend cfg (fun _ => Fin 0) (q_heads cfg a (c, s) (X b))
                (kslots b) (vslots b))]),
        Some (tab B kslots, tab B vslots),
        Some (BoolMask (map (map (fun _ => true)) m)), blk).
Proof.
  intros Hblk HB Hi HKc HVc a kslots vslots.
  destruct cfg_facts as (HG & Hhs & _).
  unfold Block_forward, MyNorm_forward.
  rewrite CausalSelfAttention_forward_init by assumption.
  cbv zeta. fold a.
  replace (map (fun xb => map2 (fun xr cs => q_heads cfg a cs xr) xb
                            (combine [c] [s])) (tab B (fun b => [X b])))
    with (tab B (fun b => tab 1 (fun _ => q_heads cfg a (c, s) (X b))))
    by (now rewrite map_tab).
  replace (map (fun xb => map2 (fun xr cs => k_heads cfg a cs xr) xb
                            (combine [c] [s])) (tab B (fun b => [X b])))
    with (tab B (fun b => [k_heads cfg a (c, s) (X b)]))
    by (now rewrite map_tab).
  replace (map (map (v_heads cfg a)) (tab B (fun b => [X b])))
    with (tab B (fun b => [v_heads cfg a (X b)]))
    by (now rewrite map_tab).
  unfold kv_cache_write. cbn [last_pos rev app bind].
  replace (n <=? i)%nat with false by (symmetry; apply Nat.leb_gt; lia).
  rewrite (decode_cache_write B n i Kc) by
    (auto; intros b Hb; apply (heads_shape blk (c, s) (X b) Hblk)).
  cbn [bind].
  rewrite (decode_cache_write B n i Vc) by
    (auto; intros b Hb; apply (heads_shape blk (c, s) (X b) Hblk)).
  cbn [bind]. fold kslots vslots.
  assert (Hslots : forall (F : nat -> list vec) cache b,
            has_shape4 B n (n_query_groups cfg) (head_size cfg) cache = true ->
            (length (F b) = n_query_groups cfg
             /\ Forall (fun c => length c = head_size cfg) (F b)) ->
            (b < B)%nat ->
            length (tab n (fun j => if (j =? i)%nat then F b
                                    else slot cache b j)) = n
            /\ forall j, (j < n)%nat ->
                 length (nth j (tab n (fun j => if (j =? i)%nat then F b
                                                else slot cache b j)) [])
                 = n_query_groups cfg
                 /\ Forall (fun c => length c = head_size cfg)
                      (nth j (tab n (fun j => if (j =? i)%nat then F b
                                              else slot cache b j)) [])).
  { intros F cache b Hc HF Hb. split; [apply length_tab|].
    intros j Hj. rewrite nth_tab by assumption.
    destruct (j =? i)%nat; [assumption|].
    now apply (has_shape4_slot B n). }
  rewrite (sdpa_as_attend B 1 n) with (bfun := fun _ _ => Fin 0)
    (mask' := Some (BoolMask (map (map (fun _ => true)) m)));
    try lia; auto.
  - cbn [bind]. rewrite !map_tab.
    change (tab B (fun b => [X b])) with (tab B (fun b => tab 1 (fun _ => X b))).
    rewrite (Block_residual blk B 1) by
      (auto; intros b Hb; now rewrite ?map_tab, length_tab).
    reflexivity.
  - intros b j Hb _. apply (heads_shape blk (c, s) (X b) Hblk).
  - intros b Hb.
    apply (Hslots (fun b => k_heads cfg a (c, s) (X b)) Kc b); auto.
    apply (heads_shape blk (c, s) (X b) Hblk).
  - intros b Hb.
    apply (Hslots (fun b => v_heads cfg a (X b)) Vc b); auto.
    apply (heads_shape blk (c, s) (X b) Hblk).
  - apply attention_bias_Bool.
Qed.

Lemma nth_zero_slot g d : nth d (nth g (zero_slot cfg) []) 0 = 0.
Proof.
  unfold zero_slot.
  destruct (lt_dec g (n_query_groups cfg)) as [Hg|Hg].
  - rewrite (nth_indep _ [] (repeat 0 (head_size cfg)))
      by now rewrite repeat_length.
    rewrite nth_repeat. apply nth_repeat.
  - rewrite (nth_overflow (repeat _ _) [])
      by (rewrite repeat_length; lia).
    now destruct d.
Qed.

(** Attention over a cache that holds the keys and values of positions
    [0 .. i] and zeros after them, with no bias, is causal attention of
    position [i] over the whole sequence. *)
Lemma attend_cache (n i : nat) (q : list vec) (Kf Vf : nat -> list vec)
  (ki vi : list vec) :
  (i < n)%nat -> ki = Kf i -> vi = Vf i ->
  attend cfg (fun _ => Fin 0) q
    (tab n (fun j => if (j =? i)%nat then ki
                     else if (j <? i)%nat then Kf j else zero_slot cfg))
    (tab n (fun j => if (j =? i)%nat then vi
                     else if (j <? i)%nat then Vf j else zero_slot cfg))
  = attend cfg (causal i) q (tab n Kf) (tab n Vf).
Proof.
  intros Hi -> ->. unfold attend. rewrite !length_tab.
  apply tab_ext. intros h _. apply tab_ext. intros d _.
  apply sum_tab_ext. intros j Hj. rewrite !nth_tab by assumption.
  unfold causal.
  destruct (j =? i)%nat eqn:E1.
  - apply Nat.eqb_eq in E1. subst j. now rewrite Nat.leb_refl.
  - apply Nat.eqb_neq in E1. destruct (j <? i)%nat eqn:E2.
    + apply Nat.ltb_lt in E2.
      replace (j <=? i)%nat with true by (symmetry; apply Nat.leb_le; lia).
      reflexivity.
    + apply Nat.ltb_ge in E2.
      replace (j <=? i)%nat with false by (symmetry; apply Nat.leb_gt; lia).
      rewrite nth_zero_slot. simpl. ring.
Qed.

Lemma zero_slot_shape :
  length (zero_slot cfg) = n_query_groups cfg
  /\ Forall (fun c : vec => length c = head_size cfg) (zero_slot cfg).
Proof.
  unfold zero_slot. split; [apply repeat_length|].
  apply Forall_forall. intros c Hc. apply repeat_spec in Hc. subst c.
  apply repeat_length.
Qed.

(** One decoding step through one block: from the cache of positions
    below [i] to the cache of positions below [i + 1], with position [i]
    of the block's output on the full sequence as the result. *)
Lemma decode_block_step (blk : Block) (B n i : nat) (Xf : nat -> mat)
  (cos sin : mat) (m : list (list bool)) :
  wf_block cfg blk = true ->
  (0 < B)%nat -> (i < n)%nat ->
  (forall b, (b < B)%nat -> length (Xf b) = n) ->
  Block_forward cfg blk (position i (tab B Xf))
    ([nth i cos []], [nth i sin []]) n (Some (BoolMask m)) (Some [i])
    (Some (cache_at cfg blk cos sin (tab B Xf) n i))
  = Ok (position i (map (block_seq cfg blk cos sin) (tab B Xf)),
        Some (cache_at cfg blk cos sin (tab B Xf) n (S i)),
        Some (BoolMask (map (map (fun _ => true)) m)), blk).
Proof.
  intros Hblk HB Hi HX.
  set (a := blk_attn blk).
  set (cs := fun j => (nth j cos ([] : vec), nth j sin ([] : vec))).
  set (Kf := fun b j => k_heads cfg a (cs j) (nth j (Xf b) [])).
  set (Vf := fun b j => v_heads cfg a (nth j (Xf b) [])).
  assert (HKf : forall b j, length (Kf b j) = n_query_groups cfg
            /\ Forall (fun c => length c = head_size cfg) (Kf b j)).
  { intros b j. apply (heads_shape blk (cs j) (nth j (Xf b) []) Hblk). }
  assert (HVf : forall b j, length (Vf b j) = n_query_groups cfg
            /\ Forall (fun c => length c = head_size cfg) (Vf b j)).
  { intros b j. apply (heads_shape blk (cs j) (nth j (Xf b) []) Hblk). }
  assert (Ecache : forall i',
            cache_at cfg blk cos sin (tab B Xf) n i'
            = (tab B (fun b => tab n (fun j =>
                 if (j <? i')%nat then Kf b j else zero_slot cfg)),
               tab B (fun b => tab n (fun j =>
                 if (j <? i')%nat then Vf b j else zero_slot cfg)))).
  { intros i'. unfold cache_at. now rewrite !map_tab. }
  assert (Hshape : forall (F : nat -> nat -> list vec),
            (forall b j, length (F b j) = n_query_groups cfg
               /\ Forall (fun c => length c = head_size cfg) (F b j)) ->
            has_shape4 B n (n_query_groups cfg) (head_size cfg)
              (tab B (fun b => tab n (fun j =>
                 if (j <? i)%nat then F b j else zero_slot cfg))) = true).
  { intros F HF. apply has_shape4_tab_intro. intros b j _ _.
    destruct (j <? i)%nat; [apply HF|apply zero_slot_shape]. }
  rewrite !Ecache. unfold position. rewrite !map_tab.
  rewrite (Block_forward_decode blk B n i) by auto.
  cbv zeta. fold a.
  match goal with
  | |- Ok (?y, Some (?k, ?v), _, _) = Ok (?y', Some (?k', ?v'), _, _) =>
      assert (E1 : y = y');
      [|assert (E2 : k = k');
        [|assert (E3 : v = v'); [|now rewrite E1, E2, E3]]]
  end.
  - apply tab_ext. intros b Hb. f_equal.
    unfold block_seq. rewrite (HX b Hb), nth_tab by assumption.
    fold a. f_equal.
    fold (cs i). fold (Kf b i). fold (Vf b i).
    rewrite <- (attend_cache n i _ (Kf b) (Vf b) (Kf b i) (Vf b i))
      by auto.
    f_equal; apply tab_ext; intros j Hj; now rewrite slot_tab.
  - apply tab_ext. intros b Hb. apply tab_ext. intros j Hj.
    rewrite slot_tab by assumption. fold (cs i). fold (Kf b i).
    destruct (j =? i)%nat eqn:E.
    + apply Nat.eqb_eq in E. subst j.
      now replace (i <? S i)%nat with true by (symmetry; apply Nat.ltb_lt; lia).
    + apply Nat.eqb_neq in E.
      destruct (j <? i)%nat eqn:E4.
      * apply Nat.ltb_lt in E4.
        now replace (j <? S i)%nat with true
          by (symmetry; apply Nat.ltb_lt; lia).
      * apply Nat.ltb_ge in E4.
        now replace (j <? S i)%nat with false
          by (symmetry; apply Nat.ltb_ge; lia).
  - apply tab_ext. intros b Hb. apply tab_ext. intros j Hj.
    rewrite slot_tab by assumption. fold (Vf b i).
    destruct (j =? i)%nat eqn:E.
    + apply Nat.eqb_eq in E. subst j.
      now replace (i <? S i)%nat with true by (symmetry; apply Nat.ltb_lt; lia).
    + apply Nat.eqb_neq in E.
      destruct (j <? i)%nat eqn:E4.
      * apply Nat.ltb_lt in E4.
        now replace (j <? S i)%nat with true
          by (symmetry; apply Nat.ltb_lt; lia).
      * apply Nat.ltb_ge in E4.
        now replace (j <? S i)%nat with false
          by (symmetry; apply Nat.ltb_ge; lia).
Qed.

Lemma length_block_seq (blk : Block) (cos sin xs : mat) :
  length (block_seq cfg blk cos sin xs) = length xs.
Proof. unfold block_seq. apply length_tab. Qed.

Lemma blocks_seq_cons blk blocks cos sin x :
  blocks_seq cfg (blk :: blocks) cos sin x
  = blocks_seq cfg blocks cos sin (map (block_seq cfg blk cos sin) x).
Proof. reflexivity. Qed.

(** The layers without a cache, on a whole sequence. *)
Lemma forward_blocks_full (blocks : list Block) :
  forall (B n : nat) (X : nat -> mat) (cos sin : mat) (msl : nat),
    forallb (wf_block cfg) blocks = true ->
    (0 < B)%nat -> (0 < n)%nat ->
    (forall b, (b < B)%nat -> length (X b) = n) ->
    length cos = n -> length sin = n ->
    forward_blocks cfg blocks (tab B X) (cos, sin) msl
    = Ok (blocks_seq cfg blocks cos sin (tab B X), blocks).
Proof.
  induction blocks as [|blk blocks IH]; intros B n X cos sin msl Hwf HB Hn HX Hc Hs.
  - reflexivity.
  - apply andb_prop in Hwf as [Hblk Hwf].
    cbn [forward_blocks].
    rewrite (Block_forward_full blk B n) by assumption.
    cbn [bind]. rewrite blocks_seq_cons, map_tab.
    rewrite (IH B n) by
      (try assumption; intros b Hb; rewrite length_block_seq; auto).
    reflexivity.
Qed.

(** One decoding step through the layers: every cache moves from the
    positions below [i] to the positions below [i + 1]. *)
Lemma forward_blocks_cached_decode (blocks : list Block) :
  forall (B n i : nat) (X : nat -> mat) (cos sin : mat)
         (m : list (list bool)),
    forallb (wf_block cfg) blocks = true ->
    (0 < B)%nat -> (i < n)%nat ->
    (forall b, (b < B)%nat -> length (X b) = n) ->
    forward_blocks_cached cfg blocks
      (layer_caches cfg blocks cos sin (tab B X) n i)
      (position i (tab B X)) ([nth i cos []], [nth i sin []]) n
      (Some (BoolMask m)) [i]
    = Ok (position i (blocks_seq cfg blocks cos sin (tab B X)), blocks,
          layer_caches cfg blocks cos sin (tab B X) n (S i)).
Proof.
  induction blocks as [|blk blocks IH]; intros B n i X cos sin m Hwf HB Hi HX.
  - reflexivity.
  - apply andb_prop in Hwf as [Hblk Hwf].
    cbn [forward_blocks_cached layer_caches].
    rewrite (decode_block_step blk B n i) by assumption.
    cbn [bind]. rewrite blocks_seq_cons, map_tab.
    rewrite (IH B n i (fun b => block_seq cfg blk cos sin (X b)))
      by (try assumption; intros b Hb; rewrite length_block_seq; auto).
    reflexivity.
Qed.

(** Before the first step the caches are the zeros of
    [build_kv_caches]. *)
Lemma layer_caches_0 (blocks : list Block) :
  forall (cos sin : mat) (x : tensor3) (n : nat),
    layer_caches cfg blocks cos sin x n 0
    = repeat (zeros4 (length x) n (n_query_groups cfg) (head_size cfg),
              zeros4 (length x) n (n_query_groups cfg) (head_size cfg))
        (length blocks).
Proof.
  assert (Z : forall (x : tensor3) n,
             map (fun _ : mat => tab n (fun _ => zero_slot cfg)) x
             = zeros4 (length x) n (n_query_groups cfg) (head_size cfg)).
  { intros x n. unfold zeros4, zero_slot.
    rewrite (tab_const n _ (repeat (repeat 0 (head_size cfg))
                              (n_query_groups cfg))) by reflexivity.
    induction x as [|a x IH]; [reflexivity|]. simpl. now rewrite IH. }
  induction blocks as [|blk blocks IH]; intros cos sin x n; [reflexivity|].
  cbn [layer_caches length repeat]. rewrite IH, length_map.
  f_equal. unfold cache_at. cbn [Nat.ltb Nat.leb]. now rewrite !Z.
Qed.

Lemma index_select_1 {A} (t : list A) (i : nat) (d : A) :
  (i < length t)%nat -> index_select t [i] = Ok [nth i t d].
Proof.
  intros Hi. cbn [index_select].
  destruct (nth_error t i) as [a|] eqn:E.
  - now rewrite (nth_error_nth _ _ d E).
  - apply nth_error_None in E. lia.
Qed.

Lemma index_select_ok {A} (t : list A) (d : A) (index : list nat) :
  Forall (fun i => (i < length t)%nat) index ->
  index_select t index = Ok (map (fun i => nth i t d) index).
Proof.
  induction 1 as [|i index Hi _ IH]; [reflexivity|].
  cbn [index_select map].
  destruct (nth_error t i) as [a|] eqn:E.
  - rewrite IH. cbn [bind]. now rewrite (nth_error_nth _ _ d E).
  - apply nth_error_None in E. lia.
Qed.

Lemma embedding_ok (w : mat) (idx : list (list nat)) :
  Forall (Forall (fun t => (t < length w)%nat)) idx ->
  embedding w idx = Ok (map (map (fun t => nth t w [])) idx).
Proof.
  induction 1 as [|row idx Hrow _ IH]; [reflexivity|].
  cbn [embedding map]. rewrite (index_select_ok w []) by assumption.
  cbn [bind]. now rewrite IH.
Qed.

Lemma rope_cache_shape :
  let rc := QuantGPT_build_rope_cache cfg in
  length (fst rc) = block_size cfg /\ length (snd rc) = block_size cfg
  /\ forall i, (i < block_size cfg)%nat ->
       length (nth i (fst rc) []) = ((rotary_n_elem cfg + 1) / 2)%nat.
Proof.
  unfold QuantGPT_build_rope_cache, build_rope_cache. cbn [fst snd].
  rewrite !length_map, length_seq. repeat split.
  intros i Hi.
  rewrite (nth_map_lt _ _ []) by now rewrite !length_map, length_seq.
  rewrite length_map, (nth_map_lt _ _ 0) by now rewrite length_map, length_seq.
  unfold arange2. now rewrite !length_map, length_seq.
Qed.

Lemma mask_cache_length : length (build_mask_cache cfg) = block_size cfg.
Proof.
  unfold build_mask_cache, ones_tril. now rewrite length_map, length_seq.
Qed.

Lemma embed_rows (w : mat) (tokens : list (list nat)) (n : nat) :
  Forall (fun row => length row = n) tokens ->
  Forall (fun xs : mat => length xs = n) (embed w tokens).
Proof.
  unfold embed. intros H. apply Forall_map.
  eapply Forall_impl; [|exact H]. intros row Hrow. now rewrite length_map.
Qed.

Lemma blocks_seq_rows (blocks : list Block) (cos sin : mat) (n : nat) :
  forall x : tensor3,
    Forall (fun xs : mat => length xs = n) x ->
    Forall (fun xs : mat => length xs = n) (blocks_seq cfg blocks cos sin x).
Proof.
  induction blocks as [|blk blocks IH]; intros x Hx; [exact Hx|].
  rewrite blocks_seq_cons. apply IH, Forall_map.
  eapply Forall_impl; [|exact Hx].
  intros xs Hxs. now rewrite length_block_seq.
Qed.

Lemma length_blocks_seq (blocks : list Block) (cos sin : mat) :
  forall x : tensor3, length (blocks_seq cfg blocks cos sin x) = length x.
Proof.
  induction blocks as [|blk blocks IH]; intros x; [reflexivity|].
  now rewrite blocks_seq_cons, IH, length_map.
Qed.

(** A batch as the table of its elements. *)
Lemma batch_tab (x : tensor3) (n : nat) :
  Forall (fun xs : mat => length xs = n) x ->
  x = tab (length x) (fun b => nth b x [])
  /\ forall b, (b < length x)%nat -> length (nth b x []) = n.
Proof.
  intros Hx. split; [now apply tab_nth|].
  intros b Hb. rewrite Forall_forall in Hx. now apply Hx, nth_In.
Qed.

Lemma position_logits (f : vec -> vec) (g : vec -> vec) (i n : nat)
  (Y : tensor3) :
  Forall (fun xs : mat => length xs = n) Y -> (i < n)%nat ->
  map (map f) (map (map g) (position i Y))
  = position i (map (map (fun x => f (g x))) Y).
Proof.
  intros HY Hi. unfold position. rewrite !map_map.
  apply map_ext_in. intros xs Hxs. cbn [map]. f_equal.
  rewrite Forall_forall in HY.
  now rewrite (nth_map_lt _ _ []) by (rewrite (HY xs Hxs); exact Hi).
Qed.

Lemma embed_position (w : mat) (tokens : list (list nat)) (n i : nat) :
  Forall (fun row => length row = n) tokens -> (i < n)%nat ->
  embed w (map (fun row => [nth i row 0%nat]) tokens)
  = position i (embed w tokens).
Proof.
  intros Ht Hi. unfold embed, position. rewrite !map_map.
  apply map_ext_in. intros row Hrow. cbn [map]. f_equal.
  rewrite Forall_forall in Ht.
  now rewrite (nth_map_lt _ _ 0%nat) by (rewrite (Ht row Hrow); exact Hi).
Qed.

Lemma forward_blocks_batch (blocks : list Block) (x : tensor3) (n : nat)
  (cos sin : mat) (msl : nat) :
  forallb (wf_block cfg) blocks = true ->
  x <> [] -> (0 < n)%nat ->
  Forall (fun xs : mat => length xs = n) x ->
  length cos = n -> length sin = n ->
  forward_blocks cfg blocks x (cos, sin) msl
  = Ok (blocks_seq cfg blocks cos sin x, blocks).
Proof.
  intros Hwf Hx Hn Hrows Hc Hs.
  destruct (batch_tab x n Hrows) as [Ex HX].
  rewrite Ex. apply (forward_blocks_full blocks _ n); auto.
  destruct x; [congruence|simpl; lia].
Qed.

Lemma forward_blocks_cached_batch (blocks : list Block) (x : tensor3)
  (n i : nat) (cos sin : mat) (m : list (list bool)) :
  forallb (wf_block cfg) blocks = true ->
  x <> [] -> (i < n)%nat ->
  Forall (fun xs : mat => length xs = n) x ->
  forward_blocks_cached cfg blocks (layer_caches cfg blocks cos sin x n i)
    (position i x) ([nth i cos []], [nth i sin []]) n (Some (BoolMask m)) [i]
  = Ok (position i (blocks_seq cfg blocks cos sin x), blocks,
        layer_caches cfg blocks cos sin x n (S i)).
Proof.
  intros Hwf Hx Hi Hrows.
  destruct (batch_tab x n Hrows) as [Ex HX].
  rewrite Ex. apply forward_blocks_cached_decode; auto.
  destruct x; [congruence|simpl; lia].
Qed.

Lemma ncols_rows {A} (tokens : list (list A)) (n : nat) :
  tokens <> [] -> Forall (fun row => length row = n) tokens ->
  ncols tokens = n.
Proof.
  intros Hne Hrows. destruct tokens as [|row tokens]; [congruence|].
  now inversion Hrows.
Qed.

Lemma logits_rows (self : QuantGPT) (Y : tensor3) :
  map (map (Linear_forward (lm_head self)))
    (map (map (norm_class cfg (n_embd cfg) (norm_eps cfg))) Y)
  = map (map (logits_row cfg self)) Y.
Proof.
  rewrite map_map. apply map_ext. intros xs. now rewrite map_map.
Qed.

(** The full-sequence call. *)
Lemma QuantGPT_forward_full (self : QuantGPT) (tokens : list (list nat))
  (n : nat) :
  wf_model cfg self = true ->
  rope_cache self = None
  \/ rope_cache self = Some (QuantGPT_build_rope_cache cfg) ->
  tokens <> [] ->
  Forall (fun row => length row = n) tokens ->
  Forall (Forall (fun t => (t < length (wte self))%nat)) tokens ->
  (0 < n <= block_size cfg)%nat ->
  QuantGPT_forward cfg self tokens (Some n) None
  = Ok (map (map (logits_row cfg self)) (hidden cfg self tokens n),
        {| lm_head := lm_head self; wte := wte self; h := h self;
           rope_cache := Some (QuantGPT_build_rope_cache cfg);
           mask_cache := mask_cache self; kv_caches := kv_caches self |}).
Proof.
  intros Hwf Hrope Hne Hrows Hvoc Hn.
  apply andb_prop in Hwf as [_ Hwf].
  unfold QuantGPT_forward, hidden.
  rewrite (ncols_rows tokens n Hne Hrows). cbn [andb].
  replace (n <=? block_size cfg)%nat with true
    by (symmetry; apply Nat.leb_le; lia).
  cbn [negb].
  replace (match rope_cache self with
           | None => QuantGPT_build_rope_cache cfg
           | Some rc => rc
           end) with (QuantGPT_build_rope_cache cfg)
    by (destruct Hrope as [-> | ->]; reflexivity).
  destruct rope_cache_shape as (Hc & Hs & _).
  destruct (QuantGPT_build_rope_cache cfg) as [cos sin]. cbn [fst snd] in *.
  rewrite embedding_ok by assumption. cbn [bind]. fold (embed (wte self) tokens).
  rewrite (forward_blocks_batch (h self) _ n);
    try assumption; try (rewrite length_firstn; lia).
  - cbn [bind]. now rewrite logits_rows.
  - unfold embed. destruct tokens; [congruence|discriminate].
  - lia.
  - now apply embed_rows.
Qed.

Lemma build_kv_caches_layer_caches (blocks : list Block) (cos sin : mat)
  (x x1 : tensor3) (n : nat) (r : vec) :
  length blocks = n_layer cfg -> length x1 = length x ->
  length r = ((rotary_n_elem cfg + 1) / 2)%nat ->
  build_kv_caches cfg x1 n (ncols [r] * 2)
  = layer_caches cfg blocks cos sin x n 0.
Proof.
  intros Hl Hx Hr. destruct cfg_facts as (_ & _ & _ & _ & Heven & _).
  rewrite layer_caches_0. unfold build_kv_caches, ncols. cbn [hd].
  rewrite Hl, Hx, Hr.
  replace ((rotary_n_elem cfg + 1) / 2 * 2 + head_size cfg
           - rotary_n_elem cfg)%nat with (head_size cfg) by lia.
  now destruct (Nat.eqb_spec (n_query_groups cfg) 1) as [->|_].
Qed.

Lemma position_tokens_ok (w : mat) (tokens : list (list nat)) (n i : nat) :
  Forall (fun row => length row = n) tokens -> (i < n)%nat ->
  Forall (Forall (fun t => (t < length w)%nat)) tokens ->
  Forall (Forall (fun t => (t < length w)%nat))
    (map (fun row => [nth i row 0%nat]) tokens).
Proof.
  intros Hrows Hi Hvoc. apply Forall_map.
  rewrite Forall_forall in *. intros row Hrow.
  constructor; [|constructor].
  specialize (Hvoc row Hrow). rewrite Forall_forall in Hvoc.
  apply Hvoc, nth_In. now rewrite (Hrows row Hrow).
Qed.

Lemma nth_firstn_lt {A} (l : list A) (d : A) (n i : nat) :
  (i < n)%nat -> nth i (firstn n l) d = nth i l d.
Proof.
  revert l i. induction n as [|n IH]; intros l i Hi; [lia|].
  destruct l as [|a l]; [reflexivity|].
  destruct i as [|i]; [reflexivity|]. cbn [firstn nth]. apply IH. lia.
Qed.

(** One cached call at position [i]: on an instance whose caches hold
    positions [0 .. i - 1] (or are cleared, before the first call) it
    returns position [i] of the full-sequence logits and leaves the caches
    holding positions [0 .. i]. *)
Lemma QuantGPT_forward_decode (self : QuantGPT) (tokens : list (list nat))
  (n i : nat) :
  wf_model cfg self = true ->
  rope_cache self = None
  \/ rope_cache self = Some (QuantGPT_build_rope_cache cfg) ->
  mask_cache self = None
  \/ mask_cache self = Some (build_mask_cache cfg) ->
  tokens <> [] ->
  Forall (fun row => length row = n) tokens ->
  Forall (Forall (fun t => (t < length (wte self))%nat)) tokens ->
  (i < n <= block_size cfg)%nat ->
  (kv_caches self = [] /\ i = 0%nat)
  \/ kv_caches self = kv_caches (decoded cfg self tokens n i) ->
  QuantGPT_forward cfg self (map (fun row => [nth i row 0%nat]) tokens)
    (Some n) (Some [i])
  = Ok (position i (map (map (logits_row cfg self)) (hidden cfg self tokens n)),
        decoded cfg self tokens n (S i)).
Proof.
  intros Hwf Hrope Hmask Hne Hrows Hvoc Hn Hkv.
  apply andb_prop in Hwf as [Hlen Hwf]. apply Nat.eqb_eq in Hlen.
  unfold QuantGPT_forward, hidden, decoded in *.
  rewrite (ncols_rows _ 1%nat)
    by (try (destruct tokens; [congruence|discriminate]);
        apply Forall_map, Forall_forall; reflexivity).
  replace (1 <=? n)%nat with true by (symmetry; apply Nat.leb_le; lia).
  replace (n <=? block_size cfg)%nat with true
    by (symmetry; apply Nat.leb_le; lia).
  replace (1 <=? block_size cfg)%nat with true
    by (symmetry; apply Nat.leb_le; lia).
  cbn [negb andb].
  replace (match rope_cache self with
           | None => QuantGPT_build_rope_cache cfg
           | Some rc => rc
           end) with (QuantGPT_build_rope_cache cfg)
    by (destruct Hrope as [-> | ->]; reflexivity).
  replace (match mask_cache self with
           | None => build_mask_cache cfg
           | Some mc => mc
           end) with (build_mask_cache cfg)
    by (destruct Hmask as [-> | ->]; reflexivity).
  destruct rope_cache_shape as (Hc & Hs & Hrow).
  destruct (QuantGPT_build_rope_cache cfg) as [cos sin]. cbn [fst snd] in *.
  rewrite (index_select_1 cos i []), (index_select_1 sin i []) by lia.
  cbn [bind].
  rewrite (index_select_1 _ i []) by (rewrite mask_cache_length; lia).
  cbn [bind].
  rewrite embedding_ok by now apply (position_tokens_ok _ _ n).
  cbn [bind]. fold (embed (wte self) (map (fun row => [nth i row 0%nat]) tokens)).
  rewrite (embed_position _ _ n) by (assumption || lia).
  set (x := embed (wte self) tokens) in *.
  assert (Hx : Forall (fun xs : mat => length xs = n) x)
    by now apply embed_rows.
  assert (Hxne : x <> [])
    by (unfold x, embed; destruct tokens; [congruence|discriminate]).
  set (caches := match kv_caches self with [] => _ | _ :: _ => _ end).
  assert (Ecaches : caches
            = layer_caches cfg (h self) (firstn n cos) (firstn n sin) x n i).
  { subst caches. destruct Hkv as [[-> ->] | ->].
    - apply build_kv_caches_layer_caches; auto.
      + unfold position. now rewrite length_map.
      + apply Hrow. lia.
    - destruct (h self) as [|blk blocks]; [|reflexivity].
      cbn [layer_caches]. unfold build_kv_caches.
      cbn [length] in Hlen. now rewrite <- Hlen. }
  rewrite Ecaches.
  rewrite <- (nth_firstn_lt cos [] n i), <- (nth_firstn_lt sin [] n i) by lia.
  rewrite (forward_blocks_cached_batch (h self) x n i)
    by (assumption || lia).
  cbn [bind].
  rewrite (position_logits _ _ i n)
    by (try lia; now apply blocks_seq_rows).
  reflexivity.
Qed.

(** Decoding position by position: call [i] returns position [i] of the
    full-sequence logits and leaves the caches holding positions
    [0 .. i]. *)
Lemma decode_decoded (self : QuantGPT) (tokens : list (list nat)) (n : nat) :
  wf_model cfg self = true ->
  caches_reset cfg self ->
  tokens <> [] ->
  Forall (fun row => length row = n) tokens ->
  Forall (Forall (fun t => (t < length (wte self))%nat)) tokens ->
  (n <= block_size cfg)%nat ->
  forall i, (i < n)%nat ->
    decode cfg self tokens n i
    = Ok (position i
            (map (map (logits_row cfg self)) (hidden cfg self tokens n)),
          decoded cfg self tokens n (S i)).
Proof.
  intros Hwf (Hrope & Hmask & Hkv) Hne Hrows Hvoc Hn.
  induction i as [|i IH]; intros Hi; cbn [decode].
  - apply QuantGPT_forward_decode; auto.
  - rewrite IH by lia. cbn [bind].
    apply (QuantGPT_forward_decode (decoded cfg self tokens n (S i))
             tokens n (S i)); auto.
Qed.

(** C3.  On a well-formed instance (shapes as constructed, every
    [AlphaInit] initialized, a residual policy that [Block.forward]
    supports) with freshly reset caches, for tokens of the vocabulary in
    sequences of length [n <= block_size] and [max_seq_length = n]: the
    full-sequence call returns logits, each of the calls with
    [input_pos = [i]], made in order from position 0, returns logits, and
    those of call [i] are position [i] of the full-sequence logits. *)
Theorem incremental_decode_matches_full (self : QuantGPT)
  (tokens : list (list nat)) (n i : nat) :
  wf_model cfg self = true ->
  caches_reset cfg self ->
  tokens <> [] ->
  Forall (fun row => length row = n) tokens ->
  Forall (Forall (fun t => (t < length (wte self))%nat)) tokens ->
  (n <= block_size cfg)%nat ->
  (i < n)%nat ->
  exists full self_full out self_i,
    QuantGPT_forward cfg self tokens (Some n) None = Ok (full, self_full)
    /\ decode cfg self tokens n i = Ok (out, self_i)
    /\ out = position i full.
Proof.
  intros Hwf Hreset Hne Hrows Hvoc Hn Hi.
  eexists _, _, _, _. split; [|split].
  - apply QuantGPT_forward_full; eauto.
    + apply Hreset.
    + lia.
  - apply decode_decoded; eauto.
  - reflexivity.
Qed.

(* ----------------------------------------------------------------- *)
(** ** The full-sequence call: shape, causality, batch elements *)

Lemma sum_app (a b : vec) : sum (a ++ b) = sum a + sum b.
Proof. induction a as [|x a IH]; simpl; [ring|]. rewrite IH. ring. Qed.

Lemma sum_tab_plus n (f g : nat -> R) :
  sum (tab n f) + sum (tab n g) = sum (tab n (fun i => f i + g i)).
Proof.
  revert f g. induction n as [|n IH]; intros f g.
  - simpl. ring.
  - rewrite !tab_S. simpl. rewrite <- IH. ring.
Qed.

Lemma sum_tab_const (n : nat) (c : R) : sum (tab n (fun _ => c)) = INR n * c.
Proof.
  induction n as [|n IH]; [simpl; ring|].
  rewrite tab_S, S_INR. simpl. rewrite IH. ring.
Qed.

(** The full-sequence call with any [max_seq_length] the assertions
    accept. *)
Lemma QuantGPT_forward_full_any (self : QuantGPT) (tokens : list (list nat))
  (n : nat) (msl : option nat) :
  wf_model cfg self = true ->
  rope_cache self = None
  \/ rope_cache self = Some (QuantGPT_build_rope_cache cfg) ->
  tokens <> [] ->
  Forall (fun row => length row = n) tokens ->
  Forall (Forall (fun t => (t < length (wte self))%nat)) tokens ->
  (0 < n <= block_size cfg)%nat ->
  (forall m, msl = Some m -> (m <= block_size cfg)%nat) ->
  QuantGPT_forward cfg self tokens msl None
  = Ok (map (map (logits_row cfg self)) (hidden cfg self tokens n),
        {| lm_head := lm_head self; wte := wte self; h := h self;
           rope_cache := Some (QuantGPT_build_rope_cache cfg);
           mask_cache := mask_cache self; kv_caches := kv_caches self |}).
Proof.
  intros Hwf Hrope Hne Hrows Hvoc Hn Hmsl.
  apply andb_prop in Hwf as [_ Hwf].
  unfold QuantGPT_forward, hidden.
  rewrite (ncols_rows tokens n Hne Hrows). cbn [andb].
  replace (match msl with Some m => m | None => block_size cfg end
           <=? block_size cfg)%nat with true
    by (symmetry; apply Nat.leb_le; destruct msl as [m|];
        [now apply Hmsl|lia]).
  replace (n <=? block_size cfg)%nat with true
    by (symmetry; apply Nat.leb_le; lia).
  cbn [negb].
  replace (match rope_cache self with
           | None => QuantGPT_build_rope_cache cfg
           | Some rc => rc
           end) with (QuantGPT_build_rope_cache cfg)
    by (destruct Hrope as [-> | ->]; reflexivity).
  destruct rope_cache_shape as (Hc & Hs & _).
  destruct (QuantGPT_build_rope_cache cfg) as [cos sin]. cbn [fst snd] in *.
  rewrite embedding_ok by assumption. cbn [bind]. fold (embed (wte self) tokens).
  rewrite (forward_blocks_batch (h self) _ n);
    try assumption; try (rewrite length_firstn; lia).
  - cbn [bind]. now rewrite logits_rows.
  - unfold embed. destruct tokens; [congruence|discriminate].
  - lia.
  - now apply embed_rows.
Qed.






(** The layers act on every batch element by itself. *)
Lemma blocks_seq_batch (blocks : list Block) (cos sin : mat) :
  forall x : tensor3,
    blocks_seq cfg blocks cos sin x
    = map (fun xs => hd [] (blocks_seq cfg blocks cos sin [xs])) x.
Proof.
  induction blocks as [|blk blocks IH]; intros x.
  - unfold blocks_seq. cbn [fold_left hd]. now rewrite map_id.
  - rewrite blocks_seq_cons, IH, map_map. apply map_ext. intros xs.
    now rewrite blocks_seq_cons.
Qed.

Lemma hidden_shape (self : QuantGPT) (tokens : list (list nat)) (n : nat) :
  Forall (fun row => length row = n) tokens ->
  length (hidden cfg self tokens n) = length tokens
  /\ Forall (fun xs : mat => length xs = n) (hidden cfg self tokens n).
Proof.
  intros Hrows. unfold hidden. split.
  - rewrite length_blocks_seq. unfold embed. apply length_map.
  - apply blocks_seq_rows. now apply embed_rows.
Qed.

(** On an instance whose [AlphaInit]s are initialized, a full-sequence
    call returns logits of shape (B, T, V), [V] the number of rows of
    [lm_head.weight], and changes nothing in the instance but the rotary
    cache, which it fills. *)
Theorem forward_logits_shape (self : QuantGPT) (tokens : list (list nat))
  (n V : nat) (msl : option nat) :
  wf_model cfg self = true ->
  rope_cache self = None
  \/ rope_cache self = Some (QuantGPT_build_rope_cache cfg) ->
  wf_linear V (lm_head self) = true ->
  tokens <> [] ->
  Forall (fun row => length row = n) tokens ->
  Forall (Forall (fun t => (t < length (wte self))%nat)) tokens ->
  (0 < n <= block_size cfg)%nat ->
  (forall m, msl = Some m -> (m <= block_size cfg)%nat) ->
  exists logits self',
    QuantGPT_forward cfg self tokens msl None = Ok (logits, self')
    /\ has_shape3 (length tokens) n V logits = true
    /\ lm_head self' = lm_head self /\ wte self' = wte self
    /\ h self' = h self /\ mask_cache self' = mask_cache self
    /\ kv_caches self' = kv_caches self
    /\ rope_cache self' = Some (QuantGPT_build_rope_cache cfg).
Proof.
  intros Hwf Hrope Hlm Hne Hrows Hvoc Hn Hmsl.
  eexists _, _. split; [now apply (QuantGPT_forward_full_any self tokens n)|].
  split; [|repeat split].
  destruct (hidden_shape self tokens n Hrows) as [HB HT].
  apply (is_rect_intro _ _ _ []); [now rewrite length_map|].
  intros b Hb.
  rewrite (nth_map_lt _ _ []) by (rewrite HB; exact Hb).
  assert (Hlen : length (nth b (hidden cfg self tokens n) []) = n)
    by (rewrite Forall_forall in HT; apply HT, nth_In; rewrite HB; exact Hb).
  apply (is_rect_intro _ _ _ []); [now rewrite length_map|].
  intros t Ht. rewrite (nth_map_lt _ _ []) by (rewrite Hlen; exact Ht).
  apply Nat.eqb_eq. unfold logits_row. now apply length_F_linear.
Qed.


(** Batch elements do not mix: the logits of batch element [b] are the
    logits the model returns for row [b] alone. *)
Theorem forward_batch_independent (self : QuantGPT)
  (tokens : list (list nat)) (n b : nat) :
  wf_model cfg self = true ->
  rope_cache self = None
  \/ rope_cache self = Some (QuantGPT_build_rope_cache cfg) ->
  Forall (fun row => length row = n) tokens ->
  Forall (Forall (fun t => (t < length (wte self))%nat)) tokens ->
  (0 < n <= block_size cfg)%nat ->
  (b < length tokens)%nat ->
  exists full one s s',
    QuantGPT_forward cfg self tokens None None = Ok (full, s)
    /\ QuantGPT_forward cfg self [nth b tokens []] None None = Ok (one, s')
    /\ one = [nth b full []].
Proof.
  intros Hwf Hrope Hrows Hvoc Hn Hb.
  assert (Hne : tokens <> []) by (destruct tokens; [simpl in Hb; lia|discriminate]).
  assert (Hin : In (nth b tokens []) tokens) by now apply nth_In.
  eexists _, _, _, _. split; [|split].
  - apply (QuantGPT_forward_full_any self tokens n); auto; discriminate.
  - apply (QuantGPT_forward_full_any self [nth b tokens []] n); auto;
      try discriminate.
    + constructor; [|constructor]. rewrite Forall_forall in Hrows. auto.
    + constructor; [|constructor]. rewrite Forall_forall in Hvoc. auto.
  - unfold hidden.
    rewrite (blocks_seq_batch _ _ _ (embed (wte self) tokens)).
    rewrite (blocks_seq_batch _ _ _ (embed (wte self) [nth b tokens []])).
    unfold embed. rewrite !map_map. cbn [map]. f_equal.
    now rewrite (nth_map_lt _ _ ([] : list nat)) by exact Hb.
Qed.

(* ----------------------------------------------------------------- *)
(** ** The caches during and after decoding *)

Lemma cache_at_inv (blk : Block) (cos sin : mat) (x : tensor3) (n k B : nat) :
  wf_block cfg blk = true -> length x = B ->
  let c := cache_at cfg blk cos sin x n k in
  has_shape4 B n (n_query_groups cfg) (head_size cfg) (fst c) = true
  /\ has_shape4 B n (n_query_groups cfg) (head_size cfg) (snd c) = true
  /\ forall b j, (b < B)%nat -> (k <= j < n)%nat ->
       slot (fst c) b j = zero_slot cfg /\ slot (snd c) b j = zero_slot cfg.
Proof.
  intros Hblk HB. unfold cache_at. cbn [fst snd].
  rewrite (tab_nth x B [] HB), !map_tab.
  split; [|split].
  - apply has_shape4_tab_intro. intros b j _ _.
    destruct (j <? k)%nat; [|apply zero_slot_shape].
    apply (heads_shape blk (nth j cos [], nth j sin []) _ Hblk).
  - apply has_shape4_tab_intro. intros b j _ _.
    destruct (j <? k)%nat; [|apply zero_slot_shape].
    apply (heads_shape blk (nth j cos [], nth j sin []) _ Hblk).
  - intros b j Hb Hj. rewrite !slot_tab by lia.
    now replace (j <? k)%nat with false by (symmetry; apply Nat.ltb_ge; lia).
Qed.

Lemma layer_caches_inv (blocks : list Block) (cos sin : mat) (n k B : nat) :
  forallb (wf_block cfg) blocks = true ->
  forall x : tensor3,
    length x = B ->
    length (layer_caches cfg blocks cos sin x n k) = length blocks
    /\ Forall (fun c : KVCache =>
                 has_shape4 B n (n_query_groups cfg) (head_size cfg) (fst c)
                 = true
                 /\ has_shape4 B n (n_query_groups cfg) (head_size cfg) (snd c)
                    = true
                 /\ forall b j, (b < B)%nat -> (k <= j < n)%nat ->
                      slot (fst c) b j = zero_slot cfg
                      /\ slot (snd c) b j = zero_slot cfg)
         (layer_caches cfg blocks cos sin x n k).
Proof.
  induction blocks as [|blk blocks IH]; intros Hwf x HB.
  - split; [reflexivity|constructor].
  - apply andb_prop in Hwf as [Hblk Hwf]. cbn [layer_caches length].
    destruct (IH Hwf (map (block_seq cfg blk cos sin) x)) as [L F];
      [now rewrite length_map|].
    split; [now rewrite L|]. constructor; [|exact F].
    now apply cache_at_inv.
Qed.

(** During decoding the model holds one cache pair per layer, each of
    shape (B, max_seq_length, n_query_groups, head_size), and after the
    call at position [i] the slots of the later positions are still the
    zeros they were built with. *)
Theorem decode_cache_invariant (self : QuantGPT) (tokens : list (list nat))
  (n i : nat) :
  wf_model cfg self = true ->
  caches_reset cfg self ->
  tokens <> [] ->
  Forall (fun row => length row = n) tokens ->
  Forall (Forall (fun t => (t < length (wte self))%nat)) tokens ->
  (n <= block_size cfg)%nat ->
  (i < n)%nat ->
  exists out self',
    decode cfg self tokens n i = Ok (out, self')
    /\ length (kv_caches self') = n_layer cfg
    /\ Forall (fun c : KVCache =>
                 has_shape4 (length tokens) n (n_query_groups cfg)
                   (head_size cfg) (fst c) = true
                 /\ has_shape4 (length tokens) n (n_query_groups cfg)
                      (head_size cfg) (snd c) = true
                 /\ forall b j, (b < length tokens)%nat -> (i < j < n)%nat ->
                      slot (fst c) b j = zero_slot cfg
                      /\ slot (snd c) b j = zero_slot cfg)
         (kv_caches self').
Proof.
  intros Hwf Hreset Hne Hrows Hvoc Hn Hi.
  eexists _, _. split; [now apply decode_decoded|].
  apply andb_prop in Hwf as [Hlen Hwf]. apply Nat.eqb_eq in Hlen.
  unfold decoded. cbn [kv_caches].
  destruct (layer_caches_inv (h self)
              (firstn n (fst (QuantGPT_build_rope_cache cfg)))
              (firstn n (snd (QuantGPT_build_rope_cache cfg)))
              n (S i) (length tokens) Hwf (embed (wte self) tokens))
    as [L F].
  { unfold embed. apply length_map. }
  split; [now rewrite L|].
  eapply Forall_impl; [|exact F].
  intros c (S1 & S2 & Z). repeat split; try assumption; apply Z; lia.
Qed.


(* ----------------------------------------------------------------- *)
(** ** Block.forward without a cache *)

(** Without a cache, a block whose [AlphaInit]s are initialized maps every
    batch element by itself: position [i] of the output is the residual
    composition of the input row [i], of the causal ReLU attention of its
    rotated and spiked query over the keys and values of the whole
    sequence (projected by [proj] after a spiking activation), and of the
    spiking MLP.  No cache and no mask come back, and the block is
    unchanged. *)
Theorem Block_forward_without_cache (blk : Block) (x : tensor3)
  (cos sin : mat) (msl n : nat) :
  wf_block cfg blk = true ->
  x <> [] -> (0 < n)%nat ->
  Forall (fun xs : mat => length xs = n) x ->
  length cos = n -> length sin = n ->
  Block_forward cfg blk x (cos, sin) msl None None None
  = Ok (map (block_seq cfg blk cos sin) x, None, None, blk)
  /\ forall xs i, In xs x -> (i < n)%nat ->
       let a := blk_attn blk in
       let rope j := (nth j cos [], nth j sin []) in
       let heads :=
         attend cfg (causal i) (q_heads cfg a (rope i) (nth i xs []))
           (tab n (fun j => k_heads cfg a (rope j) (nth j xs [])))
           (tab n (fun j => v_heads cfg a (nth j xs []))) in
       let h := attn_post a heads in
       nth i (block_seq cfg blk cos sin xs) []
       = if parallel_residual cfg
         then map2 Rplus (map2 Rplus (nth i xs []) h)
                (mlp_row (blk_mlp blk) (nth i xs []))
         else map2 Rplus (map2 Rplus (nth i xs []) h)
                (mlp_row (blk_mlp blk) (map2 Rplus (nth i xs []) h)).
Proof.
  intros Hblk Hne Hn Hrows Hc Hs. split.
  - destruct (batch_tab x n Hrows) as [Ex HX].
    assert (HB : (0 < length x)%nat) by (destruct x; [congruence|simpl; lia]).
    rewrite Ex at 1. rewrite (Block_forward_full blk (length x) n) by auto.
    rewrite <- map_tab. now rewrite <- Ex.
  - intros xs i Hin Hi. cbv zeta. rewrite Forall_forall in Hrows.
    unfold block_seq. rewrite (Hrows xs Hin), nth_tab by assumption.
    reflexivity.
Qed.

End Decoding.

(* ----------------------------------------------------------------- *)
(** ** act_quantization *)

Lemma Rabs_le_bounds (a b : R) : Rabs a <= b -> - b <= a <= b.
Proof. unfold Rabs. destruct (Rcase_abs a); lra. Qed.

Lemma div_unit_interval (a n : R) : 0 <= a <= n -> 1 <= n -> 0 <= a / n <= 1.
Proof.
  intros Ha Hn. assert (Hi : 0 < / n) by (apply Rinv_0_lt_compat; lra).
  unfold Rdiv. split; [nra|].
  apply Rmult_le_reg_r with n; [lra|].
  rewrite Rmult_assoc, Rinv_l by lra. lra.
Qed.

Lemma round_half_even_spec (x : R) :
  exists k : Z, round_half_even x = IZR k /\ Rabs (IZR k - x) <= 1 / 2.
Proof.
  unfold round_half_even.
  destruct (base_fp x) as [F1 F2].
  assert (E : frac_part x = x - IZR (Int_part x)) by reflexivity.
  assert (P : IZR (Int_part x + 1) = IZR (Int_part x) + 1) by apply plus_IZR.
  destruct (Rlt_dec (frac_part x) (1 / 2)).
  - exists (Int_part x). split; [reflexivity|]. apply Rabs_le. lra.
  - destruct (Rlt_dec (1 / 2) (frac_part x)).
    + exists (Int_part x + 1)%Z. split; [reflexivity|]. apply Rabs_le. lra.
    + destruct (Z.even (Int_part x)).
      * exists (Int_part x). split; [reflexivity|]. apply Rabs_le. lra.
      * exists (Int_part x + 1)%Z. split; [reflexivity|]. apply Rabs_le. lra.
Qed.

Lemma round_half_even_IZR (k : Z) : round_half_even (IZR k) = IZR k.
Proof.
  assert (E : Int_part (IZR k) = k).
  { destruct (base_Int_part (IZR k)) as [H1 H2].
    apply le_IZR in H1.
    assert (H3 : IZR k < IZR (Int_part (IZR k) + 1))
      by (rewrite plus_IZR; lra).
    apply lt_IZR in H3. lia. }
  unfold round_half_even, frac_part. rewrite E.
  destruct (Rlt_dec (IZR k - IZR k) (1 / 2)); [reflexivity|lra].
Qed.

(** The number of steps [2 ** b - 1] is a positive integer. *)
Lemma quant_steps (b : nat) :
  (0 < b)%nat -> exists M : Z, 2 ^ b - 1 = IZR M /\ (1 <= M)%Z.
Proof.
  intros Hb. exists (2 ^ Z.of_nat b - 1)%Z.
  assert (E : 2 ^ b - 1 = IZR (2 ^ Z.of_nat b - 1)).
  { rewrite minus_IZR, <- pow_IZR. reflexivity. }
  split; [exact E|].
  apply le_IZR. rewrite <- E.
  destruct b as [|b]; [lia|]. simpl.
  assert (1 <= 2 ^ b) by (apply pow_R1_Rle; lra). lra.
Qed.

Lemma clamp01_range (c : R) : 0 <= clamp01 c <= 1.
Proof.
  unfold clamp01, Rmin, Rmax.
  destruct (Rle_dec c 0); destruct (Rle_dec _ 1); lra.
Qed.

Lemma clamp01_inside (c : R) : 0 <= c <= 1 -> clamp01 c = c.
Proof.
  intros Hc. unfold clamp01, Rmin, Rmax.
  destruct (Rle_dec c 0); destruct (Rle_dec _ 1); lra.
Qed.

Lemma clamp01_below (c : R) : c <= 0 -> clamp01 c = 0.
Proof.
  intros Hc. unfold clamp01, Rmin, Rmax.
  destruct (Rle_dec c 0); destruct (Rle_dec _ 1); lra.
Qed.

Lemma clamp01_above (c : R) : 1 <= c -> clamp01 c = 1.
Proof.
  intros Hc. unfold clamp01, Rmin, Rmax.
  destruct (Rle_dec c 0); destruct (Rle_dec _ 1); lra.
Qed.

(** One entry of the quantizer on [[0, 1]]: a multiple of the step, at
    most half a step away. *)
Lemma uniform_quant_entry (b : nat) (c : R) :
  (0 < b)%nat -> 0 <= c <= 1 ->
  exists k : Z,
    (0 <= k)%Z /\ IZR k <= 2 ^ b - 1
    /\ uniform_quant c b = IZR k / (2 ^ b - 1)
    /\ Rabs (uniform_quant c b - c) <= 1 / (2 * (2 ^ b - 1)).
Proof.
  intros Hb Hc. destruct (quant_steps b Hb) as (M & EM & HM).
  unfold uniform_quant. set (N := 2 ^ b - 1) in *.
  assert (HN : 1 <= N) by (rewrite EM; now apply IZR_le).
  destruct (round_half_even_spec (c * N)) as (k & Ek & Hk).
  rewrite Ek. apply Rabs_le_bounds in Hk.
  assert (H0 : (0 <= k)%Z).
  { assert (H : IZR (-1) < IZR k) by (simpl; nra).
    apply lt_IZR in H. lia. }
  assert (H1 : (k <= M)%Z).
  { assert (H : IZR k < IZR (M + 1)) by (rewrite plus_IZR, <- EM; nra).
    apply lt_IZR in H. lia. }
  exists k. repeat split; try assumption.
  - rewrite EM. now apply IZR_le.
  - replace (IZR k / N - c) with ((IZR k - c * N) / N) by (field; lra).
    unfold Rdiv at 1. rewrite Rabs_mult, (Rabs_right (/ N)).
    + replace (1 / (2 * N)) with (1 / 2 * / N) by (field; lra).
      apply Rmult_le_compat_r.
      * left. apply Rinv_0_lt_compat. lra.
      * apply Rabs_le. lra.
    + left. apply Rinv_0_lt_compat. lra.
Qed.

Lemma uniform_quant_level (b : nat) (k : Z) :
  (0 < b)%nat ->
  uniform_quant (IZR k / (2 ^ b - 1)) b = IZR k / (2 ^ b - 1).
Proof.
  intros Hb. destruct (quant_steps b Hb) as (M & EM & HM).
  unfold uniform_quant.
  assert (HN : 1 <= 2 ^ b - 1) by (rewrite EM; now apply IZR_le).
  replace (IZR k / (2 ^ b - 1) * (2 ^ b - 1)) with (IZR k) by (field; lra).
  now rewrite round_half_even_IZR.
Qed.

Lemma act_quantization_forward_entries (b : nat) (x : vec) (alpha : R) :
  fst (act_quantization_forward b x alpha)
  = map (fun xi => uniform_quant (clamp01 (xi / alpha)) b * alpha) x.
Proof. unfold act_quantization_forward. cbn [fst]. now rewrite !map_map. Qed.

Lemma Forall2_map_self {A B} (P : A -> B -> Prop) (f : A -> B) (l : list A) :
  (forall a, P a (f a)) -> Forall2 P l (map f l).
Proof. intros H. induction l; constructor; auto. Qed.

(** The output of the quantizer takes one of the [2 ** b] levels
    [k * alpha / (2 ** b - 1)], [0 <= k <= 2 ** b - 1], all in
    [[0, alpha]]. *)
Theorem act_quantization_levels (b : nat) (x : vec) (alpha : R) :
  (0 < b)%nat -> 0 < alpha ->
  Forall (fun y =>
            0 <= y <= alpha
            /\ exists k : Z,
                 (0 <= k)%Z /\ IZR k <= 2 ^ b - 1
                 /\ y = IZR k / (2 ^ b - 1) * alpha)
    (fst (act_quantization_forward b x alpha)).
Proof.
  intros Hb Ha. rewrite act_quantization_forward_entries.
  apply Forall_map, Forall_forall. intros xi _.
  destruct (quant_steps b Hb) as (M & EM & HM).
  assert (HN : 1 <= 2 ^ b - 1) by (rewrite EM; now apply IZR_le).
  destruct (uniform_quant_entry b (clamp01 (xi / alpha)) Hb
              (clamp01_range _)) as (k & H0 & H1 & E & _).
  rewrite E. apply IZR_le in H0.
  assert (Hq : 0 <= IZR k / (2 ^ b - 1) <= 1).
  { apply div_unit_interval; lra. }
  split; [nra|]. exists k. repeat split; auto. now apply le_IZR.
Qed.

(** Below zero the output is 0, from [alpha] on it is [alpha], and in
    between it is within half a step, [alpha / (2 * (2 ** b - 1))], of the
    input. *)
Theorem act_quantization_error (b : nat) (x : vec) (alpha : R) :
  (0 < b)%nat -> 0 < alpha ->
  Forall2 (fun xi y =>
             (xi <= 0 -> y = 0)
             /\ (alpha <= xi -> y = alpha)
             /\ (0 <= xi <= alpha ->
                 Rabs (y - xi) <= alpha / (2 * (2 ^ b - 1))))
    x (fst (act_quantization_forward b x alpha)).
Proof.
  intros Hb Ha. rewrite act_quantization_forward_entries.
  apply Forall2_map_self. intros xi.
  destruct (quant_steps b Hb) as (M & EM & HM).
  assert (HN : 1 <= 2 ^ b - 1) by (rewrite EM; now apply IZR_le).
  assert (Hi : 0 < / alpha) by now apply Rinv_0_lt_compat.
  repeat split.
  - intros Hx. rewrite clamp01_below by (unfold Rdiv; nra).
    replace 0 with (IZR 0 / (2 ^ b - 1)) at 1 by (simpl; field; lra).
    rewrite uniform_quant_level by assumption. simpl. field. lra.
  - intros Hx.
    rewrite clamp01_above
      by (apply Rmult_le_reg_r with alpha; [lra|];
          unfold Rdiv; rewrite Rmult_assoc, Rinv_l; lra).
    replace 1 with (IZR M / (2 ^ b - 1)) at 1 by (rewrite <- EM; field; lra).
    rewrite uniform_quant_level by assumption. rewrite <- EM. field. lra.
  - intros Hx.
    assert (Hc : 0 <= xi / alpha <= 1).
    { split.
      - unfold Rdiv. nra.
      - apply Rmult_le_reg_r with alpha; [lra|].
        unfold Rdiv. rewrite Rmult_assoc, Rinv_l; lra. }
    rewrite (clamp01_inside _ Hc).
    destruct (uniform_quant_entry b (xi / alpha) Hb Hc) as (k & _ & _ & _ & Hk).
    replace (uniform_quant (xi / alpha) b * alpha - xi)
      with ((uniform_quant (xi / alpha) b - xi / alpha) * alpha)
      by (field; lra).
    rewrite Rabs_mult, (Rabs_right alpha) by lra.
    replace (alpha / (2 * (2 ^ b - 1)))
      with (1 / (2 * (2 ^ b - 1)) * alpha) by (field; lra).
    apply Rmult_le_compat_r; lra.
Qed.

(** Quantizing a quantized tensor again changes nothing. *)
Theorem act_quantization_idempotent (b : nat) (x : vec) (alpha : R) :
  (0 < b)%nat -> 0 < alpha ->
  fst (act_quantization_forward b
         (fst (act_quantization_forward b x alpha)) alpha)
  = fst (act_quantization_forward b x alpha).
Proof.
  intros Hb Ha. rewrite !act_quantization_forward_entries, map_map.
  apply map_ext. intros xi.
  destruct (quant_steps b Hb) as (M & EM & HM).
  assert (HN : 1 <= 2 ^ b - 1) by (rewrite EM; now apply IZR_le).
  destruct (uniform_quant_entry b (clamp01 (xi / alpha)) Hb
              (clamp01_range _)) as (k & H0 & H1 & E & _).
  rewrite E. apply IZR_le in H0.
  replace (IZR k / (2 ^ b - 1) * alpha / alpha) with (IZR k / (2 ^ b - 1))
    by (field; lra).
  rewrite clamp01_inside.
  - now rewrite uniform_quant_level.
  - apply div_unit_interval; lra.
Qed.

Lemma div_gt_1 (a x : R) : 0 < a -> (1 < x / a <-> a < x).
Proof.
  intros Ha. assert (Hi : 0 < / a) by now apply Rinv_0_lt_compat.
  split; intros H.
  - apply Rmult_lt_compat_r with (r := a) in H; [|assumption].
    unfold Rdiv in H. rewrite Rmult_assoc, Rinv_l in H; lra.
  - apply Rmult_lt_reg_r with a; [assumption|].
    unfold Rdiv. rewrite Rmult_assoc, Rinv_l; lra.
Qed.

Lemma act_quantization_backward_tab (b n : nat) (X G : nat -> R) (alpha : R) :
  0 < alpha ->
  let '(out, ctx) := act_quantization_forward b (tab n X) alpha in
  let '(grad_input, grad_alpha) := act_quantization_backward ctx (tab n G) in
  (forall i, (i < n)%nat ->
     nth i grad_input 0 = if Rlt_dec alpha (X i) then 0 else G i)
  /\ grad_alpha
     = sum (tab n (fun i =>
              G i * (if Rlt_dec alpha (X i) then 1
                     else (nth i out 0 - X i) / alpha))).
Proof.
  intros Ha.
  unfold act_quantization_forward, act_quantization_backward.
  cbn [saved_x saved_x_q]. rewrite !map_tab, !map2_tab. split.
  - intros i Hi. rewrite nth_tab by assumption.
    destruct (Rlt_dec 1 (X i / alpha)) as [H|H];
      destruct (Rlt_dec alpha (X i)) as [H'|H'];
      rewrite (div_gt_1 alpha (X i) Ha) in H; try contradiction; ring.
  - apply sum_tab_ext. intros i Hi. rewrite nth_tab by assumption.
    destruct (Rlt_dec 1 (X i / alpha)) as [H|H];
      destruct (Rlt_dec alpha (X i)) as [H'|H'];
      rewrite (div_gt_1 alpha (X i) Ha) in H; try contradiction;
      [ring|field; lra].
Qed.

(** The backward pass of the quantizer lets the gradient through
    unchanged wherever the input is at most [alpha], negative inputs
    included, and stops it above [alpha]; the gradient of [alpha] adds, per
    entry, the incoming gradient itself where the input is above [alpha]
    and the incoming gradient times [(output - input) / alpha]
    elsewhere. *)
Theorem act_quantization_straight_through (b : nat) (x g : vec) (alpha : R) :
  0 < alpha -> length g = length x ->
  let '(out, ctx) := act_quantization_forward b x alpha in
  let '(grad_input, grad_alpha) := act_quantization_backward ctx g in
  (forall i, (i < length x)%nat ->
     nth i grad_input 0
     = if Rlt_dec alpha (nth i x 0) then 0 else nth i g 0)
  /\ grad_alpha
     = sum (tab (length x) (fun i =>
              nth i g 0 * (if Rlt_dec alpha (nth i x 0) then 1
                           else (nth i out 0 - nth i x 0) / alpha))).
Proof.
  intros Ha Hg.
  pose proof (act_quantization_backward_tab b (length x)
                (fun i => nth i x 0) (fun i => nth i g 0) alpha Ha) as H.
  rewrite <- (tab_nth x (length x) 0 eq_refl) in H.
  rewrite <- (tab_nth g (length x) 0 Hg) in H.
  exact H.
Qed.

(* ----------------------------------------------------------------- *)
(** ** apply_rope *)

Lemma firstn_app_exact {A} (l1 l2 : list A) n :
  length l1 = n -> firstn n (l1 ++ l2) = l1.
Proof. intros <-. induction l1; simpl; congruence. Qed.

Lemma skipn_app_exact {A} (l1 l2 : list A) n :
  length l1 = n -> skipn n (l1 ++ l2) = l2.
Proof. intros <-. induction l1; simpl; congruence. Qed.

Lemma map2_app {A B C} (f : A -> B -> C) a a' b b' :
  length a = length b ->
  map2 f (a ++ a') (b ++ b') = map2 f a b ++ map2 f a' b'.
Proof.
  revert b. induction a as [|x a IH]; intros [|y b] H; simpl in H;
    try discriminate; [reflexivity|].
  simpl. rewrite !map2_cons. f_equal. apply IH. congruence.
Qed.

(** [apply_rope] on a head of even width, by halves. *)
Lemma apply_rope_tab (m : nat) (X1 X2 C S : nat -> R) :
  apply_rope (tab m X1 ++ tab m X2) (tab m C ++ tab m C) (tab m S ++ tab m S)
  = tab m (fun i => X1 i * C i + - X2 i * S i)
    ++ tab m (fun i => X2 i * C i + X1 i * S i).
Proof.
  unfold apply_rope. rewrite length_app, !length_tab.
  replace ((m + m) / 2)%nat with m
    by (replace (m + m)%nat with (m * 2)%nat by lia;
        now rewrite Nat.div_mul).
  rewrite firstn_app_exact, skipn_app_exact by apply length_tab.
  rewrite map_tab.
  rewrite !(map2_app Rmult) by now rewrite !length_tab.
  rewrite !map2_tab.
  rewrite map2_app by now rewrite !length_tab.
  now rewrite !map2_tab.
Qed.

Lemma rope_tables_tab (m : nat) (T : nat -> R) :
  rope_cos (tab m T) = tab m (fun i => cos (T i)) ++ tab m (fun i => cos (T i))
  /\ rope_sin (tab m T)
     = tab m (fun i => sin (T i)) ++ tab m (fun i => sin (T i)).
Proof. unfold rope_cos, rope_sin. now rewrite !map_tab. Qed.

Lemma dot_app (a a' b b' : vec) :
  length a = length b -> dot (a ++ a') (b ++ b') = dot a b + dot a' b'.
Proof. intros H. unfold dot. now rewrite map2_app, sum_app. Qed.

Lemma rope_dot_tab (m : nat) (X1 X2 Y1 Y2 T U : nat -> R) :
  dot (apply_rope (tab m X1 ++ tab m X2) (rope_cos (tab m T))
         (rope_sin (tab m T)))
      (apply_rope (tab m Y1 ++ tab m Y2) (rope_cos (tab m U))
         (rope_sin (tab m U)))
  = dot (apply_rope (tab m X1 ++ tab m X2)
           (rope_cos (tab m (fun i => T i - U i)))
           (rope_sin (tab m (fun i => T i - U i))))
        (tab m Y1 ++ tab m Y2).
Proof.
  destruct (rope_tables_tab m T) as [-> ->].
  destruct (rope_tables_tab m U) as [-> ->].
  destruct (rope_tables_tab m (fun i => T i - U i)) as [-> ->].
  rewrite !apply_rope_tab.
  rewrite !dot_app by now rewrite !length_tab.
  rewrite !dot_tab, !sum_tab_plus.
  apply sum_tab_ext. intros i _.
  rewrite cos_minus, sin_minus. ring.
Qed.

Lemma rope_compose_tab (m : nat) (X1 X2 T U : nat -> R) :
  apply_rope
    (apply_rope (tab m X1 ++ tab m X2) (rope_cos (tab m T)) (rope_sin (tab m T)))
    (rope_cos (tab m U)) (rope_sin (tab m U))
  = apply_rope (tab m X1 ++ tab m X2)
      (rope_cos (tab m (fun i => T i + U i)))
      (rope_sin (tab m (fun i => T i + U i))).
Proof.
  destruct (rope_tables_tab m T) as [-> ->].
  destruct (rope_tables_tab m U) as [-> ->].
  destruct (rope_tables_tab m (fun i => T i + U i)) as [-> ->].
  rewrite !apply_rope_tab.
  f_equal; apply tab_ext; intros i _; rewrite cos_plus, sin_plus; ring.
Qed.

Lemma rope_zero_tab (m : nat) (X1 X2 : nat -> R) :
  apply_rope (tab m X1 ++ tab m X2)
    (rope_cos (tab m (fun _ => 0))) (rope_sin (tab m (fun _ => 0)))
  = tab m X1 ++ tab m X2.
Proof.
  destruct (rope_tables_tab m (fun _ => 0)) as [-> ->].
  rewrite apply_rope_tab.
  f_equal; apply tab_ext; intros i _; rewrite cos_0, sin_0; ring.
Qed.

Lemma as_tab {A} (l : list A) (m : nat) (d : A) :
  length l = m -> exists F, l = tab m F.
Proof. intros H. exists (fun i => nth i l d). now apply tab_nth. Qed.

Lemma split_halves (x : vec) (m : nat) :
  length x = (2 * m)%nat -> exists X1 X2, x = tab m X1 ++ tab m X2.
Proof.
  intros H.
  destruct (as_tab (firstn m x) m 0) as [X1 E1];
    [rewrite length_firstn; lia|].
  destruct (as_tab (skipn m x) m 0) as [X2 E2];
    [rewrite length_skipn; lia|].
  exists X1, X2. now rewrite <- E1, <- E2, firstn_skipn.
Qed.

Lemma dot_self (v : vec) : dot v v = sum (map (fun x => x * x) v).
Proof.
  unfold dot. f_equal. induction v as [|a v IH]; [reflexivity|].
  rewrite map2_cons. simpl. now rewrite IH.
Qed.

(** Rotations compose by adding their angles, and the rotation by the
    angles 0 changes nothing: on a head vector [x] of even width, rotating
    by [theta] and then by [phi] is rotating by [theta + phi]; so the
    rotation by [- theta] undoes the rotation by [theta]. *)
Theorem apply_rope_composes (x theta phi : vec) :
  length x = (2 * length theta)%nat ->
  length phi = length theta ->
  apply_rope (apply_rope x (rope_cos theta) (rope_sin theta))
    (rope_cos phi) (rope_sin phi)
  = apply_rope x (rope_cos (map2 Rplus theta phi))
      (rope_sin (map2 Rplus theta phi))
  /\ apply_rope x (rope_cos (map (fun _ => 0) theta))
       (rope_sin (map (fun _ => 0) theta))
     = x
  /\ apply_rope (apply_rope x (rope_cos theta) (rope_sin theta))
       (rope_cos (map Ropp theta)) (rope_sin (map Ropp theta))
     = x.
Proof.
  intros Hx Hphi. set (m := length theta) in *.
  destruct (split_halves x m Hx) as (X1 & X2 & ->).
  destruct (as_tab theta m 0 eq_refl) as [T ET].
  destruct (as_tab phi m 0 Hphi) as [U ->].
  rewrite ET. rewrite map2_tab, !map_tab. repeat split.
  - apply rope_compose_tab.
  - apply rope_zero_tab.
  - rewrite rope_compose_tab. rewrite <- (rope_zero_tab m X1 X2) at 2.
    f_equal; f_equal; apply tab_ext; intros i _; ring.
Qed.

(** The inner product of a rotated query and a rotated key depends on
    their angles through the difference only: it is the inner product of
    the query rotated by [theta_m - theta_n] and the key as it is.  With
    equal angles the inner product, and with it the L2 norm, is that of
    the vectors before rotation. *)
Theorem apply_rope_relative_position (q k theta_m theta_n : vec) :
  length q = (2 * length theta_m)%nat ->
  length k = (2 * length theta_m)%nat ->
  length theta_n = length theta_m ->
  dot (apply_rope q (rope_cos theta_m) (rope_sin theta_m))
      (apply_rope k (rope_cos theta_n) (rope_sin theta_n))
  = dot (apply_rope q (rope_cos (map2 Rminus theta_m theta_n))
           (rope_sin (map2 Rminus theta_m theta_n))) k
  /\ dot (apply_rope q (rope_cos theta_m) (rope_sin theta_m))
         (apply_rope k (rope_cos theta_m) (rope_sin theta_m))
     = dot q k
  /\ norm2 (apply_rope q (rope_cos theta_m) (rope_sin theta_m)) = norm2 q.
Proof.
  intros Hq Hk Hn. set (m := length theta_m) in *.
  destruct (split_halves q m Hq) as (X1 & X2 & ->).
  destruct (split_halves k m Hk) as (Y1 & Y2 & ->).
  destruct (as_tab theta_m m 0 eq_refl) as [T ET].
  destruct (as_tab theta_n m 0 Hn) as [U ->].
  rewrite ET. rewrite map2_tab.
  assert (Same : forall Z1 Z2,
            dot (apply_rope (tab m X1 ++ tab m X2) (rope_cos (tab m T))
                   (rope_sin (tab m T)))
                (apply_rope (tab m Z1 ++ tab m Z2) (rope_cos (tab m T))
                   (rope_sin (tab m T)))
            = dot (tab m X1 ++ tab m X2) (tab m Z1 ++ tab m Z2)).
  { intros Z1 Z2. rewrite rope_dot_tab.
    rewrite <- (rope_zero_tab m X1 X2) at 2.
    do 2 f_equal; f_equal; apply tab_ext; intros i _; ring. }
  repeat split.
  - apply rope_dot_tab.
  - apply Same.
  - unfold norm2. now rewrite <- !dot_self, Same.
Qed.

(* ----------------------------------------------------------------- *)
(** ** NormedLinear: what the normalisation forgets *)

Lemma rect_tab (w : mat) (k : nat) :
  Forall (fun r => length r = k) w ->
  w = tab (length w) (fun i => tab k (fun j => entry w i j)).
Proof.
  intros Hw. apply (list_eq_nth _ _ []); [now rewrite length_tab|].
  intros i Hi. rewrite nth_tab by assumption.
  apply tab_nth. now apply Forall_nth_length.
Qed.

(** The weight of [NormedLinear.forward] before the scalar, entry by
    entry, for a weight given by its entries. *)
Lemma normalized_weight_tab (n k : nat) (W : nat -> nat -> R) :
  (0 < n)%nat ->
  let M j := sum (tab n (fun i => W i j)) / INR n in
  let N j := sqrt (sum (tab n (fun i => (W i j - M j) * (W i j - M j)))) in
  normalized_weight (tab n (fun i => tab k (W i)))
  = tab n (fun i => tab k (fun j => (W i j - M j) / Rmax (N j) normalize_eps)).
Proof.
  intros Hn M N.
  assert (Hcol : forall (V : nat -> nat -> R) j, (j < k)%nat ->
            col j (tab n (fun i => tab k (V i))) = tab n (fun i => V i j)).
  { intros V j Hj. unfold col. rewrite map_tab. apply tab_ext.
    intros i _. now rewrite nth_tab. }
  assert (Hncols : forall V : nat -> nat -> R,
            ncols (tab n (fun i => tab k (V i))) = k).
  { intros V. rewrite ncols_tab by assumption. apply length_tab. }
  assert (Hmean : mean_rows (tab n (fun i => tab k (W i))) = tab k M).
  { unfold mean_rows. rewrite Hncols, length_tab. apply tab_ext.
    intros j Hj. now rewrite Hcol. }
  unfold normalized_weight. rewrite Hmean.
  assert (Hsub : sub_rows (tab n (fun i => tab k (W i))) (tab k M)
                 = tab n (fun i => tab k (fun j => W i j - M j))).
  { unfold sub_rows. rewrite map_tab. apply tab_ext. intros i _.
    apply map2_tab. }
  rewrite Hsub. unfold F_normalize_dim0, norm2_rows.
  rewrite Hncols. fold (tab k (fun j =>
    sqrt (sum (map (fun x => x * x)
                 (col j (tab n (fun i => tab k (fun j0 => W i j0 - M j0)))))))).
  rewrite !map_tab. apply tab_ext. intros i _.
  rewrite map2_tab. apply tab_ext. intros j Hj.
  rewrite Hcol by assumption. now rewrite map_tab.
Qed.


(** Adding one constant per input column to every row of the weight
    changes neither the effective weight nor the output: the mean taken
    along the output axis removes it. *)
Theorem NormedLinear_shift_invariant (self self' : NormedLinear) (c : vec)
  (k : nat) :
  weight (nl_linear self) <> [] ->
  Forall (fun r => length r = k) (weight (nl_linear self)) ->
  length c = k ->
  weight (nl_linear self')
  = map (fun r => map2 Rplus r c) (weight (nl_linear self)) ->
  bias (nl_linear self') = bias (nl_linear self) ->
  nl_scale self' = nl_scale self ->
  NormedLinear_weight self' = NormedLinear_weight self
  /\ forall x, NormedLinear_forward self' x = NormedLinear_forward self x.
Proof.
  intros Hne Hrect Hc Hw Hb Hs.
  assert (E : normalized_weight (weight (nl_linear self'))
              = normalized_weight (weight (nl_linear self))).
  { rewrite Hw. set (w := weight (nl_linear self)) in *.
    assert (Hn : (0 < length w)%nat) by (destruct w; [congruence|simpl; lia]).
    rewrite (rect_tab w k Hrect).
    rewrite (tab_nth c k 0 Hc). rewrite map_tab.
    rewrite (tab_ext _ _ (fun i => tab k (fun j => entry w i j + nth j c 0)))
      by (intros i _; apply map2_tab).
    rewrite !normalized_weight_tab by assumption. cbv zeta.
    assert (HM : forall j,
              sum (tab (length w) (fun i => entry w i j + nth j c 0))
              / INR (length w)
              = sum (tab (length w) (fun i => entry w i j)) / INR (length w)
                + nth j c 0).
    { intros j. rewrite <- sum_tab_plus, sum_tab_const. field.
      apply not_0_INR. lia. }
    assert (HD : forall i j,
              entry w i j + nth j c 0
              - sum (tab (length w) (fun i => entry w i j + nth j c 0))
                / INR (length w)
              = entry w i j
                - sum (tab (length w) (fun i => entry w i j))
                  / INR (length w)).
    { intros i j. rewrite HM. ring. }
    apply tab_ext. intros i _. apply tab_ext. intros j _.
    rewrite HD. do 3 f_equal. apply sum_tab_ext. intros i' _.
    now rewrite HD. }
  assert (E' : NormedLinear_weight self' = NormedLinear_weight self)
    by (unfold NormedLinear_weight; now rewrite E, Hs).
  split; [exact E'|].
  intros x. unfold NormedLinear_forward. now rewrite E', Hb.
Qed.


(* ----------------------------------------------------------------- *)
(** ** Index errors of QuantGPT.forward *)

Lemma index_select_cases {A} (t : list A) (index : list nat) :
  (exists r, index_select t index = Ok r)
  \/ index_select t index = Raise (IndexError "index out of range in self").
Proof.
  induction index as [|i index IH]; [left; now exists []|].
  cbn [index_select]. destruct (nth_error t i) as [a|]; [|now right].
  destruct IH as [[r ->] | ->]; [left; now exists (a :: r)|now right].
Qed.

Lemma index_select_out_of_range {A} (t : list A) (index : list nat) :
  Exists (fun i => (length t <= i)%nat) index ->
  index_select t index = Raise (IndexError "index out of range in self").
Proof.
  induction 1 as [i index Hi | i index _ IH]; cbn [index_select].
  - apply nth_error_None in Hi. now rewrite Hi.
  - destruct (nth_error t i); [now rewrite IH|reflexivity].
Qed.

Lemma embedding_out_of_range (w : mat) (idx : list (list nat)) :
  Exists (Exists (fun t => (length w <= t)%nat)) idx ->
  embedding w idx = Raise (IndexError "index out of range in self").
Proof.
  induction 1 as [row idx Hrow | row idx _ IH]; cbn [embedding].
  - now rewrite index_select_out_of_range.
  - destruct (index_select_cases w row) as [[r ->] | ->]; [|reflexivity].
    cbn [bind]. now rewrite IH.
Qed.

(** A token outside the embedding table makes [QuantGPT.forward] raise an
    [IndexError], with or without a cache, once its assertions hold. *)
Theorem forward_token_out_of_range (cfg : Config) (self : QuantGPT)
  (idx : list (list nat)) (max_seq_length : option nat)
  (input_pos : option (list nat)) :
  let T := ncols idx in
  let m := match max_seq_length with None => block_size cfg | Some m => m end in
  (T <= block_size cfg)%nat -> (m <= block_size cfg)%nat ->
  (input_pos <> None -> (T <= m)%nat) ->
  Exists (Exists (fun t => (length (wte self) <= t)%nat)) idx ->
  QuantGPT_forward cfg self idx max_seq_length input_pos
  = Raise (IndexError "index out of range in self").
Proof.
  intros T m HT Hm Hpos Hidx. unfold QuantGPT_forward. fold T. fold m.
  replace (T <=? block_size cfg)%nat with true
    by (symmetry; now apply Nat.leb_le).
  replace (m <=? block_size cfg)%nat with true
    by (symmetry; now apply Nat.leb_le).
  assert (E : (match input_pos with Some _ => true | None => false end
               && negb (T <=? m)%nat) = false).
  { destruct input_pos; [|reflexivity].
    replace (T <=? m)%nat with true; [reflexivity|].
    symmetry. apply Nat.leb_le, Hpos. discriminate. }
  rewrite E. cbn [negb].
  destruct (match rope_cache self with
            | Some rc => rc
            | None => QuantGPT_build_rope_cache cfg
            end) as [cos sin].
  destruct input_pos as [pos|].
  - destruct (index_select_cases cos pos) as [[c ->] | ->]; [|reflexivity].
    cbn [bind].
    destruct (index_select_cases sin pos) as [[s ->] | ->]; [|reflexivity].
    cbn [bind].
    match goal with
    | |- bind (index_select ?mc pos) _ = _ =>
        destruct (index_select_cases mc pos) as [[mk ->] | ->];
        [|reflexivity]
    end.
    cbn [bind]. now rewrite embedding_out_of_range.
  - now rewrite embedding_out_of_range.
Qed.

(** A cached call at a position that is not below [block_size] raises an
    [IndexError] when it selects the rows of the rotary tables.  The
    eviction branch of the cache needs [input_pos[-1] >= max_seq_length]:
    with [max_seq_length = block_size] no call reaches it. *)
Theorem forward_position_out_of_range (cfg : Config) (self : QuantGPT)
  (idx : list (list nat)) (max_seq_length : option nat)
  (input_pos : list nat) :
  let T := ncols idx in
  let m := match max_seq_length with None => block_size cfg | Some m => m end in
  rope_cache self = None
  \/ rope_cache self = Some (QuantGPT_build_rope_cache cfg) ->
  (T <= m)%nat -> (m <= block_size cfg)%nat ->
  Exists (fun p => (block_size cfg <= p)%nat) input_pos ->
  QuantGPT_forward cfg self idx max_seq_length (Some input_pos)
  = Raise (IndexError "index out of range in self").
Proof.
  intros T m Hrope HT Hm Hpos. unfold QuantGPT_forward. fold T. fold m.
  replace (T <=? m)%nat with true by (symmetry; now apply Nat.leb_le).
  replace (m <=? block_size cfg)%nat with true
    by (symmetry; now apply Nat.leb_le).
  replace (T <=? block_size cfg)%nat with true
    by (symmetry; apply Nat.leb_le; lia).
  cbn [negb andb].
  replace (match rope_cache self with
           | Some rc => rc
           | None => QuantGPT_build_rope_cache cfg
           end) with (QuantGPT_build_rope_cache cfg)
    by (destruct Hrope as [-> | ->]; reflexivity).
  destruct (rope_cache_shape cfg) as (Hc & _).
  destruct (QuantGPT_build_rope_cache cfg) as [cos sin]. cbn [fst] in Hc.
  rewrite index_select_out_of_range; [reflexivity|].
  now rewrite Hc.
Qed.

(* ----------------------------------------------------------------- *)
(** ** What a forward pass leaves in the modules *)

Lemma ParamHeaveside_forward_again {T} `{Tensor T} (p p' : ParamHeaveside)
  (x y : T) :
  ParamHeaveside_forward p x = Ok (y, p') ->
  heaveside_kept p p' /\ ParamHeaveside_forward p' x = Ok (y, p').
Proof.
  destruct (ParamHeaveside_forward_ok p x) as (y0 & a & E & Hi & Hsame & Ey).
  rewrite E. intros [= <- <-]. split.
  - unfold heaveside_kept. cbn [zero_point embed_scale]. auto.
  - destruct (ParamHeaveside_forward_ok
                {| zero_point := zero_point p; embed_scale := a |} x)
      as (y1 & a1 & E1 & _ & Hs1 & Ey1).
    cbn [zero_point embed_scale] in *. rewrite E1.
    rewrite (Hs1 Hi) in *. now subst.
Qed.

Lemma CausalSelfAttention_forward_again (cfg : Config)
  (a a' : CausalSelfAttention) (x y : tensor3) (rope : mat * mat)
  (msl : nat) (mask mask' : option mask_tensor) (pos : option (list nat))
  (kv kv' : option KVCache) :
  CausalSelfAttention_forward cfg a x rope msl mask pos kv
  = Ok (y, kv', mask', a') ->
  attention_kept a a'
  /\ CausalSelfAttention_forward cfg a' x rope msl mask pos kv
     = Ok (y, kv', mask', a').
Proof.
  unfold CausalSelfAttention_forward. intros Hf.
  destruct (ParamHeaveside_forward (encoder_input a) x) as [[x1 e1]|] eqn:E1;
    [|discriminate].
  cbn [bind] in Hf.
  destruct (n_query_groups cfg =? 0)%nat eqn:EG; [discriminate|].
  cbn [bind] in Hf. destruct rope as [cos sin].
  match type of Hf with
  | bind (ParamHeaveside_forward _ ?q) _ = _ =>
      destruct (ParamHeaveside_forward (encoder_q a) q) as [[q1 e2]|] eqn:E2;
      [|discriminate]
  end.
  cbn [bind] in Hf.
  match type of Hf with
  | bind (ParamHeaveside_forward _ ?k) _ = _ =>
      destruct (ParamHeaveside_forward (encoder_k a) k) as [[k1 e3]|] eqn:E3;
      [|discriminate]
  end.
  cbn [bind] in Hf.
  match type of Hf with
  | bind ?c _ = _ => destruct c as [[[k2 v2] kv2]|] eqn:Ekv; [|discriminate]
  end.
  cbn [bind] in Hf.
  destruct (scaled_dot_product_attention cfg q1 k2 v2 mask)
    as [[y1 m1]|] eqn:Es; [|discriminate].
  cbn [bind] in Hf.
  match type of Hf with
  | bind (ParamHeaveside_forward _ ?o) _ = _ =>
      destruct (ParamHeaveside_forward (encoder_output a) o)
        as [[y2 e4]|] eqn:E4; [|discriminate]
  end.
  cbn [bind] in Hf. injection Hf as <- <- <- <-.
  apply ParamHeaveside_forward_again in E1 as [K1 A1].
  apply ParamHeaveside_forward_again in E2 as [K2 A2].
  apply ParamHeaveside_forward_again in E3 as [K3 A3].
  apply ParamHeaveside_forward_again in E4 as [K4 A4].
  split.
  - unfold attention_kept.
    cbn [csa_attn csa_proj encoder_input encoder_q encoder_k encoder_output].
    auto 10.
  - cbn [csa_attn csa_proj encoder_input encoder_q encoder_k encoder_output].
    rewrite A1. cbn [bind].
    rewrite A2. cbn [bind]. rewrite A3. cbn [bind].
    rewrite Ekv. cbn [bind]. rewrite Es. cbn [bind].
    rewrite A4. reflexivity.
Qed.

Lemma GptNeoxMLP_forward_again (m m' : GptNeoxMLP) (x y : tensor3) :
  GptNeoxMLP_forward m x = Ok (y, m') ->
  mlp_kept m m' /\ GptNeoxMLP_forward m' x = Ok (y, m').
Proof.
  unfold GptNeoxMLP_forward. intros Hf.
  destruct (ParamHeaveside_forward (mlp_act1 m) x) as [[x1 e1]|] eqn:E1;
    [|discriminate].
  cbn [bind] in Hf.
  match type of Hf with
  | bind (ParamHeaveside_forward _ ?z) _ = _ =>
      destruct (ParamHeaveside_forward (mlp_act2 m) z) as [[x2 e2]|] eqn:E2;
      [|discriminate]
  end.
  cbn [bind] in Hf. injection Hf as <- <-.
  apply ParamHeaveside_forward_again in E1 as [K1 A1].
  apply ParamHeaveside_forward_again in E2 as [K2 A2].
  split.
  - unfold mlp_kept. cbn [mlp_fc mlp_proj mlp_act1 mlp_act2]. auto.
  - cbn [mlp_fc mlp_proj mlp_act1 mlp_act2].
    rewrite A1. cbn [bind]. rewrite A2. reflexivity.
Qed.

Lemma Block_forward_again (cfg : Config) (b b' : Block) (x y : tensor3)
  (rope : mat * mat) (msl : nat) (mask mask' : option mask_tensor)
  (pos : option (list nat)) (kv kv' : option KVCache) :
  Block_forward cfg b x rope msl mask pos kv = Ok (y, kv', mask', b') ->
  block_kept b b'
  /\ Block_forward cfg b' x rope msl mask pos kv = Ok (y, kv', mask', b').
Proof.
  unfold Block_forward. intros Hf.
  destruct (CausalSelfAttention_forward cfg (blk_attn b) (MyNorm_forward x)
              rope msl mask pos kv) as [[[[h1 kv1] m1] a1]|] eqn:Ea;
    [|discriminate].
  cbn [bind] in Hf.
  apply CausalSelfAttention_forward_again in Ea as [Ka Aa].
  destruct (parallel_residual cfg).
  - match type of Hf with
    | bind (GptNeoxMLP_forward _ ?z) _ = _ =>
        destruct (GptNeoxMLP_forward (blk_mlp b) z) as [[z1 p1]|] eqn:Em;
        [|discriminate]
    end.
    cbn [bind] in Hf. injection Hf as <- <- <- <-.
    apply GptNeoxMLP_forward_again in Em as [Km Am].
    split; [split; assumption|].
    cbn [blk_attn blk_mlp]. rewrite Aa. cbn [bind]. rewrite Am. reflexivity.
  - destruct (shared_attention_norm cfg); [discriminate|].
    match type of Hf with
    | bind (GptNeoxMLP_forward _ ?z) _ = _ =>
        destruct (GptNeoxMLP_forward (blk_mlp b) z) as [[z1 p1]|] eqn:Em;
        [|discriminate]
    end.
    cbn [bind] in Hf. injection Hf as <- <- <- <-.
    apply GptNeoxMLP_forward_again in Em as [Km Am].
    split; [split; assumption|].
    cbn [blk_attn blk_mlp]. rewrite Aa. cbn [bind]. rewrite Am. reflexivity.
Qed.

Lemma forward_blocks_again (cfg : Config) (blocks : list Block) :
  forall (x y : tensor3) (rope : mat * mat) (msl : nat) (blocks' : list Block),
    forward_blocks cfg blocks x rope msl = Ok (y, blocks') ->
    Forall2 block_kept blocks blocks'
    /\ forward_blocks cfg blocks' x rope msl = Ok (y, blocks').
Proof.
  induction blocks as [|b blocks IH]; intros x y rope msl blocks' Hf;
    cbn [forward_blocks] in Hf.
  - injection Hf as <- <-. split; [constructor|reflexivity].
  - destruct (Block_forward cfg b x rope msl None None None)
      as [[[[x1 kv1] m1] b1]|] eqn:Eb; [|discriminate].
    cbn [bind] in Hf.
    destruct (forward_blocks cfg blocks x1 rope msl) as [[x2 bl]|] eqn:Er;
      [|discriminate].
    cbn [bind] in Hf. injection Hf as <- <-.
    apply Block_forward_again in Eb as [Kb Ab].
    apply IH in Er as [Kr Ar].
    split; [now constructor|].
    cbn [forward_blocks]. rewrite Ab. cbn [bind]. rewrite Ar. reflexivity.
Qed.

Lemma forward_blocks_cached_kept (cfg : Config) (blocks : list Block) :
  forall (caches : list KVCache) (x y : tensor3) (rope : mat * mat)
         (msl : nat) (mask : option mask_tensor) (pos : list nat)
         (blocks' : list Block) (caches' : list KVCache),
    forward_blocks_cached cfg blocks caches x rope msl mask pos
    = Ok (y, blocks', caches') ->
    Forall2 block_kept blocks blocks'.
Proof.
  induction blocks as [|b blocks IH];
    intros caches x y rope msl mask pos blocks' caches' Hf;
    cbn [forward_blocks_cached] in Hf.
  - injection Hf as <- <- <-. constructor.
  - destruct caches as [|c caches]; [discriminate|].
    destruct (Block_forward cfg b x rope msl mask (Some pos) (Some c))
      as [[[[x1 kv1] m1] b1]|] eqn:Eb; [|discriminate].
    cbn [bind] in Hf. destruct kv1 as [c1|]; [|discriminate].
    destruct (forward_blocks_cached cfg blocks caches x1 rope msl m1 pos)
      as [[[x2 bl] cs]|] eqn:Er; [|discriminate].
    cbn [bind] in Hf. injection Hf as <- <- <-.
    apply Block_forward_again in Eb as [Kb _].
    apply IH in Er. now constructor.
Qed.

(** A forward pass that returns, with or without a cache, leaves every
    weight and every threshold as it was: [lm_head], [wte], the linear
    layers and the [zero_point]s of every block.  Afterwards every
    [AlphaInit] of every block is initialized, and one that was
    initialized before the call is unchanged. *)
Theorem forward_keeps_weights (cfg : Config) (self self' : QuantGPT)
  (idx : list (list nat)) (max_seq_length : option nat)
  (input_pos : option (list nat)) (logits : tensor3) :
  QuantGPT_forward cfg self idx max_seq_length input_pos
  = Ok (logits, self') ->
  lm_head self' = lm_head self /\ wte self' = wte self
  /\ Forall2 block_kept (h self) (h self').
Proof.
  unfold QuantGPT_forward. intros Hf.
  match type of Hf with
  | (if ?c then _ else _) = _ => destruct c; [discriminate|]
  end.
  match type of Hf with
  | (if ?c then _ else _) = _ => destruct c; [discriminate|]
  end.
  match type of Hf with
  | (if ?c then _ else _) = _ => destruct c; [discriminate|]
  end.
  destruct (match rope_cache self with
            | Some rc => rc
            | None => QuantGPT_build_rope_cache cfg
            end) as [cos sin].
  destruct input_pos as [pos|].
  - destruct (index_select cos pos) as [c|]; [|discriminate].
    cbn [bind] in Hf.
    destruct (index_select sin pos) as [s|]; [|discriminate].
    cbn [bind] in Hf.
    match type of Hf with
    | bind (index_select ?mc pos) _ = _ =>
        destruct (index_select mc pos) as [mk|]; [|discriminate]
    end.
    cbn [bind] in Hf.
    destruct (embedding (wte self) idx) as [x0|]; [|discriminate].
    cbn [bind] in Hf.
    match type of Hf with
    | bind ?f _ = _ => destruct f as [[[x1 bl] cs]|] eqn:Eb; [|discriminate]
    end.
    cbn [bind] in Hf. injection Hf as <- <-.
    cbn [lm_head wte h]. repeat split.
    now apply forward_blocks_cached_kept in Eb.
  - destruct (embedding (wte self) idx) as [x0|]; [|discriminate].
    cbn [bind] in Hf.
    match type of Hf with
    | bind ?f _ = _ => destruct f as [[x1 bl]|] eqn:Eb; [|discriminate]
    end.
    cbn [bind] in Hf. injection Hf as <- <-.
    cbn [lm_head wte h]. repeat split.
    now apply forward_blocks_again in Eb as [Kb _].
Qed.

(** The data-dependent initialisation happens once: repeating a
    full-sequence call on the instance the call leaves returns the same
    logits and leaves the instance as it is. *)
Theorem forward_repeatable (cfg : Config) (self self' : QuantGPT)
  (idx : list (list nat)) (max_seq_length : option nat) (logits : tensor3) :
  QuantGPT_forward cfg self idx max_seq_length None = Ok (logits, self') ->
  QuantGPT_forward cfg self' idx max_seq_length None = Ok (logits, self').
Proof.
  unfold QuantGPT_forward. cbn [andb]. intros Hf.
  match type of Hf with
  | (if ?c then _ else _) = _ => destruct c eqn:C2; [discriminate|]
  end.
  match type of Hf with
  | (if ?c then _ else _) = _ => destruct c eqn:C3; [discriminate|]
  end.
  destruct (match rope_cache self with
            | Some rc => rc
            | None => QuantGPT_build_rope_cache cfg
            end) as [cos sin].
  destruct (embedding (wte self) idx) as [x0|] eqn:Ee; [|discriminate].
  cbn [bind] in Hf.
  match type of Hf with
  | bind ?f _ = _ => destruct f as [[x1 bl]|] eqn:Eb; [|discriminate]
  end.
  cbn [bind] in Hf. injection Hf as <- <-.
  apply forward_blocks_again in Eb as [_ Ab].
  cbn [lm_head wte h rope_cache mask_cache kv_caches].
  rewrite Ee. cbn [bind]. rewrite Ab. reflexivity.
Qed.

(* ----------------------------------------------------------------- *)
(** ** The cache as a sliding window *)

Lemma kv_cache_write_full (M B G D Dv p : nat) (ck cv k v : tensor4) :
  (0 < B)%nat -> (0 < G)%nat -> (0 < M)%nat -> (M <= p)%nat ->
  has_shape4 B M G D ck = true -> has_shape4 B M G Dv cv = true ->
  has_shape4 B 1 G D k = true -> has_shape4 B 1 G Dv v = true ->
  exists k' v',
    kv_cache_write M [p] (ck, cv) k v = Ok (k', v')
    /\ has_shape4 B M G D k' = true /\ has_shape4 B M G Dv v' = true
    /\ forall b, (b < B)%nat ->
         slot k' b (M - 1) = slot k b 0 /\ slot v' b (M - 1) = slot v b 0
         /\ forall j, (j < M - 1)%nat ->
              slot k' b j = slot ck b (S j) /\ slot v' b j = slot cv b (S j).
Proof.
  intros HB HG HM Hp Hck Hcv Hk Hv.
  destruct (write_full_cache B M G D ck k) as (k' & Ek & Sk & Pk); auto.
  destruct (write_full_cache B M G Dv cv v) as (v' & Ev & Sv & Pv); auto.
  exists k', v'. unfold kv_cache_write. cbn [last_pos rev app bind].
  replace (M <=? p)%nat with true by (symmetry; now apply Nat.leb_le).
  rewrite Ek. cbn [bind]. rewrite Ev. cbn [bind].
  repeat split; try assumption; try apply Pk; try apply Pv; assumption.
Qed.

(** A run of [t <= max_seq_length] overflowing writes of one position
    each turns the cache into a window: what was in slot [j + t] is in
    slot [j], and the last [t] slots hold the new entries in the order of
    the calls.  After [max_seq_length] such writes nothing of the old
    cache is left. *)
Theorem kv_cache_window (M B G D Dv : nat)
  (calls : list (list nat * tensor4 * tensor4)) :
  (0 < B)%nat -> (0 < G)%nat -> (0 < M)%nat ->
  Forall (fun c =>
            (exists p, fst (fst c) = [p] /\ (M <= p)%nat)
            /\ has_shape4 B 1 G D (snd (fst c)) = true
            /\ has_shape4 B 1 G Dv (snd c) = true) calls ->
  (length calls <= M)%nat ->
  forall ck cv : tensor4,
    has_shape4 B M G D ck = true -> has_shape4 B M G Dv cv = true ->
    exists k' v',
      kv_cache_writes M calls (ck, cv) = Ok (k', v')
      /\ has_shape4 B M G D k' = true /\ has_shape4 B M G Dv v' = true
      /\ forall b j, (b < B)%nat -> (j < M)%nat ->
           let t := length calls in
           ((j + t < M)%nat ->
            slot k' b j = slot ck b (j + t)
            /\ slot v' b j = slot cv b (j + t))
           /\ ((M <= j + t)%nat ->
               let c := nth (j + t - M) calls ([], [], []) in
               slot k' b j = slot (snd (fst c)) b 0
               /\ slot v' b j = slot (snd c) b 0).
Proof.
  intros HB HG HM Hcalls. induction Hcalls as [|c calls Hc _ IH];
    intros Hlen ck cv Hck Hcv.
  - exists ck, cv. cbn [kv_cache_writes length]. repeat split; try assumption.
    + now rewrite Nat.add_0_r.
    + now rewrite Nat.add_0_r.
    + lia.
    + lia.
  - destruct c as [[pos k] v]. cbn [fst snd] in Hc.
    destruct Hc as ((p & -> & Hp) & Hk & Hv).
    cbn [length] in Hlen.
    destruct (kv_cache_write_full M B G D Dv p ck cv k v)
      as (k1 & v1 & E1 & Sk1 & Sv1 & P1); auto.
    destruct (IH ltac:(lia) k1 v1 Sk1 Sv1) as (k' & v' & E & Sk & Sv & P).
    exists k', v'. cbn [kv_cache_writes]. rewrite E1. cbn [bind].
    split; [exact E|]. split; [exact Sk|]. split; [exact Sv|].
    intros b j Hb Hj. cbn [length]. cbv zeta.
    destruct (P b j Hb Hj) as [Pold Pnew]. cbv zeta in Pold, Pnew.
    destruct (P1 b Hb) as (Lk & Lv & Q1).
    split.
    + intros Hlt. destruct Pold as [Ek Ev]; [lia|].
      destruct (Q1 (j + length calls)%nat) as [Qk Qv]; [lia|].
      rewrite Ek, Ev, Qk, Qv. now rewrite Nat.add_succ_r.
    + intros Hge.
      destruct (Nat.eq_dec (j + S (length calls)) M) as [Heq|Hne].
      * replace (j + S (length calls) - M)%nat with 0%nat by lia.
        cbn [nth fst snd].
        destruct Pold as [Ek Ev]; [lia|].
        replace (j + length calls)%nat with (M - 1)%nat in Ek, Ev by lia.
        now rewrite Ek, Ev.
      * replace (j + S (length calls) - M)%nat
          with (S (j + length calls - M)) by lia.
        cbn [nth]. apply Pnew. lia.
Qed.

(* ----------------------------------------------------------------- *)
(** ** The surrogate gradient of the spiking activation *)

Lemma map_map_tab {A B} (f : A -> B) n k (Y : nat -> nat -> A) :
  map (map f) (tab n (fun r => tab k (Y r)))
  = tab n (fun r => tab k (fun c => f (Y r c))).
Proof. rewrite map_tab. apply tab_ext. intros r _. apply map_tab. Qed.

Lemma map2_map2_tab {A B C} (f : A -> B -> C) n k
  (X : nat -> nat -> A) (Z : nat -> nat -> B) :
  map2 (map2 f) (tab n (fun r => tab k (X r))) (tab n (fun r => tab k (Z r)))
  = tab n (fun r => tab k (fun c => f (X r c) (Z r c))).
Proof. rewrite map2_tab. apply tab_ext. intros r _. apply map2_tab. Qed.

Lemma entry_tab n k (F : nat -> nat -> R) r c :
  (r < n)%nat -> (c < k)%nat ->
  entry (tab n (fun r => tab k (F r))) r c = F r c.
Proof. intros Hr Hc. unfold entry. now rewrite !nth_tab. Qed.

Lemma act_heaveside_backward_tab (s : R) (n k : nat) (Y G : nat -> nat -> R)
  (A : nat -> R) :
  act_heaveside_backward s
    {| saved_y := tab n (fun r => tab k (Y r)); saved_alpha := tab k A |}
    (tab n (fun r => tab k (G r)))
  = (tab n (fun r => tab k (fun c =>
       A c * (1 / PI * s / ((s * Y r c) ^ 2 + 1)) * G r c)),
     tab n (fun r => tab k (fun c => (1 / PI * atan (Y r c) + 1 / 2) * G r c)),
     tab n (fun r => tab k (fun c =>
       - A c * (1 / PI * s / ((s * Y r c) ^ 2 + 1)) * G r c))).
Proof.
  unfold act_heaveside_backward. cbn [saved_y saved_alpha].
  rewrite !map_map_tab, (map_tab Ropp).
  assert (E : forall (B : nat -> R),
            map (fun d => map2 Rmult (tab k B) d)
              (tab n (fun r => tab k (fun c =>
                 1 / PI * s / ((s * Y r c) ^ 2 + 1))))
            = tab n (fun r => tab k (fun c =>
                B c * (1 / PI * s / ((s * Y r c) ^ 2 + 1))))).
  { intros B. rewrite map_tab. apply tab_ext. intros r _. apply map2_tab. }
  rewrite !E, !map2_map2_tab. reflexivity.
Qed.

(** The surrogate gradient neither vanishes nor explodes: for a positive
    sharpness [s], every entry of the input gradient is the incoming
    gradient times [alpha] times a factor in [(0, s / pi]], and every
    entry of the gradient of [alpha] is the incoming gradient times a
    factor strictly between 0 and 1. *)
Theorem act_heaveside_backward_bounds (s : R) (ctx : heaveside_ctx) (g : mat)
  (size : nat) :
  0 < s ->
  Forall (fun r => length r = size) (saved_y ctx) ->
  length (saved_alpha ctx) = size ->
  length g = length (saved_y ctx) ->
  Forall (fun r => length r = size) g ->
  let '(grad_x, grad_alpha, grad_beta) := act_heaveside_backward s ctx g in
  forall r c, (r < length g)%nat -> (c < size)%nat ->
    (exists d, 0 < d <= s / PI
       /\ entry grad_x r c = d * nth c (saved_alpha ctx) 0 * entry g r c)
    /\ (exists w, 0 < w < 1 /\ entry grad_alpha r c = w * entry g r c)
    /\ Rabs (entry grad_x r c)
       <= s / PI * Rabs (nth c (saved_alpha ctx) 0) * Rabs (entry g r c)
    /\ Rabs (entry grad_alpha r c) <= Rabs (entry g r c).
Proof.
  intros Hs Hy Ha Hg Hgr. destruct ctx as [y alpha]. cbn [saved_y saved_alpha] in *.
  rewrite (rect_tab y size Hy), (rect_tab g size Hgr), (tab_nth alpha size 0 Ha).
  rewrite !length_tab, Hg.
  rewrite act_heaveside_backward_tab.
  intros r c Hr Hc. rewrite !entry_tab, !nth_tab by (assumption || lia).
  set (yv := entry y r c). set (gv := entry g r c). set (av := nth c alpha 0).
  assert (HPI : 0 < PI) by apply PI_RGT_0.
  set (d := 1 / PI * s / ((s * yv) ^ 2 + 1)).
  set (w := 1 / PI * atan yv + 1 / 2).
  assert (Hden : 1 <= (s * yv) ^ 2 + 1) by nra.
  assert (Hd : 0 < d <= s / PI).
  { unfold d. split.
    - apply Rdiv_lt_0_compat; [|lra]. apply Rmult_lt_0_compat; [|lra].
      apply Rdiv_lt_0_compat; lra.
    - replace (1 / PI * s) with (s / PI) by (field; lra).
      assert (0 < s / PI) by (apply Rdiv_lt_0_compat; lra).
      apply Rmult_le_reg_r with ((s * yv) ^ 2 + 1); [lra|].
      unfold Rdiv at 1. rewrite Rmult_assoc, Rinv_l by lra. nra. }
  assert (Hw : 0 < w < 1).
  { unfold w. destruct (atan_bound yv) as [L U].
    assert (Hi : 0 < / PI) by now apply Rinv_0_lt_compat.
    assert (E1 : 1 / PI * (PI / 2) = 1 / 2) by (field; lra).
    assert (E2 : 1 / PI * (- PI / 2) = - (1 / 2)) by (field; lra).
    unfold Rdiv in *. split; nra. }
  repeat split.
  - exists d. split; [exact Hd|]. ring.
  - exists w. split; [exact Hw|]. ring.
  - replace (av * d * gv) with (d * av * gv) by ring.
    rewrite !Rabs_mult, (Rabs_right d) by lra.
    apply Rmult_le_compat_r; [apply Rabs_pos|].
    apply Rmult_le_compat_r; [apply Rabs_pos|]. lra.
  - rewrite Rabs_mult, (Rabs_right w) by lra.
    rewrite <- (Rmult_1_l (Rabs gv)) at 2.
    apply Rmult_le_compat_r; [apply Rabs_pos|]. lra.
Qed.

(* ----------------------------------------------------------------- *)
(** ** Attention without normalisation *)

Lemma dot_scale_l (a : R) (u w : vec) : dot (map (Rmult a) u) w = a * dot u w.
Proof.
  unfold dot. revert w. induction u as [|x u IH]; intros [|y w];
    try (simpl; ring).
  simpl map. rewrite !map2_cons. simpl. rewrite IH. ring.
Qed.

Lemma dot_scale_r (a : R) (u w : vec) : dot u (map (Rmult a) w) = a * dot u w.
Proof.
  unfold dot. revert w. induction u as [|x u IH]; intros [|y w];
    try (simpl; ring).
  simpl map. rewrite !map2_cons. simpl. rewrite IH. ring.
Qed.

Lemma nth_scale (a : R) (l : vec) (d : nat) :
  nth d (map (Rmult a) l) 0 = a * nth d l 0.
Proof.
  rewrite <- (Rmult_0_r a) at 1. apply (map_nth (Rmult a)).
Qed.

Lemma sum_tab_scale (a : R) (n : nat) (f : nat -> R) :
  sum (tab n (fun j => a * f j)) = a * sum (tab n f).
Proof.
  revert f. induction n as [|n IH]; intros f; [simpl; ring|].
  rewrite !tab_S. simpl. rewrite IH. ring.
Qed.

Lemma relu_scale (a x : R) (b : ext) :
  0 <= a -> b = Fin 0 \/ b = NegInf ->
  relu (ext_add (Fin (a * x)) b) = a * relu (ext_add (Fin x) b).
Proof.
  intros Ha [-> | ->]; simpl; [|ring].
  rewrite !Rplus_0_r. unfold Rmax.
  destruct (Rle_dec 0 (a * x)); destruct (Rle_dec 0 x); try nra.
Qed.

Lemma scale4_tab (a : R) B T H (F : nat -> nat -> nat -> vec) :
  scale4 a (tab B (fun b => tab T (fun i => tab H (F b i))))
  = tab B (fun b => tab T (fun i => tab H (fun h => map (Rmult a) (F b i h)))).
Proof.
  unfold scale4. rewrite map_tab. apply tab_ext. intros b _.
  rewrite map_tab. apply tab_ext. intros i _. apply map_tab.
Qed.

Lemma sdpa_homogeneous_tab (cfg : Config) (B L S H G D Dv rep : nat)
  (Q K V : nat -> nat -> nat -> vec) (a : R) :
  (0 < B)%nat -> (0 < L)%nat -> (0 < S)%nat -> (0 < G)%nat ->
  (0 < rep)%nat -> (0 < D)%nat -> H = (G * rep)%nat ->
  (forall b i h, (b < B)%nat -> (i < L)%nat -> (h < H)%nat ->
     length (Q b i h) = D) ->
  (forall b j g, (b < B)%nat -> (j < S)%nat -> (g < G)%nat ->
     length (K b j g) = D) ->
  (forall b j g, (b < B)%nat -> (j < S)%nat -> (g < G)%nat ->
     length (V b j g) = Dv) ->
  0 <= a ->
  let q := tab B (fun b => tab L (fun i => tab H (Q b i))) in
  let k := tab B (fun b => tab S (fun j => tab G (K b j))) in
  let v := tab B (fun b => tab S (fun j => tab G (V b j))) in
  exists y,
    scaled_dot_product_attention cfg q k v None = Ok (y, None)
    /\ scaled_dot_product_attention cfg (scale4 a q) k v None
       = Ok (scale4 a y, None)
    /\ scaled_dot_product_attention cfg q (scale4 a k) v None
       = Ok (scale4 a y, None)
    /\ forall c,
         scaled_dot_product_attention cfg q k (scale4 c v) None
         = Ok (scale4 c y, None).
Proof.
  intros HB HL HS HG Hrep HD HH Lq Lk Lv Ha q k v.
  assert (HHp : (0 < H)%nat) by (subst H; nia).
  set (bias := fun i j : nat => if (j <=? i)%nat then Fin 0 else NegInf).
  set (out := fun (Q K V : nat -> nat -> nat -> vec) =>
    tab B (fun b => tab L (fun i => tab H (fun h => tab Dv (fun d =>
      sum (tab S (fun j =>
             relu (ext_add
                     (Fin (dot (Q b i h) (K b j (h / rep)%nat)
                           * (1 / INR (head_size cfg))))
                     (bias i j))
             * nth d (V b j (h / rep)%nat) 0))))))).
  assert (N : forall Q K V : nat -> nat -> nat -> vec,
            length (Q 0 0 0)%nat = D ->
            (forall b j g, (b < B)%nat -> (j < S)%nat -> (g < G)%nat ->
               length (K b j g) = D) ->
            (forall b j g, (b < B)%nat -> (j < S)%nat -> (g < G)%nat ->
               length (V b j g) = Dv) ->
            scaled_dot_product_attention cfg
              (tab B (fun b => tab L (fun i => tab H (Q b i))))
              (tab B (fun b => tab S (fun j => tab G (K b j))))
              (tab B (fun b => tab S (fun j => tab G (V b j)))) None
            = Ok (out Q K V, None)).
  { intros Q0 K0 V0 HQ HK HV.
    apply scaled_dot_product_attention_tab with (D := D) (G := G); auto.
    apply attention_bias_None. }
  assert (Sc : forall c (Y : nat -> nat -> nat -> nat -> R),
            scale4 c (tab B (fun b => tab L (fun i => tab H (fun h =>
                        tab Dv (Y b i h)))))
            = tab B (fun b => tab L (fun i => tab H (fun h =>
                tab Dv (fun d => c * Y b i h d))))).
  { intros c Y. rewrite scale4_tab. apply tab_ext. intros b _.
    apply tab_ext. intros i _. apply tab_ext. intros h _. apply map_tab. }
  assert (Hb : forall i j, bias i j = Fin 0 \/ bias i j = NegInf)
    by (intros i j; unfold bias; destruct (j <=? i)%nat; auto).
  exists (out Q K V). unfold q, k, v. rewrite !scale4_tab.
  split; [|split; [|split]].
  - apply N; auto.
  - rewrite (N (fun b i h => map (Rmult a) (Q b i h)) K V);
      auto; [|rewrite length_map; auto].
    f_equal. f_equal. unfold out. rewrite Sc.
    apply tab_ext. intros b _. apply tab_ext. intros i _.
    apply tab_ext. intros h _. apply tab_ext. intros d _.
    rewrite <- sum_tab_scale. apply sum_tab_ext. intros j _.
    rewrite dot_scale_l, Rmult_assoc, relu_scale by auto. ring.
  - rewrite (N Q (fun b j g => map (Rmult a) (K b j g)) V);
      auto; [|intros; rewrite length_map; auto].
    f_equal. f_equal. unfold out. rewrite Sc.
    apply tab_ext. intros b _. apply tab_ext. intros i _.
    apply tab_ext. intros h _. apply tab_ext. intros d _.
    rewrite <- sum_tab_scale. apply sum_tab_ext. intros j _.
    rewrite dot_scale_r, Rmult_assoc, relu_scale by auto. ring.
  - intros c. rewrite scale4_tab.
    rewrite (N Q K (fun b j g => map (Rmult c) (V b j g)));
      auto; [|intros; rewrite length_map; auto].
    f_equal. f_equal. unfold out. rewrite Sc.
    apply tab_ext. intros b _. apply tab_ext. intros i _.
    apply tab_ext. intros h _. apply tab_ext. intros d _.
    rewrite <- sum_tab_scale. apply sum_tab_ext. intros j _.
    rewrite nth_scale. ring.
Qed.

(** ReLU attention keeps the scale of its inputs: multiplying the
    queries, or the keys, by [a >= 0] multiplies the output by [a], and
    multiplying the values by any [c] multiplies the output by [c].
    Nothing normalises the weights. *)
Theorem sdpa_homogeneous (cfg : Config) (B L S H G D Dv rep : nat)
  (q k v : tensor4) (a : R) :
  (0 < B)%nat -> (0 < L)%nat -> (0 < S)%nat -> (0 < G)%nat ->
  (0 < rep)%nat -> (0 < D)%nat -> H = (G * rep)%nat ->
  has_shape4 B L H D q = true ->
  has_shape4 B S G D k = true ->
  has_shape4 B S G Dv v = true ->
  0 <= a ->
  exists y,
    scaled_dot_product_attention cfg q k v None = Ok (y, None)
    /\ scaled_dot_product_attention cfg (scale4 a q) k v None
       = Ok (scale4 a y, None)
    /\ scaled_dot_product_attention cfg q (scale4 a k) v None
       = Ok (scale4 a y, None)
    /\ forall c,
         scaled_dot_product_attention cfg q k (scale4 c v) None
         = Ok (scale4 c y, None).
Proof.
  intros HB HL HS HG Hrep HD HH Hq Hk Hv Ha.
  apply has_shape4_tab in Hq as [Eq Lq].
  apply has_shape4_tab in Hk as [Ek Lk].
  apply has_shape4_tab in Hv as [Ev Lv].
  pose proof (sdpa_homogeneous_tab cfg B L S H G D Dv rep
                (get4 q) (get4 k) (get4 v) a
                HB HL HS HG Hrep HD HH Lq Lk Lv Ha) as Hh.
  cbv zeta in Hh. rewrite <- Eq, <- Ek, <- Ev in Hh. exact Hh.
Qed.

(* ----------------------------------------------------------------- *)
(** ** What the initialisation policy touches *)

Lemma string_app_assoc (a b c : string) :
  ((a ++ b) ++ c)%string = (a ++ b ++ c)%string.
Proof. induction a as [|x a IH]; simpl; congruence. Qed.

Lemma init_weights_names (config : Config) (m : module) (n_layer : nat) :
  Forall (fun e : string * init_dist =>
            exists pre, fst e = (pre ++ "weight")%string
                        \/ fst e = (pre ++ "bias")%string)
    (_init_weights config m n_layer).
Proof.
  unfold _init_weights. apply Forall_app. split.
  - destruct (isinstance m C_Embedding).
    + constructor; [|constructor]. exists ""%string. now left.
    + destruct (isinstance m C_Linear); [|constructor].
      constructor; [exists ""%string; now left|].
      destruct (has_param m "bias"); constructor; [|constructor].
      exists ""%string. now right.
  - apply Forall_flat_map, Forall_forall. intros name _.
    match goal with
    | |- Forall _ (if ?c then _ else _) => destruct c eqn:E
    end; [|constructor].
    constructor; [|constructor]. cbn [fst].
    apply orb_prop in E as [E|E].
    + apply andb_prop in E as [E _]. apply String.eqb_eq in E. subst.
      exists "proj."%string. now left.
    + apply orb_prop in E as [E|E]; apply andb_prop in E as [E _];
        apply String.eqb_eq in E; subst.
      * exists "w3."%string. now left.
      * exists "proj."%string. now left.
Qed.

(** Whatever the module tree and the prefix, [apply] with
    [_init_weights] initialises only parameters whose name ends in
    ["weight"] or ["bias"]: the thresholds and [AlphaInit]s of the spiking
    activations ([zero_point], [embed_scale]) and the scalar of
    [NormedLinear] ([scale]) keep the values their constructors gave
    them. *)
Theorem init_weights_only_weights_and_biases (config : Config)
  (n_layer : nat) :
  forall (m : module) (prefix : string),
    Forall (fun e : string * init_dist =>
              exists pre, fst e = (pre ++ "weight")%string
                          \/ fst e = (pre ++ "bias")%string)
      (apply_init_weights config n_layer prefix m).
Proof.
  fix IH 1. intros [c ps ch] prefix. cbn [apply_init_weights].
  apply Forall_app. split.
  - induction ch as [|[name child] ch IHch]; [constructor|].
    apply Forall_app. split; [apply IH|exact IHch].
  - apply Forall_map.
    eapply Forall_impl; [|apply init_weights_names].
    intros e [pre [E|E]]; cbn [fst]; rewrite E;
      exists (prefix ++ pre)%string; [left|right];
      symmetry; apply string_app_assoc.
Qed.

(* ----------------------------------------------------------------- *)
(** ** The gate of SwiGLU *)

Lemma silu_gate (a : R) : exists t, 0 < t < 1 /\ silu a = t * a.
Proof.
  exists (1 / (1 + exp (- a))). pose proof (exp_pos (- a)) as He.
  split; [|unfold silu; ring].
  split.
  - apply Rdiv_lt_0_compat; lra.
  - apply Rmult_lt_reg_r with (1 + exp (- a)); [lra|].
    unfold Rdiv. rewrite Rmult_assoc, Rinv_l; lra.
Qed.

(** [LLaMAMLP.forward] is [w3] applied to the gated hidden row, and the
    gate only shrinks: every hidden entry is the product of the two
    projections of the input times a factor strictly between 0 and 1, so
    it has the sign of that product and a smaller magnitude. *)
Theorem SwiGLU_gate_shrinks (self : LLaMAMLP) (x : vec) :
  let a := Linear_forward (w1 (swiglu self)) x in
  let b := Linear_forward (w2 (swiglu self)) x in
  exists gated,
    LLaMAMLP_forward self x = Linear_forward (w3 (swiglu self)) gated
    /\ length gated = Nat.min (length a) (length b)
    /\ forall j, (j < length gated)%nat ->
         exists t, 0 < t < 1
           /\ nth j gated 0 = t * (nth j a 0 * nth j b 0)
           /\ Rabs (nth j gated 0) <= Rabs (nth j a 0) * Rabs (nth j b 0).
Proof.
  intros a b. exists (map2 Rmult (map silu a) b).
  split; [reflexivity|].
  assert (L : length (map2 Rmult (map silu a) b)
              = Nat.min (length a) (length b))
    by now rewrite length_map2, length_map.
  split; [exact L|].
  intros j Hj. rewrite L in Hj.
  rewrite (nth_map2 _ _ _ _ 0 0 0) by (rewrite ?length_map; lia).
  rewrite (nth_map_lt _ _ 0) by lia.
  destruct (silu_gate (nth j a 0)) as (t & Ht & E).
  exists t. split; [exact Ht|]. rewrite E. split; [ring|].
  rewrite !Rabs_mult, (Rabs_right t) by lra.
  rewrite <- (Rmult_1_l (Rabs (nth j a 0) * Rabs (nth j b 0))).
  rewrite Rmult_assoc.
  apply Rmult_le_compat_r; [|lra].
  apply Rmult_le_pos; apply Rabs_pos.
Qed.

(* ----------------------------------------------------------------- *)
(** ** Eviction with more than one new position *)

(** When the last position is [max_seq_length] or more, the index is
    replaced by the one position [max_seq_length - 1]: new keys that hold
    another number of positions than one cannot be copied, and the call
    raises an [IndexError]. *)
Theorem kv_cache_write_overflow_many (max_seq_length T : nat)
  (input_pos : list nat) (cache_k cache_v k v : tensor4) :
  input_pos <> [] ->
  (max_seq_length <= last input_pos 0)%nat ->
  k <> [] -> Forall (fun kb => length kb = T) k -> T <> 1%nat ->
  kv_cache_write max_seq_length input_pos (cache_k, cache_v) k v
  = Raise (IndexError
      "index_copy_(): Number of indices should be equal to source.size(dim)").
Proof.
  intros Hne Hlast Hk HT HT1. unfold kv_cache_write.
  rewrite last_pos_last by assumption. cbn [bind].
  replace (max_seq_length <=? last input_pos 0)%nat with true
    by (symmetry; now apply Nat.leb_le).
  unfold index_copy_1.
  replace (forallb (fun sb => (length [(max_seq_length - 1)%nat]
                               =? length sb)%nat) k) with false;
    [reflexivity|].
  destruct k as [|kb k]; [congruence|]. inversion HT as [|? ? Hkb _]. subst.
  cbn [forallb length].
  replace (1 =? length kb)%nat with false; [reflexivity|].
  symmetry. apply Nat.eqb_neq. lia.
Qed.

(* ----------------------------------------------------------------- *)
(** ** The key cache and an odd rotary width *)

Lemma zeros4_shape (B M G D : nat) : has_shape4 B M G D (zeros4 B M G D) = true.
Proof.
  unfold zeros4.
  rewrite <- (tab_const B (fun _ => repeat (repeat (repeat 0 D) G) M) _)
    by reflexivity.
  rewrite (tab_ext B _ (fun b => tab M (fun _ => repeat (repeat 0 D) G)))
    by (intros b _; symmetry; now apply tab_const).
  apply has_shape4_tab_intro. intros b j _ _. split.
  - apply repeat_length.
  - apply Forall_forall. intros c Hc. apply repeat_spec in Hc. subst.
    apply repeat_length.
Qed.

Lemma shape4_of_shape (B T G D : nat) (t : tensor4) :
  (0 < B)%nat -> (0 < T)%nat -> (0 < G)%nat ->
  has_shape4 B T G D t = true -> shape4 t = (B, T, G, D).
Proof.
  intros HB HT HG Ht. apply has_shape4_tab in Ht as [E Len].
  rewrite E. unfold shape4.
  rewrite length_tab, ncols_tab, length_tab by assumption.
  rewrite hd_tab by assumption.
  rewrite ncols_tab, length_tab by assumption.
  rewrite hd_tab by assumption.
  rewrite ncols_tab by assumption.
  now rewrite Len.
Qed.

(** [build_kv_caches] sizes the key cache from the width of the rotary
    table, which is [ceil(n_elem / 2)]: for an odd rotary width the key
    cache is one column wider than the keys, and the first write of any
    cached call into any layer's cache raises a [RuntimeError]. *)
Theorem odd_rotary_breaks_cache (cfg : Config) (x : tensor3)
  (max_seq_length i p : nat) (k v : tensor4) :
  Nat.odd (rotary_n_elem cfg) = true ->
  (i < block_size cfg)%nat ->
  x <> [] -> (0 < n_query_groups cfg)%nat -> (p < max_seq_length)%nat ->
  has_shape4 (length x) 1 (n_query_groups cfg) (head_size cfg) k = true ->
  let cos := [nth i (fst (QuantGPT_build_rope_cache cfg)) []] in
  let caches := build_kv_caches cfg x max_seq_length (ncols cos * 2) in
  length caches = n_layer cfg
  /\ forall c, In c caches ->
       has_shape4 (length x) max_seq_length (n_query_groups cfg)
         (head_size cfg + 1) (fst c) = true
       /\ kv_cache_write max_seq_length [p] c k v
          = Raise (RuntimeError
              "index_copy_(): Source/destination tensor must have same slice shapes").
Proof.
  intros Hodd Hi Hx HG Hp Hk cos caches.
  assert (HB : (0 < length x)%nat) by (destruct x; [congruence|simpl; lia]).
  destruct (rope_cache_shape cfg) as (_ & _ & Hrow).
  assert (Hw : (ncols cos * 2 + head_size cfg - rotary_n_elem cfg
                = head_size cfg + 1)%nat).
  { unfold cos, ncols. cbn [hd]. rewrite (Hrow i Hi).
    apply Nat.odd_spec in Hodd as [m Hm]. rewrite Hm.
    replace (2 * m + 1 + 1)%nat with ((m + 1) * 2)%nat by lia.
    rewrite Nat.div_mul by lia. lia. }
  assert (Hheads : (if (n_query_groups cfg =? 1)%nat then 1%nat
                    else n_query_groups cfg) = n_query_groups cfg)
    by (destruct (Nat.eqb_spec (n_query_groups cfg) 1); congruence).
  unfold caches, build_kv_caches. rewrite Hw, Hheads.
  split; [apply repeat_length|].
  intros c Hc. apply repeat_spec in Hc. subst c. cbn [fst].
  set (ck := zeros4 (length x) max_seq_length (n_query_groups cfg)
               (head_size cfg + 1)).
  assert (Sck : has_shape4 (length x) max_seq_length (n_query_groups cfg)
                  (head_size cfg + 1) ck = true) by apply zeros4_shape.
  split; [exact Sck|].
  unfold kv_cache_write. cbn [last_pos rev app bind].
  replace (max_seq_length <=? p)%nat with false
    by (symmetry; apply Nat.leb_gt; lia).
  unfold index_copy_1.
  assert (C1 : forallb (fun sb : tensor3 => (length [p] =? length sb)%nat) k
               = true).
  { apply forallb_forall. intros sb Hsb.
    unfold has_shape4, is_rect in Hk. apply andb_prop in Hk as [_ Hk].
    rewrite forallb_forall in Hk. specialize (Hk sb Hsb).
    unfold has_shape3, is_rect in Hk. apply andb_prop in Hk as [Hl _].
    apply Nat.eqb_eq in Hl. apply Nat.eqb_eq. simpl. lia. }
  assert (C2 : forallb (fun cb : tensor3 =>
                          forallb (fun i0 => (i0 <? length cb)%nat) [p]) ck
               = true).
  { apply forallb_forall. intros cb Hcb.
    unfold has_shape4, is_rect in Sck. apply andb_prop in Sck as [_ Sck].
    rewrite forallb_forall in Sck. specialize (Sck cb Hcb).
    unfold has_shape3, is_rect in Sck. apply andb_prop in Sck as [Hl _].
    apply Nat.eqb_eq in Hl. cbn [forallb]. rewrite Hl.
    replace (p <? max_seq_length)%nat with true; [reflexivity|].
    symmetry. apply Nat.ltb_lt. lia. }
  rewrite C1, C2. cbn [negb].
  assert (HM : (0 < max_seq_length)%nat) by lia.
  rewrite (shape4_of_shape _ _ _ _ ck HB HM HG Sck).
  rewrite (shape4_of_shape _ _ _ _ k HB Nat.lt_0_1 HG Hk).
  cbn [fst snd].
  replace (head_size cfg + 1 =? head_size cfg)%nat with false
    by (symmetry; apply Nat.eqb_neq; lia).
  now rewrite andb_false_r.
Qed.

End Model.

(* ================================================================= *)
(** * The theorems at concrete inputs *)

Lemma AlphaInit_initialized_at_most_once_witness :
  exists out self',
    ParamHeaveside_forward (ParamHeaveside___init__ 2) [[1; -2]; [3; 4]]
    = Ok (out, self')
    /\ initialized (embed_scale self') = true.
Proof.
  destruct (AlphaInit_initialized_at_most_once
              (ParamHeaveside___init__ 2) [[1; -2]; [3; 4]] [[0; 0]] [] [])
    as (out & self' & H1 & H2 & _).
  - reflexivity.
  - discriminate.
  - repeat constructor.
  - exists out, self'. split; assumption.
Defined.

Lemma spiking_activation_forward_backward_witness :
  exists out ctx alpha',
    act_heaveside_forward [[1]] {| data := [2]; initialized := true |} [0]
    = Ok (out, ctx, alpha').
Proof.
  destruct (spiking_activation_forward_backward
              [[1]] {| data := [2]; initialized := true |} [0] [[1]] 4 1)
    as (out & ctx & alpha' & H1 & _).
  - reflexivity.
  - reflexivity.
  - repeat constructor.
  - reflexivity.
  - repeat constructor.
  - exists out, ctx, alpha'. exact H1.
Defined.

Lemma NormedLinear_columns_normalized_witness :
  mean (col 0 (normalized_weight [[1; 0]; [0; 0]])) = 0.
Proof.
  destruct (NormedLinear_columns_normalized
              {| nl_linear := {| weight := [[1; 0]; [0; 0]]; bias := None |};
                 nl_scale := / 100 |} [1; 1] 2) as [_ Hcol].
  - discriminate.
  - repeat constructor.
  - apply (Hcol 0%nat). lia.
Defined.

Lemma sdpa_relu_causal_witness :
  attention_bias 1 1 None
  = (tab 1 (fun i => tab 1 (fun j => if (j <=? i)%nat then Fin 0 else NegInf)),
     None).
Proof.
  apply (sdpa_relu_causal small_config 1 1 1 1 1 1 1 1
           [[[[1]]]] [[[[1]]]] [[[[1]]]]); try lia; reflexivity.
Defined.



Lemma incremental_decode_matches_full_witness :
  exists full self_full out self_i,
    QuantGPT_forward (fun _ _ x => x) (fun x => x) small_config small_model
      [[0; 1]%nat] (Some 2%nat) None
    = Ok (full, self_full)
    /\ decode (fun _ _ x => x) (fun x => x) small_config small_model
         [[0; 1]%nat] 2 1
       = Ok (out, self_i)
    /\ out = position 1 full.
Proof.
  apply (incremental_decode_matches_full (fun _ _ x => x) (fun x => x)
           small_config).
  - reflexivity.
  - reflexivity.
  - reflexivity.
  - repeat split; auto.
  - discriminate.
  - repeat constructor.
  - repeat constructor; simpl; lia.
  - simpl. lia.
  - lia.
Defined.

Lemma act_quantization_levels_witness :
  Forall (fun y =>
            0 <= y <= 6
            /\ exists k : Z,
                 (0 <= k)%Z /\ IZR k <= 2 ^ 4 - 1
                 /\ y = IZR k / (2 ^ 4 - 1) * 6)
    (fst (act_quantization_forward 4 [1; -1; 7] 6)).
Proof. apply act_quantization_levels; [lia|lra]. Defined.

Lemma act_quantization_error_witness :
  Forall2 (fun xi y =>
             (xi <= 0 -> y = 0)
             /\ (6 <= xi -> y = 6)
             /\ (0 <= xi <= 6 -> Rabs (y - xi) <= 6 / (2 * (2 ^ 4 - 1))))
    [1; -1; 7] (fst (act_quantization_forward 4 [1; -1; 7] 6)).
Proof. apply act_quantization_error; [lia|lra]. Defined.

Lemma act_quantization_idempotent_witness :
  fst (act_quantization_forward 4
         (fst (act_quantization_forward 4 [1; -1; 7] 6)) 6)
  = fst (act_quantization_forward 4 [1; -1; 7] 6).
Proof. apply act_quantization_idempotent; [lia|lra]. Defined.

Lemma act_quantization_straight_through_witness :
  let '(out, ctx) := act_quantization_forward 4 [1; -1; 7] 6 in
  let '(grad_input, grad_alpha) := act_quantization_backward ctx [1; 1; 1] in
  (forall i, (i < 3)%nat ->
     nth i grad_input 0
     = if Rlt_dec 6 (nth i [1; -1; 7] 0) then 0 else nth i [1; 1; 1] 0)
  /\ grad_alpha
     = sum (tab 3 (fun i =>
              nth i [1; 1; 1] 0
              * (if Rlt_dec 6 (nth i [1; -1; 7] 0) then 1
                 else (nth i out 0 - nth i [1; -1; 7] 0) / 6))).
Proof.
  apply (act_quantization_straight_through 4 [1; -1; 7] [1; 1; 1] 6);
    [lra|reflexivity].
Defined.

Lemma apply_rope_composes_witness :
  apply_rope (apply_rope [1; 0] (rope_cos [1]) (rope_sin [1]))
    (rope_cos [2]) (rope_sin [2])
  = apply_rope [1; 0] (rope_cos (map2 Rplus [1] [2]))
      (rope_sin (map2 Rplus [1] [2]))
  /\ apply_rope [1; 0] (rope_cos (map (fun _ => 0) [1]))
       (rope_sin (map (fun _ => 0) [1]))
     = [1; 0]
  /\ apply_rope (apply_rope [1; 0] (rope_cos [1]) (rope_sin [1]))
       (rope_cos (map Ropp [1])) (rope_sin (map Ropp [1]))
     = [1; 0].
Proof. apply apply_rope_composes; reflexivity. Defined.

Lemma apply_rope_relative_position_witness :
  dot (apply_rope [1; 0] (rope_cos [1]) (rope_sin [1]))
      (apply_rope [0; 1] (rope_cos [2]) (rope_sin [2]))
  = dot (apply_rope [1; 0] (rope_cos (map2 Rminus [1] [2]))
           (rope_sin (map2 Rminus [1] [2]))) [0; 1]
  /\ dot (apply_rope [1; 0] (rope_cos [1]) (rope_sin [1]))
         (apply_rope [0; 1] (rope_cos [1]) (rope_sin [1]))
     = dot [1; 0] [0; 1]
  /\ norm2 (apply_rope [1; 0] (rope_cos [1]) (rope_sin [1])) = norm2 [1; 0].
Proof. apply apply_rope_relative_position; reflexivity. Defined.

Lemma NormedLinear_shift_invariant_witness :
  let self :=
    {| nl_linear := {| weight := [[1; 2]; [3; 5]]; bias := None |};
       nl_scale := 2 |} in
  let self' :=
    {| nl_linear := {| weight := [[1 + 7; 2 + 9]; [3 + 7; 5 + 9]];
                       bias := None |};
       nl_scale := 2 |} in
  NormedLinear_weight self' = NormedLinear_weight self
  /\ forall x, NormedLinear_forward self' x = NormedLinear_forward self x.
Proof.
  apply (NormedLinear_shift_invariant _ _ [7; 9] 2).
  - discriminate.
  - repeat constructor.
  - reflexivity.
  - reflexivity.
  - reflexivity.
  - reflexivity.
Defined.


Lemma forward_token_out_of_range_witness :
  QuantGPT_forward (fun _ _ x => x) (fun x => x) small_config small_model
    [[5%nat]] None None
  = Raise (IndexError "index out of range in self").
Proof.
  apply (forward_token_out_of_range (fun _ _ x => x) (fun x => x)
           small_config small_model [[5%nat]] None None).
  - vm_compute. lia.
  - vm_compute. lia.
  - intros _. vm_compute. lia.
  - repeat constructor.
Defined.

Lemma forward_position_out_of_range_witness :
  QuantGPT_forward (fun _ _ x => x) (fun x => x) small_config small_model
    [[0%nat]] None (Some [3%nat])
  = Raise (IndexError "index out of range in self").
Proof.
  apply (forward_position_out_of_range (fun _ _ x => x) (fun x => x)
           small_config small_model [[0%nat]] None [3%nat]).
  - left. reflexivity.
  - vm_compute. lia.
  - vm_compute. lia.
  - repeat constructor.
Defined.

Lemma forward_logits_shape_witness :
  exists logits self',
    QuantGPT_forward (fun _ _ x => x) (fun x => x) small_config small_model
      [[0; 1]%nat] None None
    = Ok (logits, self')
    /\ has_shape3 1 2 2 logits = true
    /\ lm_head self' = lm_head small_model /\ wte self' = wte small_model
    /\ h self' = h small_model /\ mask_cache self' = mask_cache small_model
    /\ kv_caches self' = kv_caches small_model
    /\ rope_cache self'
       = Some (QuantGPT_build_rope_cache (fun x => x) small_config).
Proof.
  apply (forward_logits_shape (fun _ _ x => x) (fun x => x) small_config
           ltac:(reflexivity) eq_refl small_model [[0; 1]%nat] 2 2 None).
  - reflexivity.
  - left. reflexivity.
  - reflexivity.
  - discriminate.
  - repeat constructor.
  - repeat constructor; vm_compute; lia.
  - vm_compute. lia.
  - discriminate.
Defined.


Lemma forward_batch_independent_witness :
  exists full one s s',
    QuantGPT_forward (fun _ _ x => x) (fun x => x) small_config small_model
      [[0; 1]; [1; 1]]%nat None None
    = Ok (full, s)
    /\ QuantGPT_forward (fun _ _ x => x) (fun x => x) small_config small_model
         [nth 1 [[0; 1]; [1; 1]]%nat []] None None
       = Ok (one, s')
    /\ one = [nth 1 full []].
Proof.
  apply (forward_batch_independent (fun _ _ x => x) (fun x => x) small_config
           ltac:(reflexivity) eq_refl small_model
           [[0; 1]; [1; 1]]%nat 2 1).
  - reflexivity.
  - left. reflexivity.
  - repeat constructor.
  - repeat constructor; vm_compute; lia.
  - vm_compute. lia.
  - vm_compute. lia.
Defined.

Lemma forward_keeps_weights_witness :
  exists logits self',
    QuantGPT_forward (fun _ _ x => x) (fun x => x) small_config small_model
      [[0; 1]%nat] None None
    = Ok (logits, self')
    /\ lm_head self' = lm_head small_model /\ wte self' = wte small_model
    /\ Forall2 block_kept (h small_model) (h self').
Proof.
  pose proof (QuantGPT_forward_full_any (fun _ _ x => x) (fun x => x)
                small_config ltac:(reflexivity) eq_refl small_model
                [[0; 1]%nat] 2 None eq_refl (or_introl eq_refl)
                ltac:(discriminate) ltac:(repeat constructor)
                ltac:(repeat constructor; vm_compute; lia)
                ltac:(vm_compute; lia) ltac:(discriminate)) as E.
  eexists _, _. split; [exact E|].
  exact (forward_keeps_weights _ _ _ _ _ _ _ _ _ E).
Defined.

Lemma forward_repeatable_witness :
  exists logits self',
    QuantGPT_forward (fun _ _ x => x) (fun x => x) small_config small_model
      [[0; 1]%nat] None None
    = Ok (logits, self')
    /\ QuantGPT_forward (fun _ _ x => x) (fun x => x) small_config self'
         [[0; 1]%nat] None None
       = Ok (logits, self').
Proof.
  pose proof (QuantGPT_forward_full_any (fun _ _ x => x) (fun x => x)
                small_config ltac:(reflexivity) eq_refl small_model
                [[0; 1]%nat] 2 None eq_refl (or_introl eq_refl)
                ltac:(discriminate) ltac:(repeat constructor)
                ltac:(repeat constructor; vm_compute; lia)
                ltac:(vm_compute; lia) ltac:(discriminate)) as E.
  eexists _, _. split; [exact E|].
  exact (forward_repeatable _ _ _ _ _ _ _ _ E).
Defined.

Lemma kv_cache_window_witness :
  exists k' v',
    kv_cache_writes 2
      [([2%nat], [[[[5]]]], [[[[6]]]]); ([7%nat], [[[[8]]]], [[[[9]]]])]
      ([[[[1]]; [[2]]]], [[[[3]]; [[4]]]])
    = Ok (k', v')
    /\ slot k' 0 0 = [[5]] /\ slot k' 0 1 = [[8]]
    /\ slot v' 0 0 = [[6]] /\ slot v' 0 1 = [[9]].
Proof.
  destruct (kv_cache_window 2 1 1 1 1
              [([2%nat], [[[[5]]]], [[[[6]]]]); ([7%nat], [[[[8]]]], [[[[9]]]])]
              ltac:(lia) ltac:(lia) ltac:(lia))
    with (ck := [[[[1]]; [[2]]]]) (cv := [[[[3]]; [[4]]]])
    as (k' & v' & E & _ & _ & P).
  - constructor; [|constructor; [|constructor]].
    + split; [exists 2%nat; split; [reflexivity|lia]|split; reflexivity].
    + split; [exists 7%nat; split; [reflexivity|lia]|split; reflexivity].
  - simpl. lia.
  - reflexivity.
  - reflexivity.
  - exists k', v'. split; [exact E|].
    destruct (P 0%nat 0%nat ltac:(lia) ltac:(lia)) as [_ P0].
    destruct (P 0%nat 1%nat ltac:(lia) ltac:(lia)) as [_ P1].
    destruct (P0 ltac:(simpl; lia)) as [K0 V0].
    destruct (P1 ltac:(simpl; lia)) as [K1 V1].
    repeat split; assumption.
Defined.

Lemma decode_cache_invariant_witness :
  exists out self',
    decode (fun _ _ x => x) (fun x => x) small_config small_model
      [[0; 1]%nat] 2 0
    = Ok (out, self')
    /\ length (kv_caches self') = 1%nat
    /\ Forall (fun c : KVCache =>
                 has_shape4 1 2 1 2 (fst c) = true
                 /\ has_shape4 1 2 1 2 (snd c) = true
                 /\ forall b j, (b < 1)%nat -> (0 < j < 2)%nat ->
                      slot (fst c) b j = zero_slot small_config
                      /\ slot (snd c) b j = zero_slot small_config)
         (kv_caches self').
Proof.
  apply (decode_cache_invariant (fun _ _ x => x) (fun x => x) small_config
           ltac:(reflexivity) eq_refl small_model [[0; 1]%nat] 2 0).
  - reflexivity.
  - repeat split; auto.
  - discriminate.
  - repeat constructor.
  - repeat constructor; vm_compute; lia.
  - vm_compute. lia.
  - lia.
Defined.


Lemma act_heaveside_backward_bounds_witness :
  let ctx := {| saved_y := [[1; -2]]; saved_alpha := [3; 4] |} in
  let '(grad_x, grad_alpha, grad_beta) :=
    act_heaveside_backward 4 ctx [[5; 6]] in
  forall r c, (r < 1)%nat -> (c < 2)%nat ->
    (exists d, 0 < d <= 4 / PI
       /\ entry grad_x r c = d * nth c [3; 4] 0 * entry [[5; 6]] r c)
    /\ (exists w, 0 < w < 1 /\ entry grad_alpha r c = w * entry [[5; 6]] r c)
    /\ Rabs (entry grad_x r c)
       <= 4 / PI * Rabs (nth c [3; 4] 0) * Rabs (entry [[5; 6]] r c)
    /\ Rabs (entry grad_alpha r c) <= Rabs (entry [[5; 6]] r c).
Proof.
  apply (act_heaveside_backward_bounds 4
           {| saved_y := [[1; -2]]; saved_alpha := [3; 4] |} [[5; 6]] 2).
  - lra.
  - repeat constructor.
  - reflexivity.
  - reflexivity.
  - repeat constructor.
Defined.

Lemma sdpa_homogeneous_witness :
  exists y,
    scaled_dot_product_attention small_config
      [[[[1; 1]]]] [[[[1; 1]]]] [[[[1; 0]]]] None
    = Ok (y, None)
    /\ scaled_dot_product_attention small_config
         (scale4 3 [[[[1; 1]]]]) [[[[1; 1]]]] [[[[1; 0]]]] None
       = Ok (scale4 3 y, None)
    /\ scaled_dot_product_attention small_config
         [[[[1; 1]]]] (scale4 3 [[[[1; 1]]]]) [[[[1; 0]]]] None
       = Ok (scale4 3 y, None)
    /\ forall c,
         scaled_dot_product_attention small_config
           [[[[1; 1]]]] [[[[1; 1]]]] (scale4 c [[[[1; 0]]]]) None
         = Ok (scale4 c y, None).
Proof.
  apply (sdpa_homogeneous small_config 1 1 1 1 1 2 2 1); try lia;
    try reflexivity.
  lra.
Defined.

Lemma Block_forward_without_cache_witness :
  Block_forward (fun _ _ x => x) small_config small_block
    [[[1; 0; 0; 0]; [0; 1; 0; 0]]] ([[1]; [1]], [[0]; [0]]) 2 None None None
  = Ok (map (block_seq (fun _ _ x => x) small_config small_block
               [[1]; [1]] [[0]; [0]])
          [[[1; 0; 0; 0]; [0; 1; 0; 0]]],
        None, None, small_block).
Proof.
  apply (proj1 (Block_forward_without_cache (fun _ _ x => x) small_config
                  ltac:(reflexivity) eq_refl small_block
                  [[[1; 0; 0; 0]; [0; 1; 0; 0]]] [[1]; [1]] [[0]; [0]] 2 2
                  eq_refl ltac:(discriminate) ltac:(lia)
                  ltac:(repeat constructor) eq_refl eq_refl)).
Defined.

Lemma kv_cache_write_overflow_many_witness :
  kv_cache_write 2 [2%nat; 3%nat] ([[[[1]]; [[2]]]], [[[[3]]; [[4]]]])
    [[[[5]]; [[6]]]] [[[[7]]; [[8]]]]
  = Raise (IndexError
      "index_copy_(): Number of indices should be equal to source.size(dim)").
Proof.
  apply (kv_cache_write_overflow_many 2 2).
  - discriminate.
  - simpl. lia.
  - discriminate.
  - repeat constructor.
  - lia.
Defined.

Lemma odd_rotary_breaks_cache_witness :
  let caches :=
    build_kv_caches odd_rotary_config [[[1; 0; 0; 0]]] 2
      (ncols [nth 0 (fst (QuantGPT_build_rope_cache (fun x => x)
                            odd_rotary_config)) []] * 2) in
  length caches = 1%nat
  /\ forall c, In c caches ->
       has_shape4 1 2 1 3 (fst c) = true
       /\ kv_cache_write 2 [0%nat] c [[[[1; 1]]]] [[[[1; 1]]]]
          = Raise (RuntimeError
              "index_copy_(): Source/destination tensor must have same slice shapes").
Proof.
  apply (odd_rotary_breaks_cache (fun x => x) odd_rotary_config
           [[[1; 0; 0; 0]]] 2 0 0 [[[[1; 1]]]] [[[[1; 1]]]]).
  - reflexivity.
  - vm_compute. lia.
  - discriminate.
  - vm_compute. lia.
  - lia.
  - reflexivity.
Defined.
